(** * Installation sync engine (src/sync/installation.ts)

    A shallow embedding of the installation sync engine: task selection
    ([getNextTask]), the page-size fallback ([execute]), the progress update
    ([updateJobStatus]) and the job handler with its failure cascade
    ([processInstallation]).

    Conventions of the embedding.
    - JavaScript numbers that the engine computes with are integers or NaN:
      [JSNum].
    - An [async] function is a state-and-exception computation [M A] over a
      [World] holding the subscription table, the installation queue and the
      trace of observable side effects (log lines, metrics, outgoing calls),
      in the order they happen.  One job runs at a time: nothing else writes
      the table between two steps of the handler.
    - Collaborators that live outside the engine (the paged task processors,
      the Jira client, the GitHub REST client, the clock, the process
      environment) are the fields of [Env].  Within one job each of them is
      consulted at most once per argument, so a function of the arguments
      describes every behaviour they can show during that job.
    - The subscription model (models/subscription) is not part of the
      sources at hand; its [set] and [save] are modelled from the
      specification of the progress store.
    - The annotations sent to Sentry ([job.sentry.setUser], [setExtra]) have
      no effect on the engine and are left out. *)

From Stdlib Require Import ZArith NArith List String Ascii Bool Lia.
From stdpp Require Import gmap strings list fin_maps sorting pretty.

Local Open Scope Z_scope.

(** ** JavaScript values used by the engine *)

Module JS.

(** A number: an integer, or NaN (the result of converting [undefined] or a
    non-numeric string). *)
Inductive JSNum : Type :=
| NaN
| Num (z : Z).

Definition sub (a b : JSNum) : JSNum :=
  match a, b with
  | Num x, Num y => Num (x - y)
  | _, _ => NaN
  end.

Definition mul (a b : JSNum) : JSNum :=
  match a, b with
  | Num x, Num y => Num (x * y)
  | _, _ => NaN
  end.

(** [Math.max(a, b)]: NaN as soon as one argument is NaN. *)
Definition Math_max (a b : JSNum) : JSNum :=
  match a, b with
  | Num x, Num y => Num (Z.max x y)
  | _, _ => NaN
  end.

(** Truthiness of a number: neither NaN nor 0. *)
Definition truthy (a : JSNum) : bool :=
  match a with
  | NaN => false
  | Num z => negb (z =? 0)
  end.

(** [a || d] on numbers. *)
Definition or_default (a : JSNum) (d : Z) : Z :=
  match a with
  | NaN => d
  | Num z => if z =? 0 then d else z
  end.

(** Unary plus applied to a header value that may be [undefined]. *)
Definition unary_plus (v : option Z) : JSNum :=
  match v with
  | None => NaN
  | Some z => Num z
  end.

(** [hay.includes(needle)] *)
Fixpoint includes (hay needle : string) : bool :=
  String.prefix needle hay ||
  match hay with
  | EmptyString => false
  | String _ rest => includes rest needle
  end.

Definition toUpperCase_ascii (c : ascii) : ascii :=
  let n := nat_of_ascii c in
  if ((97 <=? n)%nat && (n <=? 122)%nat)%bool then ascii_of_nat (n - 32) else c.

End JS.

Import JS.

(** ** Errors raised by the collaborators *)

(** One entry of [err.errors] of a GraphQL error. *)
Record GraphQLError : Type := { gql_type : string }.

(** Response headers carried by an error; [x_ratelimit_reset] is the value
    of the [x-ratelimit-reset] header (epoch seconds) when it is there. *)
Record Headers : Type := { x_ratelimit_reset : option Z }.

Record JSError : Type := {
  err_name : string;
  err_message : string;
  err_headers : option Headers;
  err_errors : option (list GraphQLError)
}.

(** [String(err)], as [Error.prototype.toString] builds it. *)
Definition String_of_error (err : JSError) : string :=
  if String.eqb (err_name err) EmptyString then err_message err
  else if String.eqb (err_message err) EmptyString then err_name err
  else err_name err +:+ ": " +:+ err_message err.

Definition new_Error (message : string) : JSError :=
  {| err_name := "Error"; err_message := message;
     err_headers := None; err_errors := None |}.

(** The error of reading a property of [undefined]. *)
Definition TypeError_undefined (prop : string) : JSError :=
  {| err_name := "TypeError";
     err_message := "Cannot read property '" +:+ prop +:+ "' of undefined";
     err_headers := None; err_errors := None |}.

Inductive Outcome (A : Type) : Type :=
| Return (a : A)
| Throw (e : JSError).
Arguments Return {A} a.
Arguments Throw {A} e.

(** ** Task catalog *)

Inductive Task : Type := pull | branch | commit.

Definition taskName (t : Task) : string :=
  match t with
  | pull => "pull"
  | branch => "branch"
  | commit => "commit"
  end.

(** [Object.keys(tasks)]: the keys in declaration order. *)
Definition taskTypes : list Task := [pull; branch; commit].

Definition upperFirst (str : string) : string :=
  match str with
  | EmptyString => EmptyString
  | String c rest => String (toUpperCase_ascii c) rest
  end.

Definition getCursorKey (jobType : string) : string :=
  "last" +:+ upperFirst jobType +:+ "Cursor".

(** ** Pages and the fallback over page sizes *)

Record Edge : Type := { cursor : string }.

(** What a task processor resolves to: the edges of the page and the payload
    for Jira, if there is one. *)
Record Page : Type := {
  edges : list Edge;
  jiraPayload : option string
}.

Definition ignoredErrorTypes : list string := ["MAX_NODE_LIMIT_EXCEEDED"].

Definition list_includes (l : list string) (s : string) : bool :=
  existsb (String.eqb s) l.

(** [handleGitHubError]: returns when every entry of [err.errors] has an
    ignored type, re-throws [err] otherwise. *)
Definition handleGitHubError (err : JSError) : Outcome unit :=
  match err_errors err with
  | Some errors =>
      let notIgnoredError :=
        length (List.filter
                  (fun error => negb (list_includes ignoredErrorTypes (gql_type error)))
                  errors) in
      if (0 <? notIgnoredError)%nat then Throw err else Return tt
  | None => Throw err
  end.

Definition pageSizes : list nat := [20; 10; 5; 1]%nat.

Section Execute.

(** [pagedProcessor perPage]: the page, or the error the processor
    rejects with. *)
Variable pagedProcessor : nat -> Page + JSError.

(** The error thrown once every page size has been tried. *)
Variable exhausted : JSError.

(** The [for] loop of [execute] over the remaining page sizes; the second
    component lists the page sizes the processor was called with. *)
Fixpoint execute_from (sizes : list nat) : Outcome Page * list nat :=
  match sizes with
  | [] => (Throw exhausted, [])
  | perPage :: rest =>
      match pagedProcessor perPage with
      | inl page => (Return page, [perPage])
      | inr err =>
          match handleGitHubError err with
          | Throw e => (Throw e, [perPage])
          | Return _ =>
              let '(out, called) := execute_from rest in
              (out, perPage :: called)
          end
      end
  end.

Definition execute : Outcome Page * list nat := execute_from pageSizes.

(** The processor rejects at [perPage] with an error that
    [handleGitHubError] swallows. *)
Definition capacityExceeded (perPage : nat) : Prop :=
  exists err errors,
    pagedProcessor perPage = inr err /\
    err_errors err = Some errors /\
    Forall (fun error => In (gql_type error) ignoredErrorTypes) errors.

(** The processor rejects at [perPage] with an error that
    [handleGitHubError] re-throws. *)
Definition otherError (perPage : nat) (err : JSError) : Prop :=
  pagedProcessor perPage = inr err /\
  (err_errors err = None \/
   exists errors, err_errors err = Some errors /\
     Exists (fun error => ~ In (gql_type error) ignoredErrorTypes) errors).

End Execute.

(** ** Progress store *)

Inductive TaskStatus : Type := pending | complete.

Inductive SyncStatus : Type := PENDING | ACTIVE | COMPLETE | FAILED.

#[global] Instance TaskStatus_eq_dec : EqDecision TaskStatus.
Proof. solve_decision. Defined.

#[global] Instance SyncStatus_eq_dec : EqDecision SyncStatus.
Proof. solve_decision. Defined.

#[global] Instance Task_eq_dec : EqDecision Task.
Proof. solve_decision. Defined.

(** The repository summary kept with a repository's progress; only the
    fields the engine reads.  [updated_at] is a number, as the subtraction
    in [sortedRepos] takes it. *)
Record Repository : Type := {
  repo_id : N;
  updated_at : Z
}.

(** Progress of one repository.  A field is [None] when the stored object
    has no such key: records written before the summary was introduced have
    no [repository], a task that has not started has neither status nor
    cursor. *)
Record RepoData : Type := {
  repository : option Repository;
  pullStatus : option TaskStatus;
  branchStatus : option TaskStatus;
  commitStatus : option TaskStatus;
  lastPullCursor : option string;
  lastBranchCursor : option string;
  lastCommitCursor : option string
}.

(** [repoData[`${taskType}Status`]] *)
Definition statusOf (taskType : Task) (repoData : RepoData) : option TaskStatus :=
  match taskType with
  | pull => pullStatus repoData
  | branch => branchStatus repoData
  | commit => commitStatus repoData
  end.

(** [repoData[getCursorKey(task)]] *)
Definition cursorOf (task : Task) (repoData : RepoData) : option string :=
  match task with
  | pull => lastPullCursor repoData
  | branch => lastBranchCursor repoData
  | commit => lastCommitCursor repoData
  end.

(** The [repos] object: repository identifiers are GitHub's numeric ids. *)
Record RepoSyncState : Type := {
  numberOfSyncedRepos : option nat;
  repos : gmap N RepoData
}.

(** A row of the subscription table; the table is keyed by
    [(jiraHost, gitHubInstallationId)]. *)
Record Subscription : Type := {
  syncStatus : SyncStatus;
  repoSyncState : RepoSyncState
}.

(** *** Partial objects handed to [set] and [update] *)

(** A field is [None] when the object literal does not mention the key. *)
Record RepoPatch : Type := {
  p_repository : option Repository;
  p_pullStatus : option TaskStatus;
  p_branchStatus : option TaskStatus;
  p_commitStatus : option TaskStatus;
  p_lastPullCursor : option string;
  p_lastBranchCursor : option string;
  p_lastCommitCursor : option string
}.

Record RepoSyncStatePatch : Type := {
  p_numberOfSyncedRepos : option nat;
  p_repos : gmap N RepoPatch
}.

Record SubscriptionPatch : Type := {
  p_syncStatus : option SyncStatus;
  p_repoSyncState : option RepoSyncStatePatch
}.

(** [{[`${task}Status`]: status}] *)
Definition statusEntry (task : Task) (status : TaskStatus) : RepoPatch :=
  match task with
  | pull =>
      {| p_repository := None; p_pullStatus := Some status; p_branchStatus := None;
         p_commitStatus := None; p_lastPullCursor := None;
         p_lastBranchCursor := None; p_lastCommitCursor := None |}
  | branch =>
      {| p_repository := None; p_pullStatus := None; p_branchStatus := Some status;
         p_commitStatus := None; p_lastPullCursor := None;
         p_lastBranchCursor := None; p_lastCommitCursor := None |}
  | commit =>
      {| p_repository := None; p_pullStatus := None; p_branchStatus := None;
         p_commitStatus := Some status; p_lastPullCursor := None;
         p_lastBranchCursor := None; p_lastCommitCursor := None |}
  end.

(** [{[getCursorKey(task)]: c}] *)
Definition cursorEntry (task : Task) (c : string) : RepoPatch :=
  match task with
  | pull =>
      {| p_repository := None; p_pullStatus := None; p_branchStatus := None;
         p_commitStatus := None; p_lastPullCursor := Some c;
         p_lastBranchCursor := None; p_lastCommitCursor := None |}
  | branch =>
      {| p_repository := None; p_pullStatus := None; p_branchStatus := None;
         p_commitStatus := None; p_lastPullCursor := None;
         p_lastBranchCursor := Some c; p_lastCommitCursor := None |}
  | commit =>
      {| p_repository := None; p_pullStatus := None; p_branchStatus := None;
         p_commitStatus := None; p_lastPullCursor := None;
         p_lastBranchCursor := None; p_lastCommitCursor := Some c |}
  end.

(** [{repository: repository}] *)
Definition repositoryEntry (r : Repository) : RepoPatch :=
  {| p_repository := Some r; p_pullStatus := None; p_branchStatus := None;
     p_commitStatus := None; p_lastPullCursor := None;
     p_lastBranchCursor := None; p_lastCommitCursor := None |}.

(** [{repoSyncState: {repos: {[repositoryId]: entry}}}] *)
Definition reposPatch (repositoryId : N) (entry : RepoPatch) : SubscriptionPatch :=
  {| p_syncStatus := None;
     p_repoSyncState :=
       Some {| p_numberOfSyncedRepos := None;
               p_repos := {[ repositoryId := entry ]} |} |}.

(** [{repoSyncState: {numberOfSyncedRepos: n}}] *)
Definition syncedPatch (n : nat) : SubscriptionPatch :=
  {| p_syncStatus := None;
     p_repoSyncState :=
       Some {| p_numberOfSyncedRepos := Some n; p_repos := ∅ |} |}.

(** [{syncStatus: s}] *)
Definition syncStatusPatch (s : SyncStatus) : SubscriptionPatch :=
  {| p_syncStatus := Some s; p_repoSyncState := None |}.

Definition emptyRepoData : RepoData :=
  {| repository := None; pullStatus := None; branchStatus := None;
     commitStatus := None; lastPullCursor := None; lastBranchCursor := None;
     lastCommitCursor := None |}.

Definition orElse {A : Type} (new old : option A) : option A :=
  match new with
  | Some _ => new
  | None => old
  end.

Definition mergeRepoData (repoData : RepoData) (entry : RepoPatch) : RepoData :=
  {| repository := orElse (p_repository entry) (repository repoData);
     pullStatus := orElse (p_pullStatus entry) (pullStatus repoData);
     branchStatus := orElse (p_branchStatus entry) (branchStatus repoData);
     commitStatus := orElse (p_commitStatus entry) (commitStatus repoData);
     lastPullCursor := orElse (p_lastPullCursor entry) (lastPullCursor repoData);
     lastBranchCursor := orElse (p_lastBranchCursor entry) (lastBranchCursor repoData);
     lastCommitCursor := orElse (p_lastCommitCursor entry) (lastCommitCursor repoData) |}.

Definition mergeRepoEntry (old : option RepoData) (entry : option RepoPatch)
  : option RepoData :=
  match entry with
  | None => old
  | Some e => Some (mergeRepoData (default emptyRepoData old) e)
  end.

Definition mergeRepoSyncState (st : RepoSyncState) (p : RepoSyncStatePatch)
  : RepoSyncState :=
  {| numberOfSyncedRepos := orElse (p_numberOfSyncedRepos p) (numberOfSyncedRepos st);
     repos := merge mergeRepoEntry (repos st) (p_repos p) |}.

(** Modelled from the spec: [subscription.set(values)] of the subscription
    model (models/subscription), which is not part of the sources at hand.
    The spec describes each call by the one value it writes ("set the task's
    status", "store the last edge's continuation token as the new cursor",
    "set overall status") and nothing else of the row changes, so the partial
    object is merged into the in-memory row key by key: a key absent from
    the object keeps its stored value, a repository identifier absent from
    the map is added with the keys the object gives it. *)
Definition set (subscription : Subscription) (values : SubscriptionPatch)
  : Subscription :=
  {| syncStatus := default (syncStatus subscription) (p_syncStatus values);
     repoSyncState :=
       match p_repoSyncState values with
       | Some p => mergeRepoSyncState (repoSyncState subscription) p
       | None => repoSyncState subscription
       end |}.

(** ** Jobs, queue and world *)

Record JobData : Type := {
  installationId : Z;
  jiraHost : string;
  startTime : option string
}.

Record JobOpts : Type := {
  removeOnComplete : option bool;
  removeOnFail : option bool
}.

Record Job : Type := {
  data : JobData;
  opts : JobOpts
}.

(** The options object of one [queues.installation.add]; [None] for a key
    the object does not have. *)
Record AddOpts : Type := {
  add_attempts : option nat;
  add_delay : option JSNum;
  add_removeOnComplete : option bool;
  add_removeOnFail : option bool
}.

Inductive LogLine : Type :=
| OrganizationDeleted
| UpdatingJobStatus (installation : Z) (repositoryId : N) (task : Task) (status : TaskStatus)
| SyncComplete (installation : Z) (timing : option (string * Z * JSNum))
| SyncPending (installation : Z)
| StartingJob (installation : Z)
| StartingTask (installation : Z) (repositoryId : N) (task : Task)
| DelayingJob (delay : JSNum) (installation : Z) (repositoryId : N) (task : Task)
| TimedOut (installation : Z) (repositoryId : N) (task : Task)
| AbuseDetection (installation : Z) (repositoryId : N) (task : Task)
| RepositoryDeleted (installation : Z) (repositoryId : N) (task : Task).

(** Observable side effects other than the table and the queue, in the
    order they happen. *)
Inductive Event : Type :=
| Log (line : LogLine)
| LogWarn (err : JSError)
| Histogram (name : string) (value : JSNum)
| Fetch (task : Task) (perPage : nat)
| GetRepository (repositoryId : N)
| JiraRepositoryUpdate (payload : string)
| JiraMigrationComplete.

Record World : Type := {
  db : gmap (string * Z) Subscription;
  queue : list (JobData * AddOpts);
  trace : list Event
}.

Definition M (A : Type) : Type := World -> Outcome A * World.

Definition ret {A : Type} (a : A) : M A := fun w => (Return a, w).

Definition throw {A : Type} (e : JSError) : M A := fun w => (Throw e, w).

Definition bind {A B : Type} (m : M A) (k : A -> M B) : M B :=
  fun w =>
    match m w with
    | (Return a, w') => k a w'
    | (Throw e, w') => (Throw e, w')
    end.

(** [try { m } catch (err) { handler err }] *)
Definition try_catch {A : Type} (m : M A) (handler : JSError -> M A) : M A :=
  fun w =>
    match m w with
    | (Return a, w') => (Return a, w')
    | (Throw e, w') => handler e w'
    end.

Declare Scope engine_scope.
Delimit Scope engine_scope with engine.
Notation "x <- m ;; k" := (bind m (fun x => k))
  (at level 100, m at next level, right associativity) : engine_scope.
Notation "m ;;; k" := (bind m (fun _ => k))
  (at level 100, right associativity) : engine_scope.
Local Open Scope engine_scope.

Definition emit (e : Event) : M unit :=
  fun w => (Return tt, {| db := db w; queue := queue w; trace := trace w ++ [e] |}).

Definition emit_all (es : list Event) : M unit :=
  fun w => (Return tt, {| db := db w; queue := queue w; trace := trace w ++ es |}).

Definition app_log (line : LogLine) : M unit := emit (Log line).

(** [queues.installation.add(data, opts)] *)
Definition queue_add (d : JobData) (o : AddOpts) : M unit :=
  fun w => (Return tt, {| db := db w; queue := queue w ++ [(d, o)]; trace := trace w |}).

Definition jobKey (job : Job) : string * Z :=
  (jiraHost (data job), installationId (data job)).

(** [Subscription.getSingleInstallation(jiraHost, installationId)]: the
    progress store's [load], which answers with the row or with nothing. *)
Definition getSingleInstallation (key : string * Z) : M (option Subscription) :=
  fun w => (Return (db w !! key), w).

(** Modelled from the spec: [subscription.save()] of the subscription model,
    which is not part of the sources at hand.  The progress store's
    [save(installation)] writes the in-memory row back; on an installation
    that no longer exists it answers "not found", which is not an error and
    creates nothing. *)
Definition save (key : string * Z) (subscription : Subscription) : M unit :=
  fun w =>
    (Return tt,
     {| db := match db w !! key with
              | Some _ => <[ key := subscription ]> (db w)
              | None => db w
              end;
        queue := queue w; trace := trace w |}).

(** [subscription.update(values)]: [set] followed by [save]; the result is
    the in-memory row after the call. *)
Definition update (key : string * Z) (subscription : Subscription)
  (values : SubscriptionPatch) : M Subscription :=
  let subscription' := set subscription values in
  save key subscription' ;;; ret subscription'.

(** ** Collaborators *)

Record Env : Type := {
  (** [Date.now()], in milliseconds *)
  Date_now : Z;
  (** [Date.parse] *)
  Date_parse : string -> JSNum;
  (** [Number(process.env.LIMITER_PER_INSTALLATION)] *)
  LIMITER_PER_INSTALLATION : JSNum;
  (** [tasks[task](github, repository, cursor, perPage)] *)
  processor : Task -> Repository -> option string -> nat -> Page + JSError;
  (** [GET /repositories/:id] followed by [getRepositorySummary] *)
  github_repository : N -> Repository + JSError;
  (** [jiraClient.devinfo.repository.update]: the error it rejects with *)
  jira_repository_update : string -> option JSError;
  (** [jiraClient.devinfo.migration.complete]: the error it rejects with *)
  jira_migration_complete : option JSError;
  (** [getJiraClient] and [app.auth]: the error they reject with *)
  getJiraClient : option JSError;
  app_auth : option JSError
}.

Definition reject_with (e : option JSError) : M unit :=
  match e with
  | Some err => throw err
  | None => ret tt
  end.

Definition lift {A : Type} (o : Outcome A) : M A := fun w => (o, w).

(** ** Enumeration and sorting of the repositories *)

(** An array index: an integer key below 2^32 - 1. *)
Definition arrayIndex (k : N) : Prop := (k < 4294967295)%N.

(** [Object.keys(o)] for an object whose keys are array indices: the keys in
    ascending order.  JavaScript lists integer keys from 2^32 - 1 on after
    the array indices and in the order of their insertion, which the map does
    not record: a statement about the order of the keys requires them to be
    array indices. *)
Definition Object_keys {V : Type} (o : gmap N V) : list N :=
  merge_sort N.le (elements (dom o)).

(** [Object.entries(o)]: the pair [[k, o[k]]] for each key, in the order of
    [Object.keys]. *)
Definition Object_entries {V : Type} (o : gmap N V) : list (N * V) :=
  omap (fun k => pair k <$> o !! k) (Object_keys o).

Section ArraySort.

Context {A : Type}.

(** The comparison function handed to [sort]; it may throw. *)
Variable compareFn : A -> A -> Outcome Z.

(** Inserts [a], which stood before every element of [l] in the array,
    into the sorted [l]: [a] passes exactly the elements that compare
    strictly before it. *)
Fixpoint sort_insert (a : A) (l : list A) : Outcome (list A) :=
  match l with
  | [] => Return [a]
  | b :: rest =>
      match compareFn a b with
      | Throw e => Throw e
      | Return c =>
          if 0 <? c then
            match sort_insert a rest with
            | Throw e => Throw e
            | Return l' => Return (b :: l')
            end
          else Return (a :: l)
      end
  end.

(** [Array.prototype.sort(compareFn)]: a stable sort; the comparison
    function is not called on arrays of fewer than two elements. *)
Fixpoint Array_sort (l : list A) : Outcome (list A) :=
  match l with
  | [] => Return []
  | a :: rest =>
      match Array_sort rest with
      | Throw e => Throw e
      | Return sorted => sort_insert a sorted
      end
  end.

End ArraySort.

(** [(a, b) => b[1].repository.updated_at - a[1].repository.updated_at] *)
Definition byUpdatedAt (a b : N * RepoData) : Outcome Z :=
  match repository b.2 with
  | None => Throw (TypeError_undefined "updated_at")
  | Some rb =>
      match repository a.2 with
      | None => Throw (TypeError_undefined "updated_at")
      | Some ra => Return (updated_at rb - updated_at ra)
      end
  end.

Definition sortedRepos (repos : gmap N RepoData) : Outcome (list (N * RepoData)) :=
  Array_sort byUpdatedAt (Object_entries repos).

(** ** Task selection *)

Definition isComplete (s : option TaskStatus) : bool :=
  match s with
  | Some complete => true
  | _ => false
  end.

Definition isSynced (repoData : RepoData) : bool :=
  isComplete (pullStatus repoData) && isComplete (branchStatus repoData)
  && isComplete (commitStatus repoData).

(** The identifiers [updateNumberOfReposSynced] keeps: all 3 statuses need
    to be complete for a repo to be fully synced. *)
Definition syncedRepos (repos : gmap N RepoData) : list N :=
  let repoIds := Object_keys repos in
  List.filter (fun id => match repos !! id with
                         | Some repoData => isSynced repoData
                         | None => false
                         end) repoIds.

Definition updateNumberOfReposSynced (key : string * Z) (repos : gmap N RepoData)
  (subscription : Subscription) : M Subscription :=
  update key subscription (syncedPatch (length (syncedRepos repos))).

Record NextTask : Type := {
  nt_task : Task;
  nt_repositoryId : N;
  nt_repository : option Repository;
  nt_cursor : option string
}.

(** [taskTypes.find(taskType => repoData[`${taskType}Status`] !== 'complete')] *)
Definition firstIncomplete (repoData : RepoData) : option Task :=
  List.find (fun taskType => negb (isComplete (statusOf taskType repoData))) taskTypes.

(** The [for] loop of [getNextTask] over the sorted repositories. *)
Fixpoint firstTask (sorted : list (N * RepoData)) : option NextTask :=
  match sorted with
  | [] => None
  | (repositoryId, repoData) :: rest =>
      match firstIncomplete repoData with
      | None => firstTask rest
      | Some task =>
          Some {| nt_task := task; nt_repositoryId := repositoryId;
                  nt_repository := repository repoData;
                  nt_cursor := cursorOf task repoData |}
      end
  end.

(** [getNextTask]: the task found, with the in-memory row as the call
    leaves it. *)
Definition getNextTask (key : string * Z) (subscription : Subscription)
  : M (option NextTask * Subscription) :=
  let repos := repos (repoSyncState subscription) in
  subscription' <- updateNumberOfReposSynced key repos subscription ;;
  sorted <- lift (sortedRepos repos) ;;
  ret (firstTask sorted, subscription').

(** ** Progress update *)

Definition inheritedOpts (job : Job) (attempts : option nat) (delay : option JSNum)
  : AddOpts :=
  {| add_attempts := attempts; add_delay := delay;
     add_removeOnComplete := removeOnComplete (opts job);
     add_removeOnFail := removeOnFail (opts job) |}.

(** [updateJobStatus(app, queues, jiraClient, job, edges, task,
    repositoryId)] *)
Definition updateJobStatus (env : Env) (job : Job) (edges : list Edge)
  (task : Task) (repositoryId : N) : M unit :=
  let installationId := installationId (data job) in
  let key := jobKey job in
  fetched <- getSingleInstallation key ;;
  match fetched with
  | None => app_log OrganizationDeleted
  | Some subscription =>
      let status := if (0 <? length edges)%nat then pending else complete in
      app_log (UpdatingJobStatus installationId repositoryId task status) ;;;
      let subscription := set subscription (reposPatch repositoryId (statusEntry task status)) in
      (* [edges.length > 0] holds exactly when there is a last edge *)
      match last edges with
      | Some lastEdge =>
          let subscription :=
            set subscription (reposPatch repositoryId (cursorEntry task (cursor lastEdge))) in
          let delay := or_default (LIMITER_PER_INSTALLATION env) 1000 in
          queue_add (data job) (inheritedOpts job (Some 3%nat) (Some (Num delay))) ;;;
          save key subscription
      | None =>
          found <- getNextTask key subscription ;;
          let subscription := found.2 in
          match found.1 with
          | None =>
              let subscription := set subscription (syncStatusPatch COMPLETE) in
              timing <-
                match startTime (data job) with
                | Some started =>
                    let endTime := Date_now env in
                    let timeDiff := sub (Num endTime) (Date_parse env started) in
                    emit (Histogram "full_sync" timeDiff) ;;;
                    ret (Some (started, endTime, timeDiff))
                | None => ret None
                end ;;
              app_log (SyncComplete installationId timing) ;;;
              try_catch
                (emit JiraMigrationComplete ;;;
                 reject_with (jira_migration_complete env))
                (fun err => emit (LogWarn err)) ;;;
              save key subscription
          | Some _ =>
              app_log (SyncPending installationId) ;;;
              queue_add (data job) (inheritedOpts job (Some 3%nat) None) ;;;
              save key subscription
          end
      end
  end.

(** ** The job handler *)

(** The error [execute] throws after the last page size. *)
Definition exhaustedError (installationId : Z) (repositoryId : N) (task : Task)
  : JSError :=
  new_Error ("Error processing GraphQL query: installationId=" +:+ pretty installationId
             +:+ ", repositoryId=" +:+ pretty repositoryId
             +:+ ", task=" +:+ taskName task).

(** What the handler holds when it enters its [try] block. *)
Record Prepared : Type := {
  pr_subscription : Subscription;
  pr_task : Task;
  pr_repositoryId : N;
  pr_repository : Repository;
  pr_cursor : option string
}.

(** [processInstallation] up to the [try] block: [None] when the handler has
    returned already. *)
Definition prepare (env : Env) (job : Job) : M (option Prepared) :=
  let installationId := installationId (data job) in
  let key := jobKey job in
  app_log (StartingJob installationId) ;;;
  fetched <- getSingleInstallation key ;;
  match fetched with
  | None => ret None
  | Some subscription =>
      reject_with (getJiraClient env) ;;;
      reject_with (app_auth env) ;;;
      found <- getNextTask key subscription ;;
      let subscription := found.2 in
      match found.1 with
      | None =>
          update key subscription (syncStatusPatch COMPLETE) ;;;
          ret None
      | Some nextTask =>
          subscription <- update key subscription (syncStatusPatch ACTIVE) ;;
          let task := nt_task nextTask in
          let repositoryId := nt_repositoryId nextTask in
          let cursor := nt_cursor nextTask in
          loaded <-
            match nt_repository nextTask with
            | Some repository => ret (repository, subscription)
            | None =>
                (* Old records don't have this info. New ones have it *)
                emit (GetRepository repositoryId) ;;;
                match github_repository env repositoryId with
                | inr err => throw err
                | inl repository =>
                    subscription <-
                      update key subscription
                        (reposPatch (repo_id repository) (repositoryEntry repository)) ;;
                    ret (repository, subscription)
                end
            end ;;
          app_log (StartingTask installationId repositoryId task) ;;;
          ret (Some {| pr_subscription := loaded.2; pr_task := task;
                       pr_repositoryId := repositoryId;
                       pr_repository := loaded.1; pr_cursor := cursor |})
      end
  end.

(** [execute] of the handler, with its calls of the processor recorded. *)
Definition runExecute (env : Env) (job : Job) (p : Prepared) : M Page :=
  let pagedProcessor := processor env (pr_task p) (pr_repository p) (pr_cursor p) in
  let result :=
    execute pagedProcessor
      (exhaustedError (installationId (data job)) (pr_repositoryId p) (pr_task p)) in
  emit_all (Fetch (pr_task p) <$> result.2) ;;;
  lift result.1.

(** The [try] block. *)
Definition tryBlock (env : Env) (job : Job) (p : Prepared) : M unit :=
  page <- runExecute env job p ;;
  match jiraPayload page with
  | Some payload =>
      emit (JiraRepositoryUpdate payload) ;;;
      (* the inner [catch] attaches diagnostics and throws [err] again *)
      reject_with (jira_repository_update env payload)
  | None => ret tt
  end ;;;
  updateJobStatus env job (edges page) (pr_task p) (pr_repositoryId p).

Definition rateLimitOf (err : JSError) : JSNum :=
  unary_plus (match err_headers err with
              | Some headers => x_ratelimit_reset headers
              | None => None
              end).

(** [Math.max(Date.now() - rateLimit * 1000, 0)] *)
Definition delayOf (env : Env) (err : JSError) : JSNum :=
  Math_max (sub (Num (Date_now env)) (mul (rateLimitOf err) (Num 1000))) (Num 0).

Definition isTimeout (err : JSError) : bool :=
  includes (String_of_error err) "connect ETIMEDOUT".

Definition isAbuse (err : JSError) : bool :=
  includes (err_message err) "You have triggered an abuse detection mechanism".

(** [err.errors && err.errors.filter(error => error.type === 'NOT_FOUND').length] *)
Definition isNotFoundError (err : JSError) : bool :=
  match err_errors err with
  | Some errors =>
      (0 <? length (List.filter (fun error => String.eqb (gql_type error) "NOT_FOUND")
                                errors))%nat
  | None => false
  end.

(** The [catch] block. *)
Definition catchBlock (env : Env) (job : Job) (p : Prepared) (err : JSError)
  : M unit :=
  let installationId := installationId (data job) in
  let task := pr_task p in
  let repositoryId := pr_repositoryId p in
  let delay := delayOf env err in
  if truthy delay then (* if not NaN or 0 *)
    app_log (DelayingJob delay installationId repositoryId task) ;;;
    queue_add (data job) (inheritedOpts job None (Some delay))
  else if isTimeout err then
    app_log (TimedOut installationId repositoryId task) ;;;
    queue_add (data job) (inheritedOpts job None (Some (Num 5000)))
  else if isAbuse err then
    app_log (AbuseDetection installationId repositoryId task) ;;;
    queue_add (data job) (inheritedOpts job None (Some (Num 60000)))
  else if isNotFoundError err then
    app_log (RepositoryDeleted installationId repositoryId task) ;;;
    updateJobStatus env job [] task repositoryId
  else
    update (jobKey job) (pr_subscription p) (syncStatusPatch FAILED) ;;;
    throw err.

(** [processInstallation(app, queues)(job)]: a thrown outcome is the
    rejection of the promise. *)
Definition processInstallation (env : Env) (job : Job) : M unit :=
  prepared <- prepare env job ;;
  match prepared with
  | None => ret tt
  | Some p => try_catch (tryBlock env job p) (catchBlock env job p)
  end.

(** ** Vocabulary of the statements *)

(** [task] is the first task type, in declaration order, that [repoData]
    has not completed. *)
Definition firstOutstanding (repoData : RepoData) (task : Task) : Prop :=
  exists earlier later,
    taskTypes = earlier ++ task :: later /\
    Forall (fun t => isComplete (statusOf t repoData) = true) earlier /\
    isComplete (statusOf task repoData) = false.

Definition hasSummary (e : N * RepoData) : Prop := is_Some (repository e.2).

Definition updatedOf (e : N * RepoData) : Z :=
  match repository e.2 with
  | Some r => updated_at r
  | None => 0
  end.

(** [a] is visited before [b]: more recently updated, or as recently and
    with the smaller identifier. *)
Definition visitedBefore (a b : N * RepoData) : Prop :=
  updatedOf b < updatedOf a \/ (updatedOf a = updatedOf b /\ (a.1 < b.1)%N).

(** The in-memory row once [updateJobStatus] has marked [task] complete. *)
Definition completed (sub : Subscription) (rid : N) (task : Task) : Subscription :=
  set sub (reposPatch rid (statusEntry task complete)).

(** The in-memory row once [updateNumberOfReposSynced] has counted. *)
Definition counted (sub : Subscription) : Subscription :=
  set sub (syncedPatch (length (syncedRepos (repos (repoSyncState sub))))).

(** The timing [updateJobStatus] reports when the job carries a
    [startTime]. *)
Definition timingOf (env : Env) (job : Job) : option (string * Z * JSNum) :=
  match startTime (data job) with
  | Some started =>
      Some (started, Date_now env, sub (Num (Date_now env)) (Date_parse env started))
  | None => None
  end.

(** What [updateJobStatus] emits after the last task of the installation. *)
Definition completionEvents (env : Env) (job : Job) : list Event :=
  match timingOf env job with
  | Some timing => [Histogram "full_sync" timing.2]
  | None => []
  end ++
  [Log (SyncComplete (installationId (data job)) (timingOf env job));
   JiraMigrationComplete] ++
  match jira_migration_complete env with
  | Some err => [LogWarn err]
  | None => []
  end.

(** The status of [task] stored for repository [rid]. *)
Definition storedStatus (sub : Subscription) (rid : N) (task : Task)
  : option TaskStatus :=
  repoData ← repos (repoSyncState sub) !! rid; statusOf task repoData.

(** The cursor of [task] stored for repository [rid]. *)
Definition storedCursor (sub : Subscription) (rid : N) (task : Task)
  : option string :=
  repoData ← repos (repoSyncState sub) !! rid; cursorOf task repoData.

(** The row [updateJobStatus] leaves in the table when it is called with no
    edges on the stored row [sub]. *)
Definition rowAfterCompletion (sub : Subscription) (rid : N) (task : Task)
  : Subscription :=
  let counted := counted (completed sub rid task) in
  match sortedRepos (repos (repoSyncState (completed sub rid task))) with
  | Return sorted =>
      match firstTask sorted with
      | Some _ => counted
      | None => set counted (syncStatusPatch COMPLETE)
      end
  | Throw _ => counted
  end.

(** The world after a few more events. *)
Definition logged (w : World) (es : list Event) : World :=
  {| db := db w; queue := queue w; trace := trace w ++ es |}.

(** *** The repository map never loses an entry *)

(** The in-memory row still has every repository of [known]. *)
Definition covers (known : gset N) (sub : Subscription) : Prop :=
  known ⊆ dom (repos (repoSyncState sub)).

(** The stored row of [key] exists and still has every repository of
    [known]. *)
Definition stored (key : string * Z) (known : gset N) (w : World) : Prop :=
  exists row, db w !! key = Some row /\ covers known row.

(** [m] keeps the stored row covering [known], and a value it returns
    satisfies [Q]. *)
Definition keeps {A : Type} (key : string * Z) (known : gset N)
  (m : M A) (Q : A -> Prop) : Prop :=
  forall w, stored key known w ->
    stored key known (m w).2 /\ forall a, (m w).1 = Return a -> Q a.

(** ** Concrete installations *)

Module Examples.

Definition job : Job :=
  {| data := {| installationId := 7; jiraHost := "acme.atlassian.net";
                startTime := Some "2021-03-01T09:46:40Z" |};
     opts := {| removeOnComplete := Some true; removeOnFail := None |} |}.

Definition progress (summary : option Repository)
  (pullS branchS commitS : option TaskStatus) : RepoData :=
  {| repository := summary; pullStatus := pullS; branchStatus := branchS;
     commitStatus := commitS; lastPullCursor := None; lastBranchCursor := None;
     lastCommitCursor := None |}.

Definition summary (id : N) (updated : Z) : option Repository :=
  Some {| repo_id := id; updated_at := updated |}.

Definition done : option TaskStatus := Some complete.

Definition subscription (status : SyncStatus) (repos : gmap N RepoData) : Subscription :=
  {| syncStatus := status;
     repoSyncState := {| numberOfSyncedRepos := None; repos := repos |} |}.

Definition world (sub : Subscription) : World :=
  {| db := {[ jobKey job := sub ]}; queue := []; trace := [] |}.

(** Two repositories; repository 1 still has its branches to fetch,
    repository 2 its branches and commits. *)
Definition twoRepos : gmap N RepoData :=
  {[ 1%N := progress (summary 1 100) done (Some pending) done;
     2%N := progress (summary 2 200) done None None ]}.

(** One repository with only its commits left. *)
Definition lastCommits : gmap N RepoData :=
  {[ 1%N := progress (summary 1 100) done done (Some pending) ]}.

(** Two fully synced repositories; the record of repository 1 was written
    before the summary was introduced. *)
Definition oldRecord : gmap N RepoData :=
  {[ 1%N := progress None done done done;
     2%N := progress (summary 2 200) done done done ]}.

Definition capacityError : JSError :=
  {| err_name := "GraphqlError"; err_message := "MAX_NODE_LIMIT_EXCEEDED";
     err_headers := None;
     err_errors := Some [ {| gql_type := "MAX_NODE_LIMIT_EXCEEDED" |} ] |}.

Definition notFoundError : JSError :=
  {| err_name := "GraphqlError";
     err_message := "Could not resolve to a Repository with the name 'acme/gone'.";
     err_headers := None;
     err_errors := Some [ {| gql_type := "NOT_FOUND" |} ] |}.

(** A not-found answer that reached the engine through a broken
    connection. *)
Definition notFoundTimeout : JSError :=
  {| err_name := "GraphqlError";
     err_message := "connect ETIMEDOUT 140.82.112.6:443";
     err_headers := None;
     err_errors := Some [ {| gql_type := "NOT_FOUND" |} ] |}.

(** Rate limited until 2021-03-01T10:00:10Z, in epoch seconds. *)
Definition rateLimited : JSError :=
  {| err_name := "HttpError"; err_message := "API rate limit exceeded";
     err_headers := Some {| x_ratelimit_reset := Some 1614592810 |};
     err_errors := None |}.

Definition serverError : JSError :=
  {| err_name := "HttpError"; err_message := "Server Error";
     err_headers := None; err_errors := None |}.

Definition page (cursors : list string) : Page :=
  {| edges := (fun c => {| cursor := c |}) <$> cursors; jiraPayload := None |}.

(** The clock reads 2021-03-01T10:00:00Z; every fetch answers [answer]. *)
Definition env (answer : nat -> Page + JSError) : Env :=
  {| Date_now := 1614592800000;
     Date_parse := fun _ => Num 1614592000000;
     LIMITER_PER_INSTALLATION := NaN;
     processor := fun _ _ _ perPage => answer perPage;
     github_repository := fun id => inl {| repo_id := id; updated_at := 0 |};
     jira_repository_update := fun _ => None;
     jira_migration_complete := None;
     getJiraClient := None;
     app_auth := None |}.

Definition always (err : JSError) : nat -> Page + JSError := fun _ => inr err.

(** Too many nodes at 20 and 10 per page, a page of two edges at 5. *)
Definition shrinking : nat -> Page + JSError :=
  fun perPage =>
    if (5 <? perPage)%nat then inr capacityError else inl (page ["c1"; "c2"]).

Definition noPrepared : Prepared :=
  {| pr_subscription := subscription PENDING ∅; pr_task := pull;
     pr_repositoryId := 0%N;
     pr_repository := {| repo_id := 0; updated_at := 0 |}; pr_cursor := None |}.

(** What [prepare] hands to the [try] block. *)
Definition preparedBy (e : Env) (w : World) : Prepared :=
  match (prepare e job w).1 with
  | Return (Some p) => p
  | _ => noPrepared
  end.

Definition sortedOf (repos : gmap N RepoData) : list (N * RepoData) :=
  match sortedRepos repos with
  | Return sorted => sorted
  | Throw _ => []
  end.

(** The installation of [twoRepos], its sync not yet started. *)
Definition pendingTwo : Subscription := subscription PENDING twoRepos.

(** The installation of [lastCommits]. *)
Definition pendingLast : Subscription := subscription PENDING lastCommits.

(** The installation of [oldRecord]. *)
Definition syncedOld : Subscription := subscription COMPLETE oldRecord.

Definition twoEdges : list Edge := edges (page ["c1"; "c2"]).

(** A run of the handler: the outcome and the world it leaves. *)
Definition handled (answer : nat -> Page + JSError) (sub : Subscription)
  : Outcome unit * World :=
  processInstallation (env answer) job (world sub).

(** The world in which the [try] block of that run starts. *)
Definition ready (answer : nat -> Page + JSError) (sub : Subscription) : World :=
  (prepare (env answer) job (world sub)).2.

(** The world in which the [catch] block of that run starts. *)
Definition caught (answer : nat -> Page + JSError) (sub : Subscription) : World :=
  (tryBlock (env answer) job (preparedBy (env answer) (world sub)) (ready answer sub)).2.

End Examples.

(** ** Vocabulary for whole runs of the handler *)

(** Between [w] and [w'] exactly one job was added: the data of [job], with
    the removal options of [job]. *)
Definition enqueuedOnce (job : Job) (w w' : World) : Prop :=
  exists attempts delay,
    queue w' = queue w ++ [(data job, inheritedOpts job attempts delay)].

(** Between [w] and [w'] the table changed at most in the row of [job],
    which now holds [row]. *)
Definition rowWritten (job : Job) (w w' : World) (row : Subscription) : Prop :=
  db w' = <[ jobKey job := row ]> (db w).

(** The number of repositories whose three tasks are complete. *)
Definition syncedCount (repos : gmap N RepoData) : nat := length (syncedRepos repos).

(** * Jira client: bulk repository update
    (the client module at the end of src/worker/index.ts)

    The payload helpers of the Jira client and its [devinfo.repository.update].
    A payload is a plain value here; the functions that mutate their argument
    in the source return the mutated payload.  Every commit and branch of a
    payload carries an [issueKeys] array, and no object is shared between the
    [commits] array and the [lastCommit] of a branch. *)

Module JiraClient.

Local Open Scope nat_scope.

(** Max number of issue keys we can pass to the Jira API *)
Definition ISSUE_KEY_API_LIMIT : nat := 100.

(** A commit of a payload: its [id], its [issueKeys] and the fields the
    client never looks at. *)
Record Commit : Type := {
  commit_id : string;
  commit_issueKeys : list string;
  commit_fields : string
}.

Record Branch : Type := {
  branch_fields : string;
  branch_issueKeys : list string;
  lastCommit : option Commit
}.

(** The repository object handed to [update]; [commits] and [branches] may be
    missing. *)
Record RepositoryObj : Type := {
  commits : option (list Commit);
  branches : option (list Branch);
  repository_fields : string
}.

(** What [updateIssueKeysFor] needs of a resource: an [issueKeys] field that
    can be read and assigned. *)
Class Resource (R : Type) : Type := {
  issueKeys : R -> list string;
  set_issueKeys : list string -> R -> R
}.

#[global] Instance commit_resource : Resource Commit := {|
  issueKeys := commit_issueKeys;
  set_issueKeys := fun keys resource =>
    {| commit_id := commit_id resource; commit_issueKeys := keys;
       commit_fields := commit_fields resource |}
|}.

#[global] Instance branch_resource : Resource Branch := {|
  issueKeys := branch_issueKeys;
  set_issueKeys := fun keys resource =>
    {| branch_fields := branch_fields resource; branch_issueKeys := keys;
       lastCommit := lastCommit resource |}
|}.

(** A [Set] of strings, as the list of its elements in insertion order:
    adding an element that is there changes nothing. *)
Definition Set_add (seen : list string) (x : string) : list string :=
  if bool_decide (x ∈ seen) then seen else seen ++ [x].

Definition new_Set (seen array : list string) : list string :=
  fold_left Set_add array seen.

(** [[...new Set(array)]] *)
Definition dedup (array : list string) : list string := new_Set [] array.

(** [array.slice(0, ISSUE_KEY_API_LIMIT)] *)
Definition truncate (array : list string) : list string :=
  take ISSUE_KEY_API_LIMIT array.

Definition updateIssueKeysFor {R : Type} `{Resource R}
    (resources : list R) (mutatingFunc : list string -> list string) : list R :=
  map (fun resource => set_issueKeys (mutatingFunc (issueKeys resource)) resource)
      resources.

(** The [forEach] over the branches: a branch with a [lastCommit] gets it
    replaced by the first element of [updateIssueKeysFor [lastCommit]]. *)
Definition updateLastCommit (mutatingFunc : list string -> list string)
    (resource : Branch) : Branch :=
  match lastCommit resource with
  | Some last =>
      {| branch_fields := branch_fields resource;
         branch_issueKeys := branch_issueKeys resource;
         lastCommit := head (updateIssueKeysFor [last] mutatingFunc) |}
  | None => resource
  end.

Definition updateRepositoryIssueKeys (repositoryObj : RepositoryObj)
    (mutatingFunc : list string -> list string) : RepositoryObj :=
  let withCommits :=
    match commits repositoryObj with
    | Some resources =>
        {| commits := Some (updateIssueKeysFor resources mutatingFunc);
           branches := branches repositoryObj;
           repository_fields := repository_fields repositoryObj |}
    | None => repositoryObj
    end in
  match branches withCommits with
  | Some resources =>
      {| commits := commits withCommits;
         branches :=
           Some (map (updateLastCommit mutatingFunc)
                     (updateIssueKeysFor resources mutatingFunc));
         repository_fields := repository_fields withCommits |}
  | None => withCommits
  end.

Definition dedupIssueKeys (repositoryObj : RepositoryObj) : RepositoryObj :=
  updateRepositoryIssueKeys repositoryObj dedup.

Definition truncateIssueKeys (repositoryObj : RepositoryObj) : RepositoryObj :=
  updateRepositoryIssueKeys repositoryObj truncate.

(** [Math.max(...values)]; [None] is [-Infinity], the maximum of no value. *)
Definition Math_max (values : list nat) : option nat :=
  foldr (fun value acc =>
           Some (match acc with Some m => Nat.max value m | None => value end))
        None values.

(** What [withinIssueKeyLimit] returns: the empty array when there are no
    resources, a boolean otherwise. *)
Inductive LimitCheck : Type :=
| EmptyArray
| Boolean (b : bool).

Definition truthy (check : LimitCheck) : bool :=
  match check with
  | EmptyArray => true
  | Boolean b => b
  end.

Definition withinIssueKeyLimit {R : Type} `{Resource R}
    (resources : option (list R)) : LimitCheck :=
  match resources with
  | None => EmptyArray
  | Some resources =>
      let issueKeyCounts := map (fun resource => length (issueKeys resource)) resources in
      Boolean (match Math_max issueKeyCounts with
               | None => true
               | Some m => m <=? ISSUE_KEY_API_LIMIT
               end)
  end.

(** [array.indexOf(x)]; [None] is [-1]. *)
Fixpoint indexOf (array : list string) (x : string) : option nat :=
  match array with
  | [] => None
  | y :: rest => if String.eqb y x then Some 0 else S <$> indexOf rest x
  end.

(** [array.filter((obj, pos, arr) => keep(obj, pos, arr))] *)
Fixpoint filter_from {A : Type} (keep : A -> nat -> bool) (pos : nat)
    (array : list A) : list A :=
  match array with
  | [] => []
  | obj :: rest =>
      if keep obj pos then obj :: filter_from keep (S pos) rest
      else filter_from keep (S pos) rest
  end.

Definition Array_filter {A : Type} (keep : A -> nat -> list A -> bool)
    (array : list A) : list A :=
  filter_from (fun obj pos => keep obj pos array) 0 array.

Definition dedupCommits (commits : option (list Commit)) : list Commit :=
  Array_filter
    (fun obj pos arr =>
       bool_decide (indexOf (map commit_id arr) (commit_id obj) = Some pos))
    (default [] commits).

(** The [do ... while] loop of [batchedBulkUpdate]: [splice(0, 400)] moves the
    first 400 commits into a chunk until none is left.  [fuel] bounds the
    number of further rounds; the number of commits is enough. *)
Fixpoint commitChunks_loop (fuel : nat) (dedupedCommits : list Commit)
    : list (list Commit) :=
  take 400 dedupedCommits ::
  match drop 400 dedupedCommits, fuel with
  | [], _ => []
  | _ :: _, 0 => []
  | rest, S fuel => commitChunks_loop fuel rest
  end.

Definition commitChunks (dedupedCommits : list Commit) : list (list Commit) :=
  commitChunks_loop (length dedupedCommits) dedupedCommits.

(** The options of [update]; the argument itself may be missing. *)
Record Options : Type := { preventTransitions : option bool }.

(** One call of [instance.post('/rest/devinfo/0.10/bulk', body)].  The body
    holds the payload object itself: [at_call] is the state of that object
    when the call is made. *)
Record BulkRequest : Type := {
  request_preventTransitions : bool;
  at_call : RepositoryObj;
  request_installationId : Z
}.

(** [options?.preventTransitions || false] *)
Definition preventTransitions_or_false (options : option Options) : bool :=
  match options with
  | Some o => default false (preventTransitions o)
  | None => false
  end.

(** The [map] over the chunks: the requests made, in order, and the payload
    object as the last assignment to [data.commits] leaves it. *)
Fixpoint batchedUpdates (commitChunks : list (list Commit)) (data : RepositoryObj)
    (options : option Options) (installationId : Z)
    : list BulkRequest * RepositoryObj :=
  match commitChunks with
  | [] => ([], data)
  | commitChunk :: rest =>
      let data1 :=
        match commitChunk with
        | [] => data
        | _ :: _ =>
            {| commits := Some commitChunk; branches := branches data;
               repository_fields := repository_fields data |}
        end in
      let request :=
        {| request_preventTransitions := preventTransitions_or_false options;
           at_call := data1;
           request_installationId := installationId |} in
      let later := batchedUpdates rest data1 options installationId in
      (request :: later.1, later.2)
  end.

(** [batchedBulkUpdate] up to its [Promise.all]: the requests it starts and
    the payload object it leaves behind. *)
Definition batchedBulkUpdate (data : RepositoryObj) (options : option Options)
    (installationId : Z) : list BulkRequest * RepositoryObj :=
  let dedupedCommits := dedupCommits (commits data) in
  batchedUpdates (commitChunks dedupedCommits) data options installationId.

(** The column of a subscription row that [update] writes. *)
Record SubscriptionRow : Type := { syncWarning : option string }.

Definition Subscriptions : Type := gmap (string * Z) SubscriptionRow.

(** The error of calling a method on [null]. *)
Definition TypeError_null (prop : string) : JSError :=
  {| err_name := "TypeError";
     err_message := "Cannot read property '" +:+ prop +:+ "' of null";
     err_headers := None; err_errors := None |}.

(** How a call of [update] ends: it throws before any request is made, or it
    awaits the requests it has started. *)
Inductive UpdateOutcome : Type :=
| Thrown (err : JSError)
| Awaiting (requests : list BulkRequest).

Record Updated : Type := {
  outcome : UpdateOutcome;
  payload : RepositoryObj;
  table : Subscriptions
}.

Definition exceededWarning : string :=
  "Exceeded issue key reference limit. Some issues may not be linked.".

(** [devinfo.repository.update] of the client made for [jiraHost] and
    [gitHubInstallationId].  The write of the warning succeeds whenever the
    row is there. *)
Definition repository_update (jiraHost : string) (gitHubInstallationId : Z)
    (data : RepositoryObj) (options : option Options) (rows : Subscriptions)
    : Updated :=
  let data1 := dedupIssueKeys data in
  if negb (truthy (withinIssueKeyLimit (commits data1)))
     || negb (truthy (withinIssueKeyLimit (branches data1)))
  then
    let data2 := truncateIssueKeys data1 in
    match rows !! (jiraHost, gitHubInstallationId) with
    | None =>
        {| outcome := Thrown (TypeError_null "update");
           payload := data2; table := rows |}
    | Some _ =>
        let sent := batchedBulkUpdate data2 options gitHubInstallationId in
        {| outcome := Awaiting sent.1;
           payload := sent.2;
           table := <[ (jiraHost, gitHubInstallationId) :=
                         {| syncWarning := Some exceededWarning |} ]> rows |}
    end
  else
    let sent := batchedBulkUpdate data1 options gitHubInstallationId in
    {| outcome := Awaiting sent.1; payload := sent.2; table := rows |}.

End JiraClient.

(** * Worker middleware (the head of src/worker/index.ts)

    The wrappers every queue handler runs in.  A handler works on the world
    of the engine; the wrappers add what they hand to Sentry and New Relic,
    in order.  The job is one of the installation queue. *)

Module Worker.

(** A job as the queue hands it to a handler. *)
Record QueueJob : Type := {
  job_id : Z;
  attemptsMade : Z;
  timestamp : Z;
  queue_name : string;
  job : Job
}.

(** The calls made on the job's Sentry hub and on the New Relic agent. *)
Inductive Telemetry : Type :=
| AddEventProcessor (processor : string)
| SetExtra (key : string) (id attempts : Z) (time : Z) (payload : JobData)
| SetTag (key value : string)
| CaptureException (err : JSError)
| StartBackgroundTransaction (name group : string)
| AddCustomAttributes (queue : string) (id : Z) (arguments : JobData)
    (options : JobOpts)
| TransactionEnd.

Record Process : Type := {
  world : World;
  telemetry : list Telemetry
}.

Definition Handler : Type := QueueJob -> Process -> Outcome unit * Process.

Definition tell (p : Process) (calls : list Telemetry) : Process :=
  {| world := world p; telemetry := telemetry p ++ calls |}.

(** [sentryMiddleware]: the handler's rejection is sent to Sentry with the
    job's details and thrown again. *)
Definition sentryMiddleware (jobHandler : Handler) : Handler :=
  fun job p =>
    let p1 := tell p [AddEventProcessor "AxiosErrorEventDecorator.decorate";
                      AddEventProcessor "SentryScopeProxy.processEvent"] in
    let handled := jobHandler job p1 in
    match handled.1 with
    | Return _ => (Return tt, handled.2)
    | Throw err =>
        (Throw err,
         tell handled.2
           [SetExtra "job" (job_id job) (attemptsMade job) (timestamp job)
              (data (Worker.job job));
            SetTag "jiraHost" (jiraHost (data (Worker.job job)));
            SetTag "queue" (queue_name job);
            CaptureException err])
    end.

(** [newrelicMiddleware]: the handler runs inside a background transaction
    that is ended whether the handler returns or throws.  The promise of
    [startBackgroundTransaction] is neither awaited nor returned, so the
    wrapper resolves whatever becomes of the handler; the handler's effects
    stand where a run without other jobs performs them. *)
Definition newrelicMiddleware (jobHandler : Handler) : Handler :=
  fun job p =>
    let p1 := tell p [StartBackgroundTransaction ("job " +:+ queue_name job)
                        "worker queue";
                      AddCustomAttributes (queue_name job) (job_id job)
                        (data (Worker.job job)) (opts (Worker.job job))] in
    let handled := jobHandler job p1 in
    (Return tt, tell handled.2 [TransactionEnd]).

Definition commonMiddleware (jobHandler : Handler) : Handler :=
  sentryMiddleware (newrelicMiddleware jobHandler).

(** [processInstallation(app, queues)] as a queue handler. *)
Definition installationHandler (env : Env) : Handler :=
  fun job p =>
    let run := processInstallation env (Worker.job job) (world p) in
    (run.1, {| world := run.2; telemetry := telemetry p |}).

End Worker.

(** * REST and GraphQL pagers (investigation/github-rest-vs-graphql.js)

    The two ways the script lists the repositories of the token's owner.
    What GitHub answers is given by [GitHub]; a loop that asks for one page
    after the other takes the number of requests it may make ([fuel]) and
    yields [None] when that number does not suffice. *)

Module Investigation.

Local Open Scope nat_scope.

(** An edge of the GraphQL answer. *)
Record RepoEdge : Type := {
  cursor : string;
  nameWithOwner : string
}.

(** The answers of GitHub: the [full_name]s of the REST page with a given
    number, and the edges of the GraphQL query with a given [after] argument
    ([None]: the query has none). *)
Record GitHub : Type := {
  rest : nat -> Outcome (list string);
  graphql : option string -> Outcome (list RepoEdge)
}.

(** [httpError]: logs the error and throws a new one made from it. *)
Definition httpError {A : Type} (error : JSError) : Outcome A :=
  Throw (new_Error (String_of_error error)).

Definition callRestData (github : GitHub) (page : nat) : Outcome (list string) :=
  let page := if page =? 0 then 1 else page in
  match rest github page with
  | Return names => Return names
  | Throw error => httpError error
  end.

Fixpoint getRestData_loop (fuel : nat) (github : GitHub) (data : list string)
    (page : nat) : option (Outcome (list string)) :=
  match fuel with
  | 0 => None
  | S fuel =>
      match callRestData github page with
      | Throw error => Some (Throw error)
      | Return result =>
          if length result =? 100
          then getRestData_loop fuel github (data ++ result) (S page)
          else Some (Return (data ++ result))
      end
  end.

Definition getRestData (fuel : nat) (github : GitHub)
    : option (Outcome (list string)) :=
  getRestData_loop fuel github [] 1.

(** The [after] argument [getQuery] writes: none for a cursor that is
    [undefined] or the empty string. *)
Definition getQuery_after (after : option string) : option string :=
  match after with
  | Some EmptyString => None
  | _ => after
  end.

Record GraphqlResult : Type := {
  repos : list string;
  after : string
}.

(** [callGraphql]: the names of the edges and the cursor of the last one;
    reading the cursor of the last edge of an empty page throws, and the
    rejection goes through [httpError]. *)
Definition callGraphql (github : GitHub) (lastCursor : option string)
    : Outcome GraphqlResult :=
  match graphql github (getQuery_after lastCursor) with
  | Return edges =>
      match last edges with
      | Some edge =>
          Return {| repos := map nameWithOwner edges; after := cursor edge |}
      | None => httpError (TypeError_undefined "cursor")
      end
  | Throw error => httpError error
  end.

Fixpoint getGraphqlData_loop (fuel : nat) (github : GitHub) (data : list string)
    (lastCursor : option string) : option (Outcome (list string)) :=
  match fuel with
  | 0 => None
  | S fuel =>
      match callGraphql github lastCursor with
      | Throw error => Some (Throw error)
      | Return result =>
          if length (repos result) =? 100
          then getGraphqlData_loop fuel github (data ++ repos result)
                 (Some (after result))
          else Some (Return (data ++ repos result))
      end
  end.

Definition getGraphqlData (fuel : nat) (github : GitHub)
    : option (Outcome (list string)) :=
  getGraphqlData_loop fuel github [] None.

End Investigation.

(** ** Further concrete inputs *)

Module Scenarios.

(** A second installation, of another Jira site. *)
Definition otherKey : string * Z := ("other.atlassian.net", 8).

(** A table with the row of [Examples.job] and the row of [otherKey]. *)
Definition shared (sub : Subscription) : World :=
  {| db := <[ otherKey := Examples.pendingLast ]> {[ jobKey Examples.job := sub ]};
     queue := []; trace := [] |}.

(** One repository, fully synced. *)
Definition allSynced : Subscription :=
  Examples.subscription ACTIVE
    {[ 1%N := Examples.progress (Examples.summary 1 100)
                Examples.done Examples.done Examples.done ]}.

(** One repository whose record has no summary and whose branches are left. *)
Definition unsummarised : Subscription :=
  Examples.subscription PENDING
    {[ 1%N := Examples.progress None Examples.done (Some pending) Examples.done ]}.

(** A page of one edge with something to submit to Jira. *)
Definition payloadPage : Page :=
  {| edges := [ {| cursor := "c1" |} ]; jiraPayload := Some "devinfo" |}.

(** Every fetch answers [payloadPage]; Jira rejects what is submitted. *)
Definition rejectingJira : Env :=
  {| Date_now := 1614592800000;
     Date_parse := fun _ => Num 1614592000000;
     LIMITER_PER_INSTALLATION := NaN;
     processor := fun _ _ _ _ => inl payloadPage;
     github_repository := fun id => inl {| repo_id := id; updated_at := 0 |};
     jira_repository_update := fun _ => Some Examples.serverError;
     jira_migration_complete := None;
     getJiraClient := None;
     app_auth := None |}.

(** GitHub does not answer the request for a repository. *)
Definition unreachable : Env :=
  {| Date_now := 1614592800000;
     Date_parse := fun _ => Num 1614592000000;
     LIMITER_PER_INSTALLATION := NaN;
     processor := fun _ _ _ _ => inl payloadPage;
     github_repository := fun _ => inr Examples.serverError;
     jira_repository_update := fun _ => None;
     jira_migration_complete := None;
     getJiraClient := None;
     app_auth := None |}.

(** The task [getNextTask] selects for [unsummarised]. *)
Definition selected : NextTask :=
  {| nt_task := branch; nt_repositoryId := 1%N; nt_repository := None;
     nt_cursor := None |}.

(** The connection to GitHub timed out. *)
Definition timedOut : JSError :=
  {| err_name := "Error"; err_message := "connect ETIMEDOUT 140.82.112.6:443";
     err_headers := None; err_errors := None |}.

Definition preparedFor (e : Env) (w : World) : Prepared :=
  match (prepare e Examples.job w).1 with
  | Return (Some p) => p
  | _ => Examples.noPrepared
  end.

(** A payload with a repeated commit, repeated issue keys and a branch. *)
Definition smallPayload : JiraClient.RepositoryObj :=
  {| JiraClient.commits :=
       Some [ {| JiraClient.commit_id := "a1";
                 JiraClient.commit_issueKeys := ["KEY-1"; "KEY-2"; "KEY-1"];
                 JiraClient.commit_fields := "first" |};
              {| JiraClient.commit_id := "a1";
                 JiraClient.commit_issueKeys := ["KEY-3"];
                 JiraClient.commit_fields := "again" |} ];
     JiraClient.branches :=
       Some [ {| JiraClient.branch_fields := "main";
                 JiraClient.branch_issueKeys := ["KEY-2"; "KEY-2"];
                 JiraClient.lastCommit := None |} ];
     JiraClient.repository_fields := "acme/app" |}.

(** The keys KEY-0 ... KEY-100. *)
Definition manyKeys : list string :=
  (fun n => "KEY-" +:+ pretty n) <$> seq 0 101.

Definition busyCommit : JiraClient.Commit :=
  {| JiraClient.commit_id := "b2"; JiraClient.commit_issueKeys := manyKeys;
     JiraClient.commit_fields := "merge" |}.

(** A payload whose only commit refers to 101 issues. *)
Definition largePayload : JiraClient.RepositoryObj :=
  {| JiraClient.commits := Some [ busyCommit ];
     JiraClient.branches := None;
     JiraClient.repository_fields := "acme/app" |}.

(** The job of [Examples.job] as the installation queue delivers it. *)
Definition delivered : Worker.QueueJob :=
  {| Worker.job_id := 41; Worker.attemptsMade := 0;
     Worker.timestamp := 1614592000000; Worker.queue_name := "Initial sync";
     Worker.job := Examples.job |}.

Definition started (sub : Subscription) : Worker.Process :=
  {| Worker.world := Examples.world sub; Worker.telemetry := [] |}.

Definition twoNames : list string := ["acme/app"; "acme/site"].

Definition twoRepoEdges : list Investigation.RepoEdge :=
  [ {| Investigation.cursor := "Y3Vyc29yOjE=";
       Investigation.nameWithOwner := "acme/app" |};
    {| Investigation.cursor := "Y3Vyc29yOjI=";
       Investigation.nameWithOwner := "acme/site" |} ].

(** The edges after the one with the cursor [after]. *)
Fixpoint edgesAfter (after : string) (edges : list Investigation.RepoEdge)
    : list Investigation.RepoEdge :=
  match edges with
  | [] => []
  | edge :: rest =>
      if String.eqb (Investigation.cursor edge) after then rest
      else edgesAfter after rest
  end.

(** An account with the two repositories, served in pages of 100. *)
Definition account : Investigation.GitHub :=
  {| Investigation.rest := fun page =>
       Return (take 100 (drop (100 * (page - 1)) twoNames));
     Investigation.graphql := fun after =>
       Return (take 100 match after with
                        | None => twoRepoEdges
                        | Some c => edgesAfter c twoRepoEdges
                        end) |}.

End Scenarios.

(** * Properties *)

(** ** The page-size fallback *)

Lemma ignored_type_test (error : GraphQLError) :
  list_includes ignoredErrorTypes (gql_type error) = true <->
  In (gql_type error) ignoredErrorTypes.
Proof.
  unfold list_includes, ignoredErrorTypes. simpl.
  rewrite orb_false_r, String.eqb_eq. split; [auto | intros [H | []]; auto].
Qed.

Lemma notIgnored_zero errors :
  Forall (fun error => In (gql_type error) ignoredErrorTypes) errors ->
  List.filter (fun error => negb (list_includes ignoredErrorTypes (gql_type error))) errors = [].
Proof.
  induction 1 as [| error errors Hin _ IH]; [reflexivity |].
  cbn [List.filter]. apply ignored_type_test in Hin. rewrite Hin. exact IH.
Qed.

Lemma notIgnored_positive errors :
  Exists (fun error => ~ In (gql_type error) ignoredErrorTypes) errors ->
  (0 < length (List.filter
     (fun error => negb (list_includes ignoredErrorTypes (gql_type error))) errors))%nat.
Proof.
  induction 1 as [error errors Hout | error errors _ IH]; cbn [List.filter].
  - destruct (list_includes ignoredErrorTypes (gql_type error)) eqn:E.
    + apply ignored_type_test in E. contradiction.
    + cbn [negb length]. lia.
  - destruct (negb _); cbn [length]; lia.
Qed.

Lemma handleGitHubError_ignored err errors :
  err_errors err = Some errors ->
  Forall (fun error => In (gql_type error) ignoredErrorTypes) errors ->
  handleGitHubError err = Return tt.
Proof.
  intros He Hall. unfold handleGitHubError. rewrite He.
  rewrite (notIgnored_zero _ Hall). reflexivity.
Qed.

Lemma handleGitHubError_rethrows err :
  (err_errors err = None \/
   exists errors, err_errors err = Some errors /\
     Exists (fun error => ~ In (gql_type error) ignoredErrorTypes) errors) ->
  handleGitHubError err = Throw err.
Proof.
  intros [He | (errors & He & Hex)]; unfold handleGitHubError; rewrite He.
  - reflexivity.
  - apply notIgnored_positive in Hex. apply Nat.ltb_lt in Hex. rewrite Hex. reflexivity.
Qed.

Section ExecuteFacts.

Variable pagedProcessor : nat -> Page + JSError.
Variable exhausted : JSError.

Lemma execute_from_skips pre rest :
  Forall (capacityExceeded pagedProcessor) pre ->
  execute_from pagedProcessor exhausted (pre ++ rest) =
  ((execute_from pagedProcessor exhausted rest).1,
   pre ++ (execute_from pagedProcessor exhausted rest).2).
Proof.
  induction 1 as [| perPage pre (err & errors & Hp & He & Hall) _ IH].
  - simpl. destruct (execute_from _ _ rest); reflexivity.
  - simpl. rewrite Hp, (handleGitHubError_ignored _ _ He Hall), IH. reflexivity.
Qed.

Lemma execute_from_page perPage rest page :
  pagedProcessor perPage = inl page ->
  execute_from pagedProcessor exhausted (perPage :: rest) = (Return page, [perPage]).
Proof. intros Hp. simpl. rewrite Hp. reflexivity. Qed.

Lemma execute_from_other perPage rest err :
  otherError pagedProcessor perPage err ->
  execute_from pagedProcessor exhausted (perPage :: rest) = (Throw err, [perPage]).
Proof.
  intros [Hp Hother]. simpl. rewrite Hp, (handleGitHubError_rethrows _ Hother).
  reflexivity.
Qed.

(** C2: [execute] calls the processor at 20, 10, 5 and 1 per page, in that
    order.  After capacity-exceeded failures at the sizes before [perPage], a
    page obtained at [perPage] is returned and any other error at [perPage]
    is thrown, in both cases without a further call; capacity-exceeded at all
    four sizes throws the exhausted-fallback error; and failing at 20 and 10
    then succeeding at 5 makes exactly the three calls 20, 10, 5 and returns
    the page of size 5. *)
Theorem execute_page_size_fallback :
  (forall pre perPage post,
      pageSizes = pre ++ perPage :: post ->
      Forall (capacityExceeded pagedProcessor) pre ->
      (forall page, pagedProcessor perPage = inl page ->
         execute pagedProcessor exhausted = (Return page, pre ++ [perPage])) /\
      (forall err, otherError pagedProcessor perPage err ->
         execute pagedProcessor exhausted = (Throw err, pre ++ [perPage]))) /\
  (Forall (capacityExceeded pagedProcessor) pageSizes ->
     execute pagedProcessor exhausted = (Throw exhausted, pageSizes)) /\
  (forall page,
      capacityExceeded pagedProcessor 20 ->
      capacityExceeded pagedProcessor 10 ->
      pagedProcessor 5%nat = inl page ->
      execute pagedProcessor exhausted = (Return page, [20; 10; 5]%nat)).
Proof.
  assert (Hgen : forall pre perPage post,
      pageSizes = pre ++ perPage :: post ->
      Forall (capacityExceeded pagedProcessor) pre ->
      (forall page, pagedProcessor perPage = inl page ->
         execute pagedProcessor exhausted = (Return page, pre ++ [perPage])) /\
      (forall err, otherError pagedProcessor perPage err ->
         execute pagedProcessor exhausted = (Throw err, pre ++ [perPage]))).
  { intros pre perPage post Hsplit Hpre. unfold execute. rewrite Hsplit.
    rewrite (execute_from_skips _ _ Hpre). split.
    - intros page Hp. rewrite (execute_from_page _ _ _ Hp). reflexivity.
    - intros err Ho. rewrite (execute_from_other _ _ _ Ho). reflexivity. }
  split; [exact Hgen |]. split.
  - intros Hall. unfold execute.
    rewrite <- (app_nil_r pageSizes) at 1.
    rewrite (execute_from_skips _ _ Hall). reflexivity.
  - intros page H20 H10 H5.
    destruct (Hgen [20; 10]%nat 5%nat [1%nat] eq_refl) as [Hpage _].
    + repeat constructor; assumption.
    + exact (Hpage page H5).
Qed.

End ExecuteFacts.

(** ** Enumeration, sorting and task selection *)

Section Enumeration.

Context {V : Type}.
Implicit Types o : gmap N V.

Lemma elem_of_Object_keys o k : k ∈ Object_keys o <-> is_Some (o !! k).
Proof.
  unfold Object_keys. rewrite merge_sort_Permutation, elem_of_elements.
  apply elem_of_dom.
Qed.

Lemma NoDup_Object_keys o : NoDup (Object_keys o).
Proof.
  unfold Object_keys. rewrite merge_sort_Permutation. apply NoDup_elements.
Qed.

Lemma Object_keys_ascending o : StronglySorted N.lt (Object_keys o).
Proof.
  pose proof (NoDup_Object_keys o) as Hnd.
  assert (Hle : StronglySorted N.le (Object_keys o))
    by apply (StronglySorted_merge_sort N.le).
  induction Hle as [| k ks _ IH Hall]; [constructor |].
  apply NoDup_cons in Hnd as [Hk Hnd]. constructor; [auto |].
  apply Forall_forall. intros k' Hin.
  rewrite Forall_forall in Hall. specialize (Hall k' Hin).
  assert (k <> k') by (intros ->; contradiction). lia.
Qed.

Lemma Object_entries_keys o : (Object_entries o).*1 = Object_keys o.
Proof.
  unfold Object_entries.
  assert (H : Forall (fun k => is_Some (o !! k)) (Object_keys o)).
  { apply Forall_forall. intros k. apply elem_of_Object_keys. }
  induction H as [| k ks [v Hv] _ IH]; [reflexivity |].
  cbn. rewrite Hv. cbn. f_equal. exact IH.
Qed.

Lemma elem_of_Object_entries o k v : (k, v) ∈ Object_entries o <-> o !! k = Some v.
Proof.
  unfold Object_entries. rewrite list_elem_of_omap. split.
  - intros (k' & _ & Hk'). destruct (o !! k') as [v' |] eqn:E; [| discriminate].
    cbn in Hk'. congruence.
  - intros Hv. exists k. split.
    + apply elem_of_Object_keys. eauto.
    + rewrite Hv. reflexivity.
Qed.

Lemma length_Object_entries o : length (Object_entries o) = size o.
Proof.
  rewrite <- (length_fmap fst), Object_entries_keys. unfold Object_keys.
  rewrite merge_sort_Permutation. rewrite <- size_dom. reflexivity.
Qed.

Lemma Object_entries_ascending o :
  StronglySorted (fun a b => (a.1 < b.1)%N) (Object_entries o).
Proof.
  pose proof (Object_keys_ascending o) as H. rewrite <- Object_entries_keys in H.
  induction (Object_entries o) as [| a l IH]; [constructor |].
  cbn in H. apply StronglySorted_inv in H as [Hl Ha].
  constructor; [auto |]. rewrite Forall_fmap in Ha. exact Ha.
Qed.

End Enumeration.

Section ArraySortFacts.

Context {A : Type} (compareFn : A -> A -> Outcome Z).

Lemma sort_insert_Permutation a l l' :
  sort_insert compareFn a l = Return l' -> l' ≡ₚ a :: l.
Proof.
  revert l'. induction l as [| b rest IH]; intros l' H; cbn in H.
  - injection H as <-. reflexivity.
  - destruct (compareFn a b) as [c |]; [| discriminate].
    destruct (0 <? c).
    + destruct (sort_insert compareFn a rest) as [l0 |]; [| discriminate].
      injection H as <-. rewrite (IH l0 eq_refl). apply Permutation_swap.
    + injection H as <-. reflexivity.
Qed.

Lemma Array_sort_Permutation l s :
  Array_sort compareFn l = Return s -> s ≡ₚ l.
Proof.
  revert s. induction l as [| a rest IH]; intros s H; cbn in H.
  - injection H as <-. reflexivity.
  - destruct (Array_sort compareFn rest) as [sorted |]; [| discriminate].
    rewrite (sort_insert_Permutation _ _ _ H), (IH sorted eq_refl). reflexivity.
Qed.

Lemma Array_sort_short l :
  (length l < 2)%nat -> Array_sort compareFn l = Return l.
Proof.
  destruct l as [| a [| b rest]]; cbn; intros H; [reflexivity | reflexivity | lia].
Qed.

End ArraySortFacts.

(** *** Sorting by [updated_at] *)

Lemma byUpdatedAt_summaries a b :
  hasSummary a -> hasSummary b ->
  byUpdatedAt a b = Return (updatedOf b - updatedOf a).
Proof.
  unfold hasSummary, byUpdatedAt, updatedOf. intros [ra ->] [rb ->]. reflexivity.
Qed.

Lemma byUpdatedAt_throws a b e :
  byUpdatedAt a b = Throw e -> e = TypeError_undefined "updated_at".
Proof.
  unfold byUpdatedAt. destruct (repository b.2), (repository a.2); congruence.
Qed.

Lemma sort_insert_throws a l e :
  sort_insert byUpdatedAt a l = Throw e -> e = TypeError_undefined "updated_at".
Proof.
  induction l as [| b rest IH]; cbn; [discriminate |].
  destruct (byUpdatedAt a b) as [c |] eqn:E.
  - destruct (0 <? c); [| discriminate].
    destruct (sort_insert byUpdatedAt a rest); [discriminate |].
    intros [= <-]. auto.
  - intros [= <-]. eauto using byUpdatedAt_throws.
Qed.

Lemma Array_sort_throws l e :
  Array_sort byUpdatedAt l = Throw e -> e = TypeError_undefined "updated_at".
Proof.
  induction l as [| a rest IH]; cbn; [discriminate |].
  destruct (Array_sort byUpdatedAt rest) as [sorted |].
  - apply sort_insert_throws.
  - intros [= <-]. auto.
Qed.

Lemma sort_insert_sorted a l :
  hasSummary a -> Forall hasSummary l ->
  StronglySorted visitedBefore l ->
  Forall (fun b => (a.1 < b.1)%N) l ->
  exists l', sort_insert byUpdatedAt a l = Return l' /\
             StronglySorted visitedBefore l'.
Proof.
  intros Ha Hl Hsorted Hkeys.
  induction Hsorted as [| b rest Hrest IH Hb]; cbn.
  - eexists. split; [reflexivity |]. repeat constructor.
  - apply Forall_cons in Hl as [Hsb Hl]. apply Forall_cons in Hkeys as [Hab Hkeys].
    rewrite (byUpdatedAt_summaries a b Ha Hsb).
    destruct (0 <? updatedOf b - updatedOf a) eqn:E.
    + apply Z.ltb_lt in E. destruct (IH Hl Hkeys) as (l' & Hins & Hl').
      rewrite Hins. eexists. split; [reflexivity |].
      constructor; [exact Hl' |].
      rewrite (sort_insert_Permutation _ _ _ _ Hins).
      constructor; [left; lia | exact Hb].
    + apply Z.ltb_ge in E. eexists. split; [reflexivity |].
      constructor; [constructor; assumption |].
      constructor.
      * unfold visitedBefore. destruct (Z.eq_dec (updatedOf a) (updatedOf b));
          [right; split; assumption | left; lia].
      * rewrite Forall_forall in Hb, Hkeys |- *. intros x Hx.
        specialize (Hb x Hx). specialize (Hkeys x Hx). cbn in Hkeys.
        unfold visitedBefore in *.
        destruct Hb as [Hlt | [Heq Hk]].
        -- left. lia.
        -- destruct (Z.eq_dec (updatedOf a) (updatedOf x)); [right; auto | left; lia].
Qed.

Lemma Array_sort_sorted l :
  Forall hasSummary l ->
  StronglySorted (fun a b => (a.1 < b.1)%N) l ->
  exists s, Array_sort byUpdatedAt l = Return s /\ s ≡ₚ l /\
            StronglySorted visitedBefore s.
Proof.
  intros Hl Hasc. induction Hasc as [| a rest Hrest IH Ha]; cbn.
  - exists []. repeat split; constructor.
  - apply Forall_cons in Hl as [Hsa Hl].
    destruct (IH Hl) as (sorted & Hsort & Hperm & Hsorted). rewrite Hsort.
    destruct (sort_insert_sorted a sorted Hsa) as (l' & Hins & Hl').
    + rewrite Hperm. exact Hl.
    + exact Hsorted.
    + rewrite Hperm. exact Ha.
    + exists l'. split; [exact Hins |]. split; [| exact Hl'].
      rewrite (sort_insert_Permutation _ _ _ _ Hins), Hperm. reflexivity.
Qed.

Lemma byUpdatedAt_returns a b c :
  byUpdatedAt a b = Return c -> hasSummary a /\ hasSummary b.
Proof.
  unfold byUpdatedAt, hasSummary.
  destruct (repository b.2), (repository a.2); try discriminate. eauto.
Qed.

Lemma sort_insert_returns a b l s :
  sort_insert byUpdatedAt a (b :: l) = Return s -> hasSummary a /\ hasSummary b.
Proof.
  cbn. destruct (byUpdatedAt a b) as [c |] eqn:E; [| discriminate].
  intros _. exact (byUpdatedAt_returns _ _ _ E).
Qed.

(** The comparison is made on every element as soon as there are two:
    sorting succeeds exactly on the arrays of fewer than two entries and on
    those whose entries all carry their summary. *)
Lemma Array_sort_returns l :
  (exists s, Array_sort byUpdatedAt l = Return s) <->
  (length l < 2)%nat \/ Forall hasSummary l.
Proof.
  split.
  - intros [s Hs]. revert s Hs.
    induction l as [| a rest IH]; intros s Hs; [left; cbn; lia |].
    cbn in Hs. destruct (Array_sort byUpdatedAt rest) as [sorted |] eqn:Hrest;
      [| discriminate].
    destruct rest as [| b rest']; [left; cbn; lia |]. right.
    pose proof (Array_sort_Permutation _ _ _ Hrest) as Hperm.
    destruct sorted as [| c sorted'];
      [apply Permutation_nil_l in Hperm; discriminate |].
    destruct (sort_insert_returns _ _ _ _ Hs) as [Ha Hc].
    constructor; [exact Ha |].
    destruct (IH _ eq_refl) as [Hshort | Hall]; [| exact Hall].
    destruct rest' as [| b' rest'']; [| cbn in Hshort; lia].
    cbn in Hrest. injection Hrest as <- <-. constructor; [exact Hc | constructor].
  - intros [Hshort | Hall].
    + exists l. apply Array_sort_short. exact Hshort.
    + induction Hall as [| a rest Ha Hrest IH]; [exists []; reflexivity |].
      destruct IH as [sorted Hsorted]. cbn. rewrite Hsorted.
      assert (Hs : Forall hasSummary sorted).
      { rewrite (Array_sort_Permutation _ _ _ Hsorted). exact Hrest. }
      clear Hsorted. induction Hs as [| b sorted' Hb _ IHs]; [eexists; reflexivity |].
      cbn. rewrite (byUpdatedAt_summaries a b Ha Hb).
      destruct (0 <? _); [| eexists; reflexivity].
      destruct IHs as [l' ->]. eexists. reflexivity.
Qed.


(** *** The scan for the first outstanding task *)

Lemma firstIncomplete_None repoData :
  firstIncomplete repoData = None <-> isSynced repoData = true.
Proof.
  unfold firstIncomplete, isSynced, taskTypes. cbn.
  destruct (isComplete (pullStatus repoData)),
    (isComplete (branchStatus repoData)),
    (isComplete (commitStatus repoData)); cbn; split; congruence.
Qed.

Lemma firstIncomplete_Some repoData task :
  firstIncomplete repoData = Some task -> firstOutstanding repoData task.
Proof.
  unfold firstIncomplete, firstOutstanding, taskTypes. cbn [List.find statusOf].
  destruct (isComplete (pullStatus repoData)) eqn:Ep; cbn [negb].
  - destruct (isComplete (branchStatus repoData)) eqn:Eb; cbn [negb].
    + destruct (isComplete (commitStatus repoData)) eqn:Ec; cbn [negb]; [discriminate |].
      intros [= <-]. exists [pull; branch], []. repeat split; auto.
    + intros [= <-]. exists [pull], [commit]. repeat split; auto.
  - intros [= <-]. exists [], [branch; commit]. repeat split; auto.
Qed.

Lemma firstTask_None sorted :
  firstTask sorted = None <-> Forall (fun e => isSynced e.2 = true) sorted.
Proof.
  induction sorted as [| [repositoryId repoData] rest IH]; cbn [firstTask].
  - split; [constructor | reflexivity].
  - destruct (firstIncomplete repoData) as [task |] eqn:E.
    + split; [discriminate |]. intros H. apply Forall_cons in H as [H _].
      apply firstIncomplete_None in H. cbn [snd] in H. congruence.
    + rewrite IH. apply firstIncomplete_None in E. split.
      * intros H. constructor; assumption.
      * intros H. apply Forall_cons in H as [_ H]. exact H.
Qed.

Lemma firstTask_Some sorted next :
  firstTask sorted = Some next ->
  exists before repoData after,
    sorted = before ++ (nt_repositoryId next, repoData) :: after /\
    Forall (fun e => isSynced e.2 = true) before /\
    firstOutstanding repoData (nt_task next) /\
    nt_repository next = repository repoData /\
    nt_cursor next = cursorOf (nt_task next) repoData.
Proof.
  induction sorted as [| [repositoryId repoData] rest IH]; cbn [firstTask];
    [discriminate |].
  destruct (firstIncomplete repoData) as [task |] eqn:E.
  - intros [= <-]. exists [], repoData, rest. cbn.
    repeat split; auto using firstIncomplete_Some.
  - intros H. destruct (IH H) as (before & rd & after & -> & Hb & Hrest).
    exists ((repositoryId, repoData) :: before), rd, after.
    split; [reflexivity |]. split; [| exact Hrest].
    constructor; [| exact Hb]. apply firstIncomplete_None. exact E.
Qed.

Lemma sortedRepos_summaries (repos : gmap N RepoData) :
  (forall k repoData, repos !! k = Some repoData -> is_Some (repository repoData)) ->
  exists sorted,
    sortedRepos repos = Return sorted /\
    sorted ≡ₚ Object_entries repos /\
    StronglySorted visitedBefore sorted.
Proof.
  intros Hall. apply Array_sort_sorted.
  - apply Forall_forall. intros [k repoData] Hin.
    apply elem_of_Object_entries in Hin. exact (Hall k repoData Hin).
  - apply Object_entries_ascending.
Qed.

Lemma sortedRepos_returns (repos : gmap N RepoData) :
  (exists sorted, sortedRepos repos = Return sorted) <->
  (size repos < 2)%nat \/
  (forall k repoData, repos !! k = Some repoData -> is_Some (repository repoData)).
Proof.
  unfold sortedRepos. rewrite Array_sort_returns, length_Object_entries.
  rewrite Forall_forall. split; (intros [H | H]; [left; exact H | right]).
  - intros k repoData Hk. apply (H (k, repoData)). apply elem_of_Object_entries, Hk.
  - intros [k repoData] Hin. apply (H k). apply elem_of_Object_entries, Hin.
Qed.

(** X1: Where every repository identifier is an array index (below 2^32 - 1,
    so that [Object.entries] lists the repositories by ascending identifier)
    and every repository carries its summary, with a number for [updated_at],
    [getNextTask] visits the repositories most recently updated first, ties
    by ascending identifier, and answers with the first outstanding task of
    the first repository that has one. *)
Theorem getNextTask_selects key subscription w :
  let repos := repos (repoSyncState subscription) in
  (forall k repoData, repos !! k = Some repoData -> arrayIndex k) ->
  (forall k repoData, repos !! k = Some repoData -> is_Some (repository repoData)) ->
  exists sorted next subscription',
    (getNextTask key subscription w).1 = Return (next, subscription') /\
    (forall k repoData, (k, repoData) ∈ sorted <-> repos !! k = Some repoData) /\
    StronglySorted visitedBefore sorted /\
    next = firstTask sorted /\
    (next = None <-> forall k repoData, repos !! k = Some repoData -> isSynced repoData = true) /\
    (forall found, next = Some found ->
       exists before repoData after,
         sorted = before ++ (nt_repositoryId found, repoData) :: after /\
         Forall (fun e => isSynced e.2 = true) before /\
         firstOutstanding repoData (nt_task found) /\
         nt_repository found = repository repoData /\
         nt_cursor found = cursorOf (nt_task found) repoData).
Proof.
  intros repos _ Hall.
  destruct (sortedRepos_summaries repos Hall) as (sorted & Hsort & Hperm & Hsorted).
  exists sorted, (firstTask sorted).
  eexists. split.
  { unfold getNextTask, updateNumberOfReposSynced, update, bind, ret, lift, save.
    cbn [fst snd]. fold repos. rewrite Hsort. reflexivity. }
  assert (Hmem : forall k repoData, (k, repoData) ∈ sorted <-> repos !! k = Some repoData).
  { intros k repoData. rewrite Hperm. apply elem_of_Object_entries. }
  split; [exact Hmem |]. split; [exact Hsorted |]. split; [reflexivity |]. split.
  - rewrite firstTask_None, Forall_forall. split.
    + intros H k repoData Hk. apply (H (k, repoData)). apply Hmem. exact Hk.
    + intros H [k repoData] Hin. apply (H k). apply Hmem. exact Hin.
  - intros found Hfound. apply firstTask_Some. exact Hfound.
Qed.

(** ** Rows, patches and the progress update *)

Lemma merge_no_entries (m : gmap N RepoData) : merge mergeRepoEntry m ∅ = m.
Proof.
  apply map_eq. intros i. rewrite lookup_merge, lookup_empty.
  destruct (m !! i); reflexivity.
Qed.

Lemma lookup_merge_entry (m : gmap N RepoData) rid entry i :
  merge mergeRepoEntry m {[ rid := entry ]} !! i =
  if decide (rid = i)
  then Some (mergeRepoData (default emptyRepoData (m !! rid)) entry)
  else m !! i.
Proof.
  rewrite lookup_merge. destruct (decide (rid = i)) as [-> | Hne].
  - rewrite lookup_singleton_eq. destruct (m !! i); reflexivity.
  - rewrite lookup_singleton_ne by assumption. destruct (m !! i); reflexivity.
Qed.

Lemma repos_set_entry sub rid entry :
  repos (repoSyncState (set sub (reposPatch rid entry))) =
  merge mergeRepoEntry (repos (repoSyncState sub)) {[ rid := entry ]}.
Proof. reflexivity. Qed.

Lemma repos_set_synced sub n :
  repos (repoSyncState (set sub (syncedPatch n))) = repos (repoSyncState sub).
Proof. simpl. apply merge_no_entries. Qed.

Lemma repos_set_syncStatus sub s :
  repoSyncState (set sub (syncStatusPatch s)) = repoSyncState sub.
Proof. reflexivity. Qed.

Lemma last_edges_length (edges : list Edge) :
  (0 <? length edges)%nat = match last edges with Some _ => true | None => false end.
Proof.
  destruct edges as [| e edges]; [reflexivity |].
  destruct (last (e :: edges)) eqn:E; [reflexivity |].
  apply last_None in E. discriminate.
Qed.

Lemma getNextTask_run key sub w :
  let sub' := set sub (syncedPatch (length (syncedRepos (repos (repoSyncState sub))))) in
  getNextTask key sub w =
  match sortedRepos (repos (repoSyncState sub)) with
  | Return sorted => (Return (firstTask sorted, sub'), (save key sub' w).2)
  | Throw e => (Throw e, (save key sub' w).2)
  end.
Proof.
  unfold getNextTask, updateNumberOfReposSynced, update, bind, ret, lift. simpl.
  destruct (sortedRepos _); reflexivity.
Qed.

Lemma updateJobStatus_deleted env job edges task rid w :
  db w !! jobKey job = None ->
  updateJobStatus env job edges task rid w =
  (Return tt, {| db := db w; queue := queue w; trace := trace w ++ [Log OrganizationDeleted] |}).
Proof.
  intros H. unfold updateJobStatus, bind, getSingleInstallation. rewrite H. reflexivity.
Qed.

Lemma updateJobStatus_more env job edges lastEdge task rid w sub :
  db w !! jobKey job = Some sub ->
  last edges = Some lastEdge ->
  updateJobStatus env job edges task rid w =
  (Return tt,
   {| db := <[ jobKey job :=
                 set (set sub (reposPatch rid (statusEntry task pending)))
                     (reposPatch rid (cursorEntry task (cursor lastEdge))) ]> (db w);
      queue := queue w ++
        [(data job, inheritedOpts job (Some 3%nat)
                      (Some (Num (or_default (LIMITER_PER_INSTALLATION env) 1000))))];
      trace := trace w ++
        [Log (UpdatingJobStatus (installationId (data job)) rid task pending)] |}).
Proof.
  intros Hdb Hlast. unfold updateJobStatus, bind, getSingleInstallation.
  rewrite Hdb, last_edges_length, Hlast.
  unfold app_log, emit, queue_add, save. cbn [db queue trace]. rewrite Hdb. reflexivity.
Qed.

Lemma updateJobStatus_done env job task rid w sub :
  db w !! jobKey job = Some sub ->
  let sub2 := counted (completed sub rid task) in
  let updating := Log (UpdatingJobStatus (installationId (data job)) rid task complete) in
  updateJobStatus env job [] task rid w =
  match sortedRepos (repos (repoSyncState (completed sub rid task))) with
  | Throw e =>
      (Throw e,
       {| db := <[ jobKey job := sub2 ]> (db w); queue := queue w;
          trace := trace w ++ [updating] |})
  | Return sorted =>
      match firstTask sorted with
      | Some _ =>
          (Return tt,
           {| db := <[ jobKey job := sub2 ]> (db w);
              queue := queue w ++ [(data job, inheritedOpts job (Some 3%nat) None)];
              trace := trace w ++ [updating; Log (SyncPending (installationId (data job)))] |})
      | None =>
          (Return tt,
           {| db := <[ jobKey job := set sub2 (syncStatusPatch COMPLETE) ]> (db w);
              queue := queue w;
              trace := trace w ++ updating :: completionEvents env job |})
      end
  end.
Proof.
  intros Hdb sub2 updating. unfold updateJobStatus, bind at 1, getSingleInstallation.
  rewrite Hdb. cbn [length Nat.ltb Nat.leb last]. unfold bind at 1. unfold app_log at 1, emit at 1.
  unfold bind at 1. rewrite getNextTask_run. fold (completed sub rid task).
  destruct (sortedRepos _) as [sorted | e].
  - cbn [fst snd]. destruct (firstTask sorted) as [nt |].
    + unfold bind, app_log, emit, queue_add, save. cbn [db queue trace fst snd].
      rewrite Hdb. cbn [db queue trace fst snd].
      rewrite lookup_insert_eq, insert_insert_eq, <- app_assoc. reflexivity.
    + unfold completionEvents, timingOf.
      destruct (startTime (data job)) as [started |];
        destruct (jira_migration_complete env) as [err |];
        unfold bind, try_catch, reject_with, throw, ret, app_log, emit, queue_add, save;
        cbn [db queue trace fst snd]; rewrite Hdb; cbn [db queue trace fst snd];
        rewrite lookup_insert_eq, insert_insert_eq, <- ?app_assoc; reflexivity.
  - unfold save. cbn [db queue trace snd]. rewrite Hdb. reflexivity.
Qed.

Lemma statusOf_statusEntry repoData task status :
  statusOf task (mergeRepoData repoData (statusEntry task status)) = Some status.
Proof. destruct task; reflexivity. Qed.

Lemma statusOf_cursorEntry repoData task task' c :
  statusOf task' (mergeRepoData repoData (cursorEntry task c)) = statusOf task' repoData.
Proof. destruct task, task'; reflexivity. Qed.

Lemma cursorOf_cursorEntry repoData task c :
  cursorOf task (mergeRepoData repoData (cursorEntry task c)) = Some c.
Proof. destruct task; reflexivity. Qed.

Lemma storedStatus_set_status sub rid task status :
  storedStatus (set sub (reposPatch rid (statusEntry task status))) rid task = Some status.
Proof.
  unfold storedStatus. rewrite repos_set_entry, lookup_merge_entry.
  rewrite decide_True by reflexivity. cbn. apply statusOf_statusEntry.
Qed.

Lemma storedStatus_set_cursor sub rid task task' c :
  is_Some (repos (repoSyncState sub) !! rid) ->
  storedStatus (set sub (reposPatch rid (cursorEntry task c))) rid task' =
  storedStatus sub rid task'.
Proof.
  intros [repoData Hrd]. unfold storedStatus.
  rewrite repos_set_entry, lookup_merge_entry, decide_True by reflexivity.
  rewrite Hrd. cbn. apply statusOf_cursorEntry.
Qed.

Lemma storedCursor_set_cursor sub rid task c :
  storedCursor (set sub (reposPatch rid (cursorEntry task c))) rid task = Some c.
Proof.
  unfold storedCursor. rewrite repos_set_entry, lookup_merge_entry.
  rewrite decide_True by reflexivity. cbn. apply cursorOf_cursorEntry.
Qed.

Lemma storedStatus_counted sub rid task :
  storedStatus (counted sub) rid task = storedStatus sub rid task.
Proof. unfold storedStatus, counted. rewrite repos_set_synced. reflexivity. Qed.

Lemma storedStatus_syncStatus sub s rid task :
  storedStatus (set sub (syncStatusPatch s)) rid task = storedStatus sub rid task.
Proof. reflexivity. Qed.

Lemma is_Some_set_entry sub rid entry :
  is_Some (repos (repoSyncState (set sub (reposPatch rid entry))) !! rid).
Proof.
  rewrite repos_set_entry, lookup_merge_entry, decide_True by reflexivity. eauto.
Qed.

(** C6: when the installation still exists, [updateJobStatus] stores
    [pending] for the executed task iff [edges] is non-empty and [complete]
    otherwise; with a last edge it also stores that edge's cursor and adds
    one job with the same data, 3 attempts, the configured delay and the
    removal options of the triggering job.  The delay is the number
    [LIMITER_PER_INSTALLATION] holds when that is a number other than 0, and
    1000 when it is not set (NaN) or 0. *)
Theorem updateJobStatus_status_and_cursor env job edges task rid w sub :
  db w !! jobKey job = Some sub ->
  let run := updateJobStatus env job edges task rid w in
  exists row,
    db run.2 !! jobKey job = Some row /\
    storedStatus row rid task = Some (if (0 <? length edges)%nat then pending else complete) /\
    (storedStatus row rid task = Some pending <-> edges <> []) /\
    (forall lastEdge, last edges = Some lastEdge ->
       run.1 = Return tt /\
       storedCursor row rid task = Some (cursor lastEdge) /\
       queue run.2 = queue w ++
         [(data job,
           {| add_attempts := Some 3%nat;
              add_delay := Some (Num (or_default (LIMITER_PER_INSTALLATION env) 1000));
              add_removeOnComplete := removeOnComplete (opts job);
              add_removeOnFail := removeOnFail (opts job) |})]) /\
    (LIMITER_PER_INSTALLATION env = NaN ->
       or_default (LIMITER_PER_INSTALLATION env) 1000 = 1000) /\
    (forall z, LIMITER_PER_INSTALLATION env = Num z -> z <> 0 ->
       or_default (LIMITER_PER_INSTALLATION env) 1000 = z) /\
    (LIMITER_PER_INSTALLATION env = Num 0 ->
       or_default (LIMITER_PER_INSTALLATION env) 1000 = 1000).
Proof.
  assert (Hdelay :
    (LIMITER_PER_INSTALLATION env = NaN ->
       or_default (LIMITER_PER_INSTALLATION env) 1000 = 1000) /\
    (forall z, LIMITER_PER_INSTALLATION env = Num z -> z <> 0 ->
       or_default (LIMITER_PER_INSTALLATION env) 1000 = z) /\
    (LIMITER_PER_INSTALLATION env = Num 0 ->
       or_default (LIMITER_PER_INSTALLATION env) 1000 = 1000)).
  { split; [intros ->; reflexivity |]. split; [| intros ->; reflexivity].
    intros z -> Hz. unfold or_default.
    destruct (z =? 0) eqn:Hzero; [apply Z.eqb_eq in Hzero; contradiction | reflexivity]. }
  intros Hdb run. subst run.
  destruct (last edges) as [lastEdge |] eqn:Hlast.
  - rewrite (updateJobStatus_more _ _ _ _ _ _ _ _ Hdb Hlast). cbn [fst snd db queue].
    eexists. split; [apply lookup_insert_eq |].
    assert (Hne : edges <> []) by (intros ->; discriminate).
    rewrite last_edges_length, Hlast.
    assert (Hst : storedStatus
              (set (set sub (reposPatch rid (statusEntry task pending)))
                 (reposPatch rid (cursorEntry task (cursor lastEdge)))) rid task = Some pending).
    { rewrite storedStatus_set_cursor by apply is_Some_set_entry.
      apply storedStatus_set_status. }
    split; [exact Hst |]. split; [rewrite Hst; tauto |]. split.
    + intros e [= <-]. split; [reflexivity |]. split; [| reflexivity].
      apply storedCursor_set_cursor.
    + exact Hdelay.
  - apply last_None in Hlast. subst edges.
    pose proof (updateJobStatus_done env job task rid w sub Hdb) as Hrun.
    cbn zeta in Hrun. rewrite Hrun. clear Hrun.
    assert (Hst : storedStatus (counted (completed sub rid task)) rid task = Some complete).
    { rewrite storedStatus_counted. apply storedStatus_set_status. }
    assert (Hend : forall row, storedStatus row rid task = Some complete ->
              (storedStatus row rid task = Some pending <-> @nil Edge <> [])).
    { intros row ->. split; [discriminate | congruence]. }
    destruct (sortedRepos _) as [sorted | e]; [destruct (firstTask sorted) |];
      cbn [fst snd db queue length Nat.ltb Nat.leb]; eexists;
      (split; [apply lookup_insert_eq |]);
      (split; [try rewrite storedStatus_syncStatus; apply Hst |]);
      (split; [apply Hend; try rewrite storedStatus_syncStatus; apply Hst |]);
      (split; [intros e' [=] | exact Hdelay]).
Qed.

(** C9: [updateJobStatus] first re-loads the row.  Without a row it returns
    having only logged that the organization was deleted; with a row, every
    path that returns leaves in the table exactly the row the function
    mutated in memory: status and cursor when there are edges, status and
    synced count (and the overall COMPLETE when no task remains) when there
    are none.  The only path that throws is a failing task selection, which
    has stored the status and the count before it throws. *)
Theorem updateJobStatus_persists env job edges task rid w :
  (db w !! jobKey job = None ->
     updateJobStatus env job edges task rid w =
     (Return tt,
      {| db := db w; queue := queue w;
         trace := trace w ++ [Log OrganizationDeleted] |})) /\
  (forall sub w',
     db w !! jobKey job = Some sub ->
     updateJobStatus env job edges task rid w = (Return tt, w') ->
     match last edges with
     | Some lastEdge =>
         db w' !! jobKey job =
         Some (set (set sub (reposPatch rid (statusEntry task pending)))
                   (reposPatch rid (cursorEntry task (cursor lastEdge))))
     | None =>
         exists sorted,
           sortedRepos (repos (repoSyncState (completed sub rid task))) = Return sorted /\
           db w' !! jobKey job =
           Some (match firstTask sorted with
                 | Some _ => counted (completed sub rid task)
                 | None => set (counted (completed sub rid task)) (syncStatusPatch COMPLETE)
                 end)
     end) /\
  (forall sub e w',
     db w !! jobKey job = Some sub ->
     updateJobStatus env job edges task rid w = (Throw e, w') ->
     edges = [] /\
     sortedRepos (repos (repoSyncState (completed sub rid task))) = Throw e /\
     db w' !! jobKey job = Some (counted (completed sub rid task))).
Proof.
  split; [apply updateJobStatus_deleted |]. split.
  - intros sub w' Hdb Hrun. destruct (last edges) as [lastEdge |] eqn:Hlast.
    + rewrite (updateJobStatus_more _ _ _ _ _ _ _ _ Hdb Hlast) in Hrun.
      injection Hrun as <-. apply lookup_insert_eq.
    + apply last_None in Hlast. subst edges.
      pose proof (updateJobStatus_done env job task rid w sub Hdb) as Hdone.
      cbn zeta in Hdone. rewrite Hdone in Hrun. clear Hdone.
      destruct (sortedRepos _) as [sorted | e]; [| discriminate].
      exists sorted. split; [reflexivity |].
      destruct (firstTask sorted); injection Hrun as <-; apply lookup_insert_eq.
  - intros sub e w' Hdb Hrun. destruct (last edges) as [lastEdge |] eqn:Hlast.
    + rewrite (updateJobStatus_more _ _ _ _ _ _ _ _ Hdb Hlast) in Hrun. discriminate.
    + apply last_None in Hlast. subst edges. split; [reflexivity |].
      pose proof (updateJobStatus_done env job task rid w sub Hdb) as Hdone.
      cbn zeta in Hdone. rewrite Hdone in Hrun. clear Hdone.
      destruct (sortedRepos _) as [sorted | e0];
        [destruct (firstTask sorted); discriminate |].
      injection Hrun as <- <-. split; [reflexivity | apply lookup_insert_eq].
Qed.

(** C4, as amended: with no edges and the row still there, once task
    selection has run [updateJobStatus] returns normally.  If a task remains
    it leaves the overall status as it was stored and adds one job with the
    same data, 3 attempts and no delay; if none remains it stores COMPLETE,
    adds no job, calls the migration-complete endpoint (a rejection is logged
    as a warning and not raised) and, when the job carries a [startTime],
    emits the elapsed time as the [full_sync] metric. *)
Theorem updateJobStatus_task_completed env job task rid w sub sorted :
  db w !! jobKey job = Some sub ->
  sortedRepos (repos (repoSyncState (completed sub rid task))) = Return sorted ->
  let run := updateJobStatus env job [] task rid w in
  run.1 = Return tt /\
  match firstTask sorted with
  | Some _ =>
      (exists row, db run.2 !! jobKey job = Some row /\ syncStatus row = syncStatus sub) /\
      queue run.2 = queue w ++
        [(data job,
          {| add_attempts := Some 3%nat; add_delay := None;
             add_removeOnComplete := removeOnComplete (opts job);
             add_removeOnFail := removeOnFail (opts job) |})]
  | None =>
      (exists row, db run.2 !! jobKey job = Some row /\ syncStatus row = COMPLETE) /\
      queue run.2 = queue w /\
      trace run.2 =
        trace w ++ Log (UpdatingJobStatus (installationId (data job)) rid task complete)
                :: completionEvents env job /\
      JiraMigrationComplete ∈ completionEvents env job /\
      (forall err, jira_migration_complete env = Some err ->
         LogWarn err ∈ completionEvents env job) /\
      (forall started, startTime (data job) = Some started ->
         Histogram "full_sync" (JS.sub (Num (Date_now env)) (Date_parse env started))
           ∈ completionEvents env job)
  end.
Proof.
  intros Hdb Hsorted run. subst run.
  pose proof (updateJobStatus_done env job task rid w sub Hdb) as Hdone.
  cbn zeta in Hdone. rewrite Hdone, Hsorted. clear Hdone.
  destruct (firstTask sorted); cbn [fst snd db queue trace].
  - split; [reflexivity |]. split; [| reflexivity].
    eexists. split; [apply lookup_insert_eq | reflexivity].
  - split; [reflexivity |]. split.
    { eexists. split; [apply lookup_insert_eq | reflexivity]. }
    split; [reflexivity |]. split; [reflexivity |].
    unfold completionEvents, timingOf. split; [| split].
    + set_solver.
    + intros err ->. set_solver.
    + intros started ->. set_solver.
Qed.

Lemma updateJobStatus_done_row env job task rid w sub :
  db w !! jobKey job = Some sub ->
  db (updateJobStatus env job [] task rid w).2 !! jobKey job =
  Some (rowAfterCompletion sub rid task).
Proof.
  intros Hdb.
  pose proof (updateJobStatus_done env job task rid w sub Hdb) as Hdone.
  cbn zeta in Hdone. rewrite Hdone. unfold rowAfterCompletion.
  destruct (sortedRepos _) as [sorted | e]; [destruct (firstTask sorted) |];
    apply lookup_insert_eq.
Qed.

Lemma mergeRepoData_status_same repoData task status :
  statusOf task repoData = Some status ->
  mergeRepoData repoData (statusEntry task status) = repoData.
Proof.
  destruct repoData, task; cbn; intros ->; reflexivity.
Qed.

Lemma completed_same sub rid task :
  storedStatus sub rid task = Some complete -> completed sub rid task = sub.
Proof.
  unfold storedStatus. intros H.
  destruct (repos (repoSyncState sub) !! rid) as [repoData |] eqn:Hrd; [| discriminate].
  cbn in H. destruct sub as [status [n rs]].
  unfold completed, set, mergeRepoSyncState. cbn in *.
  f_equal. f_equal. apply map_eq. intros i.
  rewrite lookup_merge_entry. destruct (decide (rid = i)) as [<- |]; [| reflexivity].
  rewrite Hrd. cbn. f_equal. apply mergeRepoData_status_same. exact H.
Qed.

Lemma repos_counted sub :
  repos (repoSyncState (counted sub)) = repos (repoSyncState sub).
Proof. apply repos_set_synced. Qed.

Lemma counted_counted sub : counted (counted sub) = counted sub.
Proof.
  unfold counted at 1. rewrite repos_counted.
  destruct sub as [status [n rs]]. unfold counted, set, mergeRepoSyncState. cbn.
  rewrite !merge_no_entries. reflexivity.
Qed.

Lemma counted_complete sub :
  counted (set sub (syncStatusPatch COMPLETE)) = set (counted sub) (syncStatusPatch COMPLETE).
Proof. reflexivity. Qed.

Lemma storedStatus_rowAfterCompletion sub rid task :
  storedStatus (rowAfterCompletion sub rid task) rid task = Some complete.
Proof.
  unfold rowAfterCompletion.
  destruct (sortedRepos _) as [sorted | e]; [destruct (firstTask sorted) |];
    rewrite ?storedStatus_syncStatus, storedStatus_counted;
    apply storedStatus_set_status.
Qed.

Lemma repos_rowAfterCompletion sub rid task :
  repos (repoSyncState (rowAfterCompletion sub rid task)) =
  repos (repoSyncState (completed sub rid task)).
Proof.
  unfold rowAfterCompletion.
  destruct (sortedRepos _) as [sorted | e]; [destruct (firstTask sorted) |];
    rewrite ?repos_set_syncStatus; apply repos_set_synced.
Qed.

Lemma rowAfterCompletion_twice sub rid task :
  rowAfterCompletion (rowAfterCompletion sub rid task) rid task =
  rowAfterCompletion sub rid task.
Proof.
  unfold rowAfterCompletion at 1.
  rewrite (completed_same (rowAfterCompletion sub rid task))
    by apply storedStatus_rowAfterCompletion.
  rewrite repos_rowAfterCompletion.
  unfold rowAfterCompletion.
  destruct (sortedRepos _) as [sorted | e]; [destruct (firstTask sorted) |];
    rewrite ?counted_complete, ?counted_counted; reflexivity.
Qed.

Lemma syncStatus_rowAfterCompletion sub rid task :
  syncStatus (rowAfterCompletion sub rid task) = syncStatus sub \/
  syncStatus (rowAfterCompletion sub rid task) = COMPLETE.
Proof.
  unfold rowAfterCompletion.
  destruct (sortedRepos _) as [sorted | e]; [destruct (firstTask sorted) |];
    cbn; auto.
Qed.

(** C10: applying [updateJobStatus] twice with no edges to a task that is
    already complete leaves the same row as applying it once; the task stays
    complete, an overall COMPLETE stays COMPLETE, and the overall status is
    ACTIVE afterwards only if it was ACTIVE before. *)
Theorem updateJobStatus_idempotent env job task rid w sub :
  db w !! jobKey job = Some sub ->
  storedStatus sub rid task = Some complete ->
  let once := (updateJobStatus env job [] task rid w).2 in
  let twice := (updateJobStatus env job [] task rid once).2 in
  exists row,
    db once !! jobKey job = Some row /\
    db twice !! jobKey job = Some row /\
    storedStatus row rid task = Some complete /\
    (syncStatus sub = COMPLETE -> syncStatus row = COMPLETE) /\
    (syncStatus row = ACTIVE -> syncStatus sub = ACTIVE).
Proof.
  intros Hdb Hdone once twice.
  pose proof (updateJobStatus_done_row env job task rid w sub Hdb) as Honce.
  fold once in Honce.
  pose proof (updateJobStatus_done_row env job task rid once _ Honce) as Htwice.
  fold twice in Htwice. rewrite rowAfterCompletion_twice in Htwice.
  exists (rowAfterCompletion sub rid task).
  split; [exact Honce |]. split; [exact Htwice |].
  split; [apply storedStatus_rowAfterCompletion |].
  destruct (syncStatus_rowAfterCompletion sub rid task) as [-> | ->].
  - auto.
  - split; [reflexivity | discriminate].
Qed.

(** ** The job handler *)

Lemma runExecute_run env job p w :
  runExecute env job p w =
  let result :=
    execute (processor env (pr_task p) (pr_repository p) (pr_cursor p))
      (exhaustedError (installationId (data job)) (pr_repositoryId p) (pr_task p)) in
  (result.1, logged w (Fetch (pr_task p) <$> result.2)).
Proof. reflexivity. Qed.

Lemma updateJobStatus_keeps_row env job edges task rid w :
  is_Some (db w !! jobKey job) ->
  is_Some (db (updateJobStatus env job edges task rid w).2 !! jobKey job).
Proof.
  intros [sub Hdb]. destruct (last edges) as [lastEdge |] eqn:Hlast.
  - rewrite (updateJobStatus_more _ _ _ _ _ _ _ _ Hdb Hlast). cbn [snd db].
    rewrite lookup_insert_eq. eauto.
  - apply last_None in Hlast. subst edges.
    rewrite (updateJobStatus_done_row _ _ _ _ _ _ Hdb). eauto.
Qed.

Lemma updateJobStatus_throws env job edges task rid w e w' :
  updateJobStatus env job edges task rid w = (Throw e, w') ->
  e = TypeError_undefined "updated_at".
Proof.
  destruct (db w !! jobKey job) as [sub |] eqn:Hdb.
  - destruct (last edges) as [lastEdge |] eqn:Hlast.
    + rewrite (updateJobStatus_more _ _ _ _ _ _ _ _ Hdb Hlast). discriminate.
    + apply last_None in Hlast. subst edges.
      pose proof (updateJobStatus_done env job task rid w sub Hdb) as Hdone.
      cbn zeta in Hdone. rewrite Hdone. clear Hdone.
      destruct (sortedRepos _) as [sorted | e0] eqn:Hs;
        [destruct (firstTask sorted); discriminate |].
      intros [= <- _]. apply (Array_sort_throws _ _ Hs).
  - rewrite (updateJobStatus_deleted _ _ _ _ _ _ Hdb). discriminate.
Qed.

Lemma tryBlock_keeps_row env job p w :
  is_Some (db w !! jobKey job) ->
  is_Some (db (tryBlock env job p w).2 !! jobKey job).
Proof.
  intros Hrow. unfold tryBlock, bind at 1. rewrite runExecute_run. cbn zeta.
  destruct (execute _ _) as [[page | e] called]; cbn [fst snd]; [| exact Hrow].
  unfold bind at 1.
  destruct (jiraPayload page) as [payload |].
  - unfold bind at 1, emit at 1.
    destruct (jira_repository_update env payload) as [err |]; cbn [reject_with throw ret];
      [exact Hrow |].
    apply updateJobStatus_keeps_row. exact Hrow.
  - cbn [ret]. apply updateJobStatus_keeps_row. exact Hrow.
Qed.

Lemma prepare_ready env job w p w1 :
  prepare env job w = (Return (Some p), w1) ->
  db w1 !! jobKey job = Some (pr_subscription p) /\
  syncStatus (pr_subscription p) = ACTIVE /\
  queue w1 = queue w.
Proof.
  unfold prepare, bind at 1, app_log at 1, emit at 1.
  unfold bind at 1, getSingleInstallation at 1. cbn [db queue trace].
  destruct (db w !! jobKey job) as [sub |] eqn:Hdb; [| discriminate].
  unfold bind at 1. destruct (getJiraClient env); cbn [reject_with throw ret]; [discriminate |].
  unfold bind at 1. destruct (app_auth env); cbn [reject_with throw ret]; [discriminate |].
  unfold bind at 1. rewrite getNextTask_run. fold (counted sub).
  destruct (sortedRepos _) as [sorted | e]; [| discriminate].
  cbn [fst snd]. destruct (firstTask sorted) as [next |].
  2:{ unfold bind, update, save, ret. cbn [db queue trace fst snd]. discriminate. }
  unfold bind at 1, update at 1, bind at 1, save at 1 2, ret at 1.
  cbn [db queue trace fst snd]. rewrite Hdb. cbn [db queue trace fst snd].
  rewrite lookup_insert_eq, insert_insert_eq.
  unfold bind at 1. destruct (nt_repository next) as [repository |].
  - unfold ret at 1, bind at 1, app_log, emit, ret. cbn [db queue trace fst snd].
    intros [= <- <-]. cbn [pr_subscription db queue].
    rewrite lookup_insert_eq. auto.
  - unfold bind at 1, emit at 1. cbn [db queue trace fst snd].
    destruct (github_repository env (nt_repositoryId next)) as [repository | err];
      [| discriminate].
    unfold bind at 1, update at 1, bind at 1, save at 1, ret at 1 2.
    cbn [db queue trace fst snd]. rewrite lookup_insert_eq, insert_insert_eq.
    unfold bind at 1, app_log, emit, ret. cbn [db queue trace fst snd].
    intros [= <- <-]. cbn [pr_subscription db queue].
    rewrite lookup_insert_eq. auto.
Qed.

Lemma processInstallation_caught env job w p w1 err w2 :
  prepare env job w = (Return (Some p), w1) ->
  tryBlock env job p w1 = (Throw err, w2) ->
  processInstallation env job w = catchBlock env job p err w2.
Proof.
  intros Hp Ht. unfold processInstallation, bind. rewrite Hp.
  unfold try_catch. rewrite Ht. reflexivity.
Qed.

Lemma delayOf_no_header env err :
  rateLimitOf err = NaN -> truthy (delayOf env err) = false.
Proof. unfold delayOf. intros ->. reflexivity. Qed.

Lemma catchBlock_no_header env job p err w2 :
  is_Some (db w2 !! jobKey job) ->
  rateLimitOf err = NaN ->
  let run := catchBlock env job p err w2 in
  let installation := installationId (data job) in
  (isTimeout err = true ->
     run = (Return tt,
            {| db := db w2;
               queue := queue w2 ++ [(data job, inheritedOpts job None (Some (Num 5000)))];
               trace := trace w2 ++
                 [Log (TimedOut installation (pr_repositoryId p) (pr_task p))] |})) /\
  (isTimeout err = false -> isAbuse err = true ->
     run = (Return tt,
            {| db := db w2;
               queue := queue w2 ++ [(data job, inheritedOpts job None (Some (Num 60000)))];
               trace := trace w2 ++
                 [Log (AbuseDetection installation (pr_repositoryId p) (pr_task p))] |})) /\
  (isTimeout err = false -> isAbuse err = false -> isNotFoundError err = true ->
     run = updateJobStatus env job [] (pr_task p) (pr_repositoryId p)
             {| db := db w2; queue := queue w2;
                trace := trace w2 ++
                  [Log (RepositoryDeleted installation (pr_repositoryId p) (pr_task p))] |}) /\
  (isTimeout err = false -> isAbuse err = false -> isNotFoundError err = false ->
     run = (Throw err,
            {| db := <[ jobKey job := set (pr_subscription p) (syncStatusPatch FAILED) ]> (db w2);
               queue := queue w2; trace := trace w2 |}) /\
     syncStatus <$> db run.2 !! jobKey job = Some FAILED) /\
  (run.1 = Throw err <->
     isTimeout err = false /\ isAbuse err = false /\ isNotFoundError err = false).
Proof.
  intros [row Hrow] Hrate run installation. subst run installation.
  unfold catchBlock. rewrite (delayOf_no_header env err Hrate).
  assert (Hfail : (bind (update (jobKey job) (pr_subscription p) (syncStatusPatch FAILED))
                        (fun _ => @throw unit err)) w2 =
          (Throw err,
           {| db := <[ jobKey job := set (pr_subscription p) (syncStatusPatch FAILED) ]> (db w2);
              queue := queue w2; trace := trace w2 |})).
  { unfold update, bind, save, ret, throw. cbn [db queue trace fst snd].
    rewrite Hrow. reflexivity. }
  assert (Hnf : (bind (app_log (RepositoryDeleted (installationId (data job))
                                  (pr_repositoryId p) (pr_task p)))
                   (fun _ => updateJobStatus env job [] (pr_task p) (pr_repositoryId p))) w2 =
                updateJobStatus env job [] (pr_task p) (pr_repositoryId p)
             {| db := db w2; queue := queue w2;
                trace := trace w2 ++
                  [Log (RepositoryDeleted (installationId (data job))
                          (pr_repositoryId p) (pr_task p))] |})
    by reflexivity.
  destruct (isTimeout err) eqn:Etimeout.
  { split; [| split; [| split; [| split]]]; try (intros; discriminate).
    - reflexivity.
    - split; [intros [=] | intros (? & ? & ?); discriminate]. }
  destruct (isAbuse err) eqn:Eabuse.
  { split; [| split; [| split; [| split]]]; try (intros; discriminate).
    - reflexivity.
    - split; [intros [=] | intros (? & ? & ?); discriminate]. }
  destruct (isNotFoundError err) eqn:Enotfound.
  { rewrite Hnf. split; [| split; [| split; [| split]]]; try (intros; discriminate).
    - reflexivity.
    - split; [| intros (? & ? & ?); discriminate].
      intros Hthrow. exfalso.
      destruct (updateJobStatus _ _ _ _ _ _) as [o w3] eqn:Hrun.
      cbn in Hthrow. subst o.
      apply updateJobStatus_throws in Hrun. subst err. discriminate. }
  rewrite Hfail. split; [| split; [| split; [| split]]]; try (intros; discriminate).
  - intros _ _ _. split; [reflexivity |]. cbn [snd db].
    rewrite lookup_insert_eq. reflexivity.
  - cbn [fst]. split; auto.
Qed.


(** C7, as amended: for an error caught by the handler that carries no
    [x-ratelimit-reset] header, [processInstallation] re-throws that error
    iff it is neither a connection timeout, nor an abuse-detection answer,
    nor a not-found error, and in exactly that case it has first stored
    FAILED for the installation.  A timeout and an abuse answer resolve after
    adding the same job with a delay of 5000 and 60000; a not-found error
    resolves as [updateJobStatus] does on no edges, which adds a job only
    when another task remains. *)
Theorem processInstallation_rejects_unclassified env job w p w1 err w2 :
  prepare env job w = (Return (Some p), w1) ->
  tryBlock env job p w1 = (Throw err, w2) ->
  rateLimitOf err = NaN ->
  let run := processInstallation env job w in
  let installation := installationId (data job) in
  (isTimeout err = true ->
     run = (Return tt,
            {| db := db w2;
               queue := queue w2 ++ [(data job, inheritedOpts job None (Some (Num 5000)))];
               trace := trace w2 ++
                 [Log (TimedOut installation (pr_repositoryId p) (pr_task p))] |})) /\
  (isTimeout err = false -> isAbuse err = true ->
     run = (Return tt,
            {| db := db w2;
               queue := queue w2 ++ [(data job, inheritedOpts job None (Some (Num 60000)))];
               trace := trace w2 ++
                 [Log (AbuseDetection installation (pr_repositoryId p) (pr_task p))] |})) /\
  (isTimeout err = false -> isAbuse err = false -> isNotFoundError err = true ->
     run = updateJobStatus env job [] (pr_task p) (pr_repositoryId p)
             {| db := db w2; queue := queue w2;
                trace := trace w2 ++
                  [Log (RepositoryDeleted installation (pr_repositoryId p) (pr_task p))] |}) /\
  (isTimeout err = false -> isAbuse err = false -> isNotFoundError err = false ->
     run = (Throw err,
            {| db := <[ jobKey job := set (pr_subscription p) (syncStatusPatch FAILED) ]> (db w2);
               queue := queue w2; trace := trace w2 |}) /\
     syncStatus <$> db run.2 !! jobKey job = Some FAILED) /\
  (run.1 = Throw err <->
     isTimeout err = false /\ isAbuse err = false /\ isNotFoundError err = false).
Proof.
  intros Hp Ht Hrate run installation. subst run installation.
  rewrite (processInstallation_caught _ _ _ _ _ _ _ Hp Ht).
  apply catchBlock_no_header; [| exact Hrate].
  replace w2 with (tryBlock env job p w1).2 by (rewrite Ht; reflexivity).
  apply tryBlock_keeps_row. destruct (prepare_ready _ _ _ _ _ Hp) as [-> _]. eauto.
Qed.

Lemma firstTask_elem sorted next :
  firstTask sorted = Some next ->
  exists repoData, (nt_repositoryId next, repoData) ∈ sorted.
Proof.
  intros H. destruct (firstTask_Some _ _ H) as (before & repoData & after & -> & _).
  exists repoData. set_solver.
Qed.

Lemma sortedRepos_elem repos sorted k repoData :
  sortedRepos repos = Return sorted ->
  (k, repoData) ∈ sorted -> repos !! k = Some repoData.
Proof.
  intros Hs Hin. apply elem_of_Object_entries.
  rewrite <- (Array_sort_Permutation _ _ _ Hs). exact Hin.
Qed.

Lemma is_Some_set_other sub values k :
  is_Some (repos (repoSyncState sub) !! k) ->
  is_Some (repos (repoSyncState (set sub values)) !! k).
Proof.
  intros [repoData Hk]. unfold set. cbn.
  destruct (p_repoSyncState values) as [patch |]; [| eauto].
  cbn. rewrite lookup_merge, Hk. destruct (p_repos patch !! k); cbn; eauto.
Qed.

Lemma prepare_selected env job w p w1 :
  prepare env job w = (Return (Some p), w1) ->
  is_Some (repos (repoSyncState (pr_subscription p)) !! pr_repositoryId p).
Proof.
  unfold prepare, bind at 1, app_log at 1, emit at 1.
  unfold bind at 1, getSingleInstallation at 1. cbn [db queue trace].
  destruct (db w !! jobKey job) as [sub |] eqn:Hdb; [| discriminate].
  unfold bind at 1. destruct (getJiraClient env); cbn [reject_with throw ret]; [discriminate |].
  unfold bind at 1. destruct (app_auth env); cbn [reject_with throw ret]; [discriminate |].
  unfold bind at 1. rewrite getNextTask_run. fold (counted sub).
  destruct (sortedRepos _) as [sorted | e] eqn:Hsorted; [| discriminate].
  cbn [fst snd]. destruct (firstTask sorted) as [next |] eqn:Hnext.
  2:{ unfold bind, update, save, ret. cbn [db queue trace fst snd]. discriminate. }
  assert (Hin : is_Some (repos (repoSyncState sub) !! nt_repositoryId next)).
  { destruct (firstTask_elem _ _ Hnext) as [repoData Hin].
    rewrite (sortedRepos_elem _ _ _ _ Hsorted Hin). eauto. }
  unfold bind at 1, update at 1, bind at 1, save at 1 2, ret at 1.
  cbn [db queue trace fst snd].
  unfold bind at 1. destruct (nt_repository next) as [repository |].
  - unfold ret at 1, bind at 1, app_log, emit, ret. cbn [db queue trace fst snd].
    intros [= <- _]. cbn [pr_subscription pr_repositoryId].
    apply is_Some_set_other, is_Some_set_other. exact Hin.
  - unfold bind at 1, emit at 1. cbn [db queue trace fst snd].
    destruct (github_repository env (nt_repositoryId next)) as [repository | err];
      [| discriminate].
    unfold bind at 1, update at 1, bind at 1, save at 1, ret at 1 2.
    cbn [db queue trace fst snd].
    unfold bind at 1, app_log, emit, ret. cbn [db queue trace fst snd].
    intros [= <- _]. cbn [pr_subscription pr_repositoryId].
    do 3 apply is_Some_set_other. exact Hin.
Qed.

Lemma completed_summaries sub rid task :
  is_Some (repos (repoSyncState sub) !! rid) ->
  (forall k repoData, repos (repoSyncState sub) !! k = Some repoData ->
     is_Some (repository repoData)) ->
  forall k repoData,
    repos (repoSyncState (completed sub rid task)) !! k = Some repoData ->
    is_Some (repository repoData).
Proof.
  intros [old Hold] Hall k repoData. unfold completed.
  rewrite repos_set_entry, lookup_merge_entry.
  destruct (decide (rid = k)) as [<- |]; [| apply Hall].
  rewrite Hold. intros [= <-]. cbn.
  destruct task; cbn; exact (Hall rid old Hold).
Qed.

(** C8, as amended: when the execution of the task throws an error with a
    NOT_FOUND entry that carries no [x-ratelimit-reset] header and is neither
    a connection timeout nor an abuse-detection answer, the handler runs
    [updateJobStatus] with no edges: the task's status for that repository is
    stored as complete, the error is not re-thrown, the installation is not
    marked FAILED, and the job resolves when every repository carries its
    summary. *)
Theorem processInstallation_not_found env job w p w1 err w2 :
  prepare env job w = (Return (Some p), w1) ->
  runExecute env job p w1 = (Throw err, w2) ->
  isNotFoundError err = true ->
  rateLimitOf err = NaN ->
  isTimeout err = false ->
  isAbuse err = false ->
  let run := processInstallation env job w in
  run = updateJobStatus env job [] (pr_task p) (pr_repositoryId p)
          {| db := db w2; queue := queue w2;
             trace := trace w2 ++
               [Log (RepositoryDeleted (installationId (data job))
                       (pr_repositoryId p) (pr_task p))] |} /\
  run.1 <> Throw err /\
  (exists row,
     db run.2 !! jobKey job = Some row /\
     storedStatus row (pr_repositoryId p) (pr_task p) = Some complete /\
     syncStatus row <> FAILED) /\
  ((forall k repoData,
      repos (repoSyncState (pr_subscription p)) !! k = Some repoData ->
      is_Some (repository repoData)) ->
   run.1 = Return tt).
Proof.
  intros Hp He Hnf Hrate Htimeout Habuse run.
  assert (Ht : tryBlock env job p w1 = (Throw err, w2)).
  { unfold tryBlock, bind. rewrite He. reflexivity. }
  destruct (prepare_ready _ _ _ _ _ Hp) as (Hrow & Hactive & _).
  assert (Hdb : db w2 = db w1).
  { rewrite runExecute_run in He. cbn zeta in He. injection He as _ <-. reflexivity. }
  assert (Hcaught : run = catchBlock env job p err w2)
    by exact (processInstallation_caught _ _ _ _ _ _ _ Hp Ht).
  destruct (catchBlock_no_header env job p err w2) as (_ & _ & Hrun & _ & Hthrow);
    [rewrite Hdb, Hrow; eauto | exact Hrate |].
  specialize (Hrun Htimeout Habuse Hnf). cbn zeta in Hrun, Hthrow.
  rewrite <- Hcaught in Hrun, Hthrow.
  split; [exact Hrun |]. split.
  { rewrite Hthrow, Hnf. intros (_ & _ & H). discriminate. }
  assert (Hrow2 : db {| db := db w2; queue := queue w2;
             trace := trace w2 ++
               [Log (RepositoryDeleted (installationId (data job))
                       (pr_repositoryId p) (pr_task p))] |} !! jobKey job =
                  Some (pr_subscription p)).
  { cbn [db]. rewrite Hdb. exact Hrow. }
  split.
  - exists (rowAfterCompletion (pr_subscription p) (pr_repositoryId p) (pr_task p)).
    split; [rewrite Hrun; apply updateJobStatus_done_row; exact Hrow2 |].
    split; [apply storedStatus_rowAfterCompletion |].
    destruct (syncStatus_rowAfterCompletion (pr_subscription p) (pr_repositoryId p) (pr_task p))
      as [-> | ->]; [rewrite Hactive |]; discriminate.
  - intros Hall. rewrite Hrun.
    pose proof (updateJobStatus_done env job (pr_task p) (pr_repositoryId p) _ _ Hrow2)
      as Hdone.
    cbn zeta in Hdone. rewrite Hdone. clear Hdone.
    destruct (sortedRepos_summaries
                (repos (repoSyncState
                   (completed (pr_subscription p) (pr_repositoryId p) (pr_task p)))))
      as (sorted & -> & _).
    { apply completed_summaries; [| exact Hall]. exact (prepare_selected _ _ _ _ _ Hp). }
    destruct (firstTask sorted); reflexivity.
Qed.

(** ** The repository map never loses an entry *)

Lemma dom_set sub values :
  dom (repos (repoSyncState sub)) ⊆ dom (repos (repoSyncState (set sub values))).
Proof.
  intros k Hk. apply elem_of_dom in Hk. apply elem_of_dom.
  apply is_Some_set_other. exact Hk.
Qed.

Section NeverShrink.

Variable key : string * Z.
Variable known : gset N.

Lemma covers_set sub values : covers known sub -> covers known (set sub values).
Proof. unfold covers. intros H. etransitivity; [exact H | apply dom_set]. Qed.

Lemma keeps_ret {A : Type} (a : A) (Q : A -> Prop) :
Q a -> keeps key known (ret a) Q.
Proof. intros Ha w Hw. split; [exact Hw |]. intros a' [= <-]. exact Ha. Qed.

Lemma keeps_throw {A : Type} e (Q : A -> Prop) : keeps key known (throw e) Q.
Proof. intros w Hw. split; [exact Hw | discriminate]. Qed.

Lemma keeps_lift {A : Type} (o : Outcome A) : keeps key known (lift o) (fun _ => True).
Proof. intros w Hw. split; [exact Hw | auto]. Qed.

Lemma keeps_bind {A B : Type} (m : M A) (k : A -> M B) Q R :
keeps key known m Q ->
(forall a, Q a -> keeps key known (k a) R) ->
keeps key known (bind m k) R.
Proof.
intros Hm Hk w Hw. destruct (Hm w Hw) as [Hw' HQ]. unfold bind.
destruct (m w) as [[a | e] w']; cbn [fst snd] in *.
- apply (Hk a (HQ a eq_refl) w' Hw').
- split; [exact Hw' | discriminate].
Qed.

Lemma keeps_try_catch {A : Type} (m : M A) (h : JSError -> M A) Q :
keeps key known m Q ->
(forall e, keeps key known (h e) Q) ->
keeps key known (try_catch m h) Q.
Proof.
intros Hm Hh w Hw. destruct (Hm w Hw) as [Hw' HQ]. unfold try_catch.
destruct (m w) as [[a | e] w']; cbn [fst snd] in *.
- split; [exact Hw' |]. intros a' [= <-]. auto.
- apply (Hh e w' Hw').
Qed.

Lemma keeps_emit_all es : keeps key known (emit_all es) (fun _ => True).
Proof. intros w Hw. split; [exact Hw | auto]. Qed.

Lemma keeps_emit e : keeps key known (emit e) (fun _ => True).
Proof. intros w Hw. split; [exact Hw | auto]. Qed.

Lemma keeps_queue_add d o : keeps key known (queue_add d o) (fun _ => True).
Proof. intros w Hw. split; [exact Hw | auto]. Qed.

Lemma keeps_reject_with e : keeps key known (reject_with e) (fun _ => True).
Proof. destruct e; [apply keeps_throw | apply keeps_ret; exact I]. Qed.

Lemma keeps_getSingleInstallation :
keeps key known (getSingleInstallation key)
  (fun fetched => exists sub, fetched = Some sub /\ covers known sub).
Proof.
intros w Hw. split; [exact Hw |]. intros a [= <-].
destruct Hw as (row & Hrow & Hcov). exists row. cbn. auto.
Qed.

Lemma keeps_save sub :
covers known sub -> keeps key known (save key sub) (fun _ => True).
Proof.
intros Hcov w (row & Hrow & _). split; [| auto].
unfold save. cbn [snd db]. rewrite Hrow. exists sub.
split; [apply lookup_insert_eq | exact Hcov].
Qed.

Lemma keeps_update sub values :
covers known sub -> keeps key known (update key sub values) (covers known).
Proof.
intros Hcov. unfold update.
apply (keeps_bind _ _ (fun _ => True)).
- apply keeps_save, covers_set, Hcov.
- intros _ _. apply keeps_ret, covers_set, Hcov.
Qed.

Lemma keeps_getNextTask sub :
covers known sub ->
keeps key known (getNextTask key sub) (fun found => covers known found.2).
Proof.
intros Hcov. unfold getNextTask, updateNumberOfReposSynced.
apply (keeps_bind _ _ (covers known)); [apply keeps_update, Hcov |].
intros sub' Hsub'. apply (keeps_bind _ _ (fun _ => True)); [apply keeps_lift |].
intros sorted _. apply keeps_ret. exact Hsub'.
Qed.

End NeverShrink.

Lemma keeps_updateJobStatus known env job edges task rid :
  keeps (jobKey job) known (updateJobStatus env job edges task rid) (fun _ => True).
Proof.
  unfold updateJobStatus.
  eapply keeps_bind; [apply keeps_getSingleInstallation |].
  intros fetched (sub & -> & Hcov).
  eapply keeps_bind; [apply keeps_emit |]. intros _ _.
  destruct (last edges) as [lastEdge |].
  - eapply keeps_bind; [apply keeps_queue_add |]. intros _ _.
    apply keeps_save. do 2 apply covers_set. exact Hcov.
  - eapply keeps_bind; [apply keeps_getNextTask, covers_set, Hcov |].
    cbn beta. intros found Hfound. destruct (found.1).
    + eapply keeps_bind; [apply keeps_emit |]. intros _ _.
      eapply keeps_bind; [apply keeps_queue_add |]. intros _ _.
      apply keeps_save. exact Hfound.
    + eapply keeps_bind with (Q := fun _ => True).
      { destruct (startTime (data job)).
        - eapply keeps_bind; [apply keeps_emit |]. intros _ _. apply keeps_ret. exact I.
        - apply keeps_ret. exact I. }
      intros timing _.
      eapply keeps_bind; [apply keeps_emit |]. intros _ _.
      eapply keeps_bind with (Q := fun _ => True).
      { apply keeps_try_catch.
        - eapply keeps_bind; [apply keeps_emit |]. intros _ _. apply keeps_reject_with.
        - intros e. apply keeps_emit. }
      intros _ _. apply keeps_save, covers_set. exact Hfound.
Qed.

Lemma keeps_prepare known env job :
  keeps (jobKey job) known (prepare env job)
    (fun prepared => forall p, prepared = Some p -> covers known (pr_subscription p)).
Proof.
  unfold prepare.
  eapply keeps_bind; [apply keeps_emit |]. intros _ _.
  eapply keeps_bind; [apply keeps_getSingleInstallation |].
  intros fetched (sub & -> & Hcov).
  eapply keeps_bind; [apply keeps_reject_with |]. intros _ _.
  eapply keeps_bind; [apply keeps_reject_with |]. intros _ _.
  eapply keeps_bind; [apply keeps_getNextTask, Hcov |].
  cbn beta. intros found Hfound. destruct (found.1) as [next |].
  - eapply keeps_bind; [apply keeps_update, Hfound |].
    cbn beta. intros active Hactive.
    eapply keeps_bind with (Q := fun loaded => covers known loaded.2).
    { destruct (nt_repository next) as [repository |].
      - apply keeps_ret. exact Hactive.
      - eapply keeps_bind; [apply keeps_emit |]. intros _ _.
        destruct (github_repository env (nt_repositoryId next)) as [repository | err].
        + eapply keeps_bind; [apply keeps_update, Hactive |].
          cbn beta. intros sub' Hsub'. apply keeps_ret. exact Hsub'.
        + apply keeps_throw. }
    intros loaded Hloaded.
    eapply keeps_bind; [apply keeps_emit |]. intros _ _.
    apply keeps_ret. intros p [= <-]. exact Hloaded.
  - eapply keeps_bind; [apply keeps_update, Hfound |]. intros _ _.
    apply keeps_ret. discriminate.
Qed.

Lemma keeps_tryBlock known env job p :
  keeps (jobKey job) known (tryBlock env job p) (fun _ => True).
Proof.
  unfold tryBlock.
  eapply keeps_bind with (Q := fun _ => True).
  { unfold runExecute. eapply keeps_bind; [apply keeps_emit_all |]. intros _ _.
    apply keeps_lift. }
  intros page _.
  eapply keeps_bind with (Q := fun _ => True).
  { destruct (jiraPayload page).
    - eapply keeps_bind; [apply keeps_emit |]. intros _ _. apply keeps_reject_with.
    - apply keeps_ret. exact I. }
  intros _ _. apply keeps_updateJobStatus.
Qed.

Lemma keeps_catchBlock known env job p err :
  covers known (pr_subscription p) ->
  keeps (jobKey job) known (catchBlock env job p err) (fun _ => True).
Proof.
  intros Hcov. unfold catchBlock.
  destruct (truthy (delayOf env err)).
  { eapply keeps_bind; [apply keeps_emit |]. intros _ _. apply keeps_queue_add. }
  destruct (isTimeout err).
  { eapply keeps_bind; [apply keeps_emit |]. intros _ _. apply keeps_queue_add. }
  destruct (isAbuse err).
  { eapply keeps_bind; [apply keeps_emit |]. intros _ _. apply keeps_queue_add. }
  destruct (isNotFoundError err).
  { eapply keeps_bind; [apply keeps_emit |]. intros _ _. apply keeps_updateJobStatus. }
  eapply keeps_bind; [apply keeps_update, Hcov |]. intros _ _. apply keeps_throw.
Qed.

Lemma keeps_processInstallation known env job :
  keeps (jobKey job) known (processInstallation env job) (fun _ => True).
Proof.
  unfold processInstallation.
  eapply keeps_bind; [apply keeps_prepare |].
  cbn beta. intros [p |] Hp.
  - apply keeps_try_catch; [apply keeps_tryBlock |].
    intros e. apply keeps_catchBlock. apply Hp. reflexivity.
  - apply keeps_ret. exact I.
Qed.

Lemma stored_row key (row : Subscription) w :
  db w !! key = Some row -> stored key (dom (repos (repoSyncState row))) w.
Proof. intros H. exists row. split; [exact H | unfold covers; reflexivity]. Qed.

(** C5: no write of the engine removes an entry of the repository map:
    [set] keeps every identifier of the in-memory row, and the stored row
    after [getNextTask], after [updateJobStatus] and after a whole run of
    [processInstallation] still has every identifier the stored row had
    before. *)
Theorem repos_never_shrink :
  (forall sub values,
     dom (repos (repoSyncState sub)) ⊆ dom (repos (repoSyncState (set sub values)))) /\
  (forall key sub w,
     db w !! key = Some sub ->
     exists row, db (getNextTask key sub w).2 !! key = Some row /\
       dom (repos (repoSyncState sub)) ⊆ dom (repos (repoSyncState row))) /\
  (forall env job edges task rid w sub,
     db w !! jobKey job = Some sub ->
     exists row, db (updateJobStatus env job edges task rid w).2 !! jobKey job = Some row /\
       dom (repos (repoSyncState sub)) ⊆ dom (repos (repoSyncState row))) /\
  (forall env job w sub,
     db w !! jobKey job = Some sub ->
     exists row, db (processInstallation env job w).2 !! jobKey job = Some row /\
       dom (repos (repoSyncState sub)) ⊆ dom (repos (repoSyncState row))).
Proof.
  split; [exact dom_set |]. split; [| split].
  - intros key sub w Hdb.
    apply (keeps_getNextTask key _ sub); [unfold covers; reflexivity |].
    apply stored_row, Hdb.
  - intros env job edges task rid w sub Hdb.
    apply (keeps_updateJobStatus _ env job edges task rid w). apply stored_row, Hdb.
  - intros env job w sub Hdb.
    apply (keeps_processInstallation _ env job w). apply stored_row, Hdb.
Qed.

(** ** Whole runs of the handler *)

Lemma rowWritten_refl job w row :
  db w !! jobKey job = Some row -> rowWritten job w w row.
Proof. intros H. unfold rowWritten. symmetry. apply insert_id, H. Qed.

Lemma rowWritten_same job w w' row :
  db w' = db w -> db w !! jobKey job = Some row -> rowWritten job w w' row.
Proof. unfold rowWritten. intros -> H. symmetry. apply insert_id, H. Qed.

Lemma rowWritten_trans job w w1 w2 row1 row2 :
  rowWritten job w w1 row1 -> rowWritten job w1 w2 row2 -> rowWritten job w w2 row2.
Proof. unfold rowWritten. intros -> ->. apply insert_insert_eq. Qed.

Lemma rowWritten_lookup job w w' row :
  rowWritten job w w' row -> db w' !! jobKey job = Some row.
Proof. unfold rowWritten. intros ->. apply lookup_insert_eq. Qed.

Lemma rowWritten_other job w w' row k :
  rowWritten job w w' row -> k <> jobKey job -> db w' !! k = db w !! k.
Proof. unfold rowWritten. intros -> Hk. apply lookup_insert_ne. congruence. Qed.

(** What a progress update does to the queue and to the overall status. *)
Lemma updateJobStatus_summary env job edges task rid w sub :
  db w !! jobKey job = Some sub ->
  exists row,
    rowWritten job w (updateJobStatus env job edges task rid w).2 row /\
    match (updateJobStatus env job edges task rid w).1 with
    | Return _ =>
        (enqueuedOnce job w (updateJobStatus env job edges task rid w).2 /\
         syncStatus row = syncStatus sub) \/
        (queue (updateJobStatus env job edges task rid w).2 = queue w /\
         syncStatus row = COMPLETE)
    | Throw _ =>
        queue (updateJobStatus env job edges task rid w).2 = queue w /\
        syncStatus row = syncStatus sub
    end.
Proof.
  intros Hdb. destruct (last edges) as [lastEdge |] eqn:Hlast.
  - rewrite (updateJobStatus_more _ _ _ _ _ _ _ _ Hdb Hlast). cbn [fst snd db queue].
    eexists. split; [reflexivity |]. left. split; [| reflexivity].
    eexists _, _. reflexivity.
  - apply last_None in Hlast. subst edges.
    pose proof (updateJobStatus_done env job task rid w sub Hdb) as Hdone.
    cbn zeta in Hdone. rewrite Hdone. clear Hdone.
    destruct (sortedRepos _) as [sorted | e]; [destruct (firstTask sorted) |];
      cbn [fst snd db queue]; eexists; (split; [reflexivity |]).
    + left. split; [| reflexivity]. eexists _, _. reflexivity.
    + right. split; reflexivity.
    + split; reflexivity.
Qed.

Lemma prepare_absent env job w :
  db w !! jobKey job = None ->
  prepare env job w =
  (Return None,
   {| db := db w; queue := queue w;
      trace := trace w ++ [Log (StartingJob (installationId (data job)))] |}).
Proof.
  intros Hdb. unfold prepare, bind at 1, app_log at 1, emit at 1.
  unfold bind at 1, getSingleInstallation at 1. cbn [db queue trace].
  rewrite Hdb. reflexivity.
Qed.

(** The handler up to its [try] block, on an installation that exists: it
    adds no job and writes only the row of the job. *)
Lemma prepare_summary env job w sub :
  db w !! jobKey job = Some sub ->
  queue (prepare env job w).2 = queue w /\
  exists row,
    rowWritten job w (prepare env job w).2 row /\
    match (prepare env job w).1 with
    | Return None =>
        row = set (counted sub) (syncStatusPatch COMPLETE) /\
        exists sorted,
          sortedRepos (repos (repoSyncState sub)) = Return sorted /\
          firstTask sorted = None
    | Return (Some p) =>
        row = pr_subscription p /\ syncStatus row = ACTIVE
    | Throw _ => syncStatus row = syncStatus sub \/ syncStatus row = ACTIVE
    end.
Proof.
  intros Hdb. destruct (prepare env job w) as [o w1] eqn:Hrun. revert Hrun.
  unfold prepare, bind at 1, app_log at 1, emit at 1.
  unfold bind at 1, getSingleInstallation at 1. cbn [db queue trace].
  rewrite Hdb.
  unfold bind at 1. destruct (getJiraClient env); cbn [reject_with throw ret].
  { intros [= <- <-]. cbn [fst snd queue db]. split; [reflexivity |].
    exists sub. split; [apply rowWritten_same; [reflexivity | exact Hdb] | auto]. }
  unfold bind at 1. destruct (app_auth env); cbn [reject_with throw ret].
  { intros [= <- <-]. cbn [fst snd queue db]. split; [reflexivity |].
    exists sub. split; [apply rowWritten_same; [reflexivity | exact Hdb] | auto]. }
  unfold bind at 1. rewrite getNextTask_run. fold (counted sub).
  unfold save at 1 2. cbn [db queue trace fst snd]. rewrite Hdb.
  destruct (sortedRepos _) as [sorted | e] eqn:Hsorted.
  2:{ intros [= <- <-]. cbn [fst snd queue db]. split; [reflexivity |].
      eexists. split; [reflexivity | left; reflexivity]. }
  cbn [fst snd]. destruct (firstTask sorted) as [next |] eqn:Hnext.
  2:{ unfold update, bind, save, ret. cbn [db queue trace fst snd].
      rewrite lookup_insert_eq, insert_insert_eq. intros [= <- <-].
      cbn [fst snd queue db]. split; [reflexivity |].
      eexists. split; [reflexivity |]. split; [reflexivity |]. exists sorted. auto. }
  unfold bind at 1, update at 1, bind at 1, save at 1, ret at 1.
  cbn [db queue trace fst snd]. rewrite lookup_insert_eq, insert_insert_eq.
  unfold bind at 1. destruct (nt_repository next) as [repository |].
  - unfold ret at 1, bind at 1, app_log, emit, ret. cbn [db queue trace fst snd].
    intros [= <- <-]. cbn [fst snd queue db pr_subscription].
    split; [reflexivity |]. eexists. split; [reflexivity |]. auto.
  - unfold bind at 1, emit at 1. cbn [db queue trace fst snd].
    destruct (github_repository env (nt_repositoryId next)) as [repository | err].
    + unfold bind at 1, update at 1, bind at 1, save at 1, ret at 1 2.
      cbn [db queue trace fst snd]. rewrite lookup_insert_eq, insert_insert_eq.
      unfold bind at 1, app_log, emit, ret. cbn [db queue trace fst snd].
      intros [= <- <-]. cbn [fst snd queue db pr_subscription].
      split; [reflexivity |]. eexists. split; [reflexivity |]. auto.
    + cbn [throw]. intros [= <- <-]. cbn [fst snd queue db]. split; [reflexivity |].
      eexists. split; [reflexivity |]. right. reflexivity.
Qed.

Lemma runExecute_quiet env job p w :
  db (runExecute env job p w).2 = db w /\ queue (runExecute env job p w).2 = queue w.
Proof. rewrite runExecute_run. split; reflexivity. Qed.

(** The [try] block, on an installation that exists. *)
Lemma tryBlock_summary env job p w sub :
  db w !! jobKey job = Some sub ->
  exists row,
    rowWritten job w (tryBlock env job p w).2 row /\
    match (tryBlock env job p w).1 with
    | Return _ =>
        (enqueuedOnce job w (tryBlock env job p w).2 /\ syncStatus row = syncStatus sub) \/
        (queue (tryBlock env job p w).2 = queue w /\ syncStatus row = COMPLETE)
    | Throw _ =>
        queue (tryBlock env job p w).2 = queue w /\ syncStatus row = syncStatus sub
    end.
Proof.
  intros Hdb.
  assert (Hstep : forall es page,
    let w1 := {| db := db w; queue := queue w; trace := trace w ++ es |} in
    exists row,
      rowWritten job w
        (updateJobStatus env job (edges page) (pr_task p) (pr_repositoryId p) w1).2 row /\
      match (updateJobStatus env job (edges page) (pr_task p) (pr_repositoryId p) w1).1 with
      | Return _ =>
          (enqueuedOnce job w
             (updateJobStatus env job (edges page) (pr_task p) (pr_repositoryId p) w1).2 /\
           syncStatus row = syncStatus sub) \/
          (queue (updateJobStatus env job (edges page) (pr_task p) (pr_repositoryId p) w1).2
           = queue w /\ syncStatus row = COMPLETE)
      | Throw _ =>
          queue (updateJobStatus env job (edges page) (pr_task p) (pr_repositoryId p) w1).2
          = queue w /\ syncStatus row = syncStatus sub
      end).
  { intros es page w1.
    exact (updateJobStatus_summary env job (edges page) (pr_task p) (pr_repositoryId p)
             w1 sub Hdb). }
  destruct (tryBlock env job p w) as [o w2] eqn:Hrun. revert Hrun.
  unfold tryBlock, bind at 1. rewrite runExecute_run. cbn zeta.
  destruct (execute _ _) as [[page | e] called]; cbn [fst snd].
  2:{ intros [= <- <-]. cbn [fst snd queue]. exists sub.
      split; [apply rowWritten_same; [reflexivity | exact Hdb] | auto]. }
  unfold bind at 1.
  destruct (jiraPayload page) as [payload |].
  - unfold bind at 1, emit at 1.
    destruct (jira_repository_update env payload) as [err |];
      cbn [reject_with throw ret fst snd].
    + intros [= <- <-]. cbn [fst snd queue]. exists sub.
      split; [apply rowWritten_same; [reflexivity | exact Hdb] | auto].
    + unfold logged. cbn [db queue trace]. rewrite <- app_assoc. intros Hrun.
      specialize (Hstep ((Fetch (pr_task p) <$> called) ++ [JiraRepositoryUpdate payload]) page).
      cbn zeta in Hstep. rewrite Hrun in Hstep. exact Hstep.
  - cbn [ret]. unfold logged. intros Hrun.
    specialize (Hstep (Fetch (pr_task p) <$> called) page).
    cbn zeta in Hstep. rewrite Hrun in Hstep. exact Hstep.
Qed.

(** The [catch] block, on an installation that exists. *)
Lemma catchBlock_summary env job p err w sub :
  db w !! jobKey job = Some sub ->
  exists row,
    rowWritten job w (catchBlock env job p err w).2 row /\
    match (catchBlock env job p err w).1 with
    | Return _ =>
        (enqueuedOnce job w (catchBlock env job p err w).2 /\
         syncStatus row = syncStatus sub) \/
        (queue (catchBlock env job p err w).2 = queue w /\ syncStatus row = COMPLETE)
    | Throw _ =>
        queue (catchBlock env job p err w).2 = queue w /\
        (syncStatus row = FAILED \/ syncStatus row = syncStatus sub)
    end.
Proof.
  intros Hdb.
  assert (Hadd : forall line delay,
    let run := bind (app_log line)
                 (fun _ => queue_add (data job) (inheritedOpts job None delay)) w in
    exists row, rowWritten job w run.2 row /\
      ((enqueuedOnce job w run.2 /\ syncStatus row = syncStatus sub) \/
       (queue run.2 = queue w /\ syncStatus row = COMPLETE))).
  { intros line delay. cbn. exists sub.
    split; [apply rowWritten_same; [reflexivity | exact Hdb] |].
    left. split; [| reflexivity]. eexists _, _. reflexivity. }
  unfold catchBlock.
  destruct (truthy (delayOf env err)); [apply Hadd |].
  destruct (isTimeout err); [apply Hadd |].
  destruct (isAbuse err); [apply Hadd |].
  destruct (isNotFoundError err).
  - destruct (updateJobStatus_summary env job [] (pr_task p) (pr_repositoryId p)
                {| db := db w; queue := queue w;
                   trace := trace w ++ [Log (RepositoryDeleted (installationId (data job))
                                               (pr_repositoryId p) (pr_task p))] |}
                sub Hdb) as (row & Hrow & Hout).
    exists row. split; [exact Hrow |].
    change ((bind (app_log (RepositoryDeleted (installationId (data job))
                              (pr_repositoryId p) (pr_task p)))
                  (fun _ => updateJobStatus env job [] (pr_task p) (pr_repositoryId p))) w)
      with (updateJobStatus env job [] (pr_task p) (pr_repositoryId p)
              {| db := db w; queue := queue w;
                 trace := trace w ++ [Log (RepositoryDeleted (installationId (data job))
                                             (pr_repositoryId p) (pr_task p))] |}).
    destruct (updateJobStatus _ _ _ _ _ _) as [[[] | e] w3]; cbn [fst snd] in *.
    + exact Hout.
    + destruct Hout as [Hq Hs]. split; [exact Hq | right; exact Hs].
  - unfold update, bind, save, ret, throw. cbn [db queue trace fst snd]. rewrite Hdb.
    cbn [fst snd db queue]. eexists. split; [reflexivity |].
    split; [reflexivity | left; reflexivity].
Qed.

(** A whole run of the handler on an installation that exists: it writes
    only the row of the job and adds at most one job. *)
Lemma processInstallation_summary env job w sub :
  db w !! jobKey job = Some sub ->
  exists row,
    rowWritten job w (processInstallation env job w).2 row /\
    match (processInstallation env job w).1 with
    | Return _ =>
        (enqueuedOnce job w (processInstallation env job w).2 /\
         syncStatus row = ACTIVE) \/
        (queue (processInstallation env job w).2 = queue w /\ syncStatus row = COMPLETE)
    | Throw _ =>
        queue (processInstallation env job w).2 = queue w /\
        (syncStatus row = FAILED \/ syncStatus row = ACTIVE \/
         syncStatus row = syncStatus sub)
    end.
Proof.
  intros Hdb.
  destruct (prepare_summary env job w sub Hdb) as (Hq1 & row1 & Hrow1 & Hout1).
  unfold processInstallation, bind.
  destruct (prepare env job w) as [[[p |] | e] w1]; cbn [fst snd] in *.
  - destruct Hout1 as [-> Hactive]. unfold try_catch.
    pose proof (rowWritten_lookup _ _ _ _ Hrow1) as Hdb1.
    destruct (tryBlock_summary env job p w1 _ Hdb1) as (row2 & Hrow2 & Hout2).
    destruct (tryBlock env job p w1) as [[[] | err] w2]; cbn [fst snd] in *.
    + exists row2. split; [exact (rowWritten_trans _ _ _ _ _ _ Hrow1 Hrow2) |].
      destruct Hout2 as [[(a & d & Ha) Hs] | [Hq Hs]].
      * left. split; [exists a, d; rewrite Ha, Hq1; reflexivity | congruence].
      * right. split; [congruence | exact Hs].
    + destruct Hout2 as [Hq2 Hs2].
      pose proof (rowWritten_lookup _ _ _ _ Hrow2) as Hdb2.
      destruct (catchBlock_summary env job p err w2 _ Hdb2) as (row3 & Hrow3 & Hout3).
      exists row3.
      split; [exact (rowWritten_trans _ _ _ _ _ _
                       (rowWritten_trans _ _ _ _ _ _ Hrow1 Hrow2) Hrow3) |].
      destruct (catchBlock env job p err w2) as [[[] | e3] w3]; cbn [fst snd] in *.
      * destruct Hout3 as [[(a & d & Ha) Hs] | [Hq Hs]].
        -- left. split; [exists a, d; rewrite Ha, Hq2, Hq1; reflexivity | congruence].
        -- right. split; [congruence | exact Hs].
      * destruct Hout3 as [Hq3 [Hs | Hs]].
        -- split; [congruence | left; exact Hs].
        -- split; [congruence | right; left; congruence].
  - destruct Hout1 as [-> _]. exists (set (counted sub) (syncStatusPatch COMPLETE)).
    split; [exact Hrow1 |]. right. split; [exact Hq1 | reflexivity].
  - exists row1. split; [exact Hrow1 |]. split; [exact Hq1 |].
    destruct Hout1 as [Hs | Hs]; auto.
Qed.

(** ** Properties of whole runs of the handler *)

(** X6: A run of [processInstallation] reads and writes the row of its own
    installation only: the row of every other installation is after the run
    what it was before, whatever the collaborators answer. *)
Theorem processInstallation_touches_one_row env job w k :
  k <> jobKey job ->
  db (processInstallation env job w).2 !! k = db w !! k.
Proof.
  intros Hk. destruct (db w !! jobKey job) as [sub |] eqn:Hdb.
  - destruct (processInstallation_summary env job w sub Hdb) as (row & Hrow & _).
    exact (rowWritten_other _ _ _ _ _ Hrow Hk).
  - unfold processInstallation, bind. rewrite (prepare_absent _ _ _ Hdb). reflexivity.
Qed.

(** X7: A run of [processInstallation] adds at most one job to the installation
    queue.  When it adds one, the run resolves, and the job carries the data
    of the job being handled and its [removeOnComplete] and [removeOnFail]
    options; a run that rejects leaves the queue as it was. *)
Theorem processInstallation_adds_at_most_one_job env job w :
  queue (processInstallation env job w).2 = queue w \/
  ((processInstallation env job w).1 = Return tt /\
   exists attempts delay,
     queue (processInstallation env job w).2 =
     queue w ++ [(data job,
                  {| add_attempts := attempts; add_delay := delay;
                     add_removeOnComplete := removeOnComplete (opts job);
                     add_removeOnFail := removeOnFail (opts job) |})]).
Proof.
  destruct (db w !! jobKey job) as [sub |] eqn:Hdb.
  - destruct (processInstallation_summary env job w sub Hdb) as (row & _ & Hout).
    destruct (processInstallation env job w) as [[[] | e] w']; cbn [fst snd] in *.
    + destruct Hout as [[Hq _] | [Hq _]]; [right | left; exact Hq].
      split; [reflexivity | exact Hq].
    + left. apply Hout.
  - left. unfold processInstallation, bind. rewrite (prepare_absent _ _ _ Hdb). reflexivity.
Qed.

(** X8: A run of [processInstallation] that resolves did one of three things:
    it found no row for the installation and changed neither table nor queue;
    or it enqueued exactly one continuation and left the row ACTIVE; or it
    enqueued nothing and left the row COMPLETE. *)
Theorem processInstallation_resolved_run env job w :
  (processInstallation env job w).1 = Return tt ->
  (db w !! jobKey job = None /\
   db (processInstallation env job w).2 = db w /\
   queue (processInstallation env job w).2 = queue w) \/
  (enqueuedOnce job w (processInstallation env job w).2 /\
   syncStatus <$> db (processInstallation env job w).2 !! jobKey job = Some ACTIVE) \/
  (queue (processInstallation env job w).2 = queue w /\
   syncStatus <$> db (processInstallation env job w).2 !! jobKey job = Some COMPLETE).
Proof.
  intros Hret. destruct (db w !! jobKey job) as [sub |] eqn:Hdb.
  - right. destruct (processInstallation_summary env job w sub Hdb) as (row & Hrow & Hout).
    rewrite (rowWritten_lookup _ _ _ _ Hrow). rewrite Hret in Hout. cbn.
    destruct Hout as [[Hq ->] | [Hq ->]]; auto.
  - left. split; [reflexivity |].
    unfold processInstallation, bind. rewrite (prepare_absent _ _ _ Hdb). auto.
Qed.

(** X9: The handler stores FAILED only on its way to a rejection: when the row
    was not FAILED before the run and is FAILED after it, the run has
    rejected and has enqueued nothing. *)
Theorem processInstallation_failed_only_when_rejected env job w sub :
  db w !! jobKey job = Some sub ->
  syncStatus sub <> FAILED ->
  syncStatus <$> db (processInstallation env job w).2 !! jobKey job = Some FAILED ->
  exists err,
    (processInstallation env job w).1 = Throw err /\
    queue (processInstallation env job w).2 = queue w.
Proof.
  intros Hdb Hnot Hfailed.
  destruct (processInstallation_summary env job w sub Hdb) as (row & Hrow & Hout).
  rewrite (rowWritten_lookup _ _ _ _ Hrow) in Hfailed. cbn in Hfailed.
  injection Hfailed as Hfailed.
  destruct (processInstallation env job w) as [[[] | e] w']; cbn [fst snd] in *.
  - destruct Hout as [[_ Hs] | [_ Hs]]; congruence.
  - exists e. split; [reflexivity | apply Hout].
Qed.

Lemma prepare_nothing_left env job w sub sorted :
  db w !! jobKey job = Some sub ->
  getJiraClient env = None ->
  app_auth env = None ->
  sortedRepos (repos (repoSyncState sub)) = Return sorted ->
  firstTask sorted = None ->
  prepare env job w =
  (Return None,
   {| db := <[ jobKey job := set (counted sub) (syncStatusPatch COMPLETE) ]> (db w);
      queue := queue w;
      trace := trace w ++ [Log (StartingJob (installationId (data job)))] |}).
Proof.
  intros Hdb Hjira Hauth Hsorted Hnone.
  unfold prepare, bind at 1, app_log at 1, emit at 1.
  unfold bind at 1, getSingleInstallation at 1. cbn [db queue trace].
  rewrite Hdb, Hjira, Hauth. unfold bind at 1. cbn [reject_with ret].
  unfold bind at 1. cbn [ret]. unfold bind at 1. rewrite getNextTask_run.
  fold (counted sub). rewrite Hsorted. cbn [fst snd]. rewrite Hnone.
  unfold update, bind, save, ret. cbn [db queue trace fst snd].
  rewrite Hdb. cbn [db]. rewrite lookup_insert_eq, insert_insert_eq. reflexivity.
Qed.

(** X10: A job for an installation with nothing left to sync (every repository
    has its three tasks complete, or there is no repository) only logs its
    start, stores the number of synced repositories and COMPLETE, and
    returns: nothing is fetched, nothing is enqueued, and neither the
    completion message, nor the timing metric, nor the migration call of
    [updateJobStatus] is made. *)
Theorem processInstallation_nothing_left env job w sub sorted :
  db w !! jobKey job = Some sub ->
  getJiraClient env = None ->
  app_auth env = None ->
  sortedRepos (repos (repoSyncState sub)) = Return sorted ->
  firstTask sorted = None ->
  processInstallation env job w =
  (Return tt,
   {| db := <[ jobKey job := set (counted sub) (syncStatusPatch COMPLETE) ]> (db w);
      queue := queue w;
      trace := trace w ++ [Log (StartingJob (installationId (data job)))] |}).
Proof.
  intros Hdb Hjira Hauth Hsorted Hnone. unfold processInstallation, bind.
  rewrite (prepare_nothing_left _ _ _ _ _ Hdb Hjira Hauth Hsorted Hnone). reflexivity.
Qed.

Lemma updateJobStatus_repos env job edges task rid w sub :
  db w !! jobKey job = Some sub ->
  exists row,
    db (updateJobStatus env job edges task rid w).2 !! jobKey job = Some row /\
    repos (repoSyncState row) =
    match last edges with
    | Some lastEdge =>
        repos (repoSyncState
                 (set (set sub (reposPatch rid (statusEntry task pending)))
                      (reposPatch rid (cursorEntry task (cursor lastEdge)))))
    | None => repos (repoSyncState (completed sub rid task))
    end.
Proof.
  intros Hdb. destruct (last edges) as [lastEdge |] eqn:Hlast.
  - rewrite (updateJobStatus_more _ _ _ _ _ _ _ _ Hdb Hlast). cbn [snd db].
    eexists. split; [apply lookup_insert_eq | reflexivity].
  - apply last_None in Hlast. subst edges.
    eexists. split; [apply (updateJobStatus_done_row _ _ _ _ _ _ Hdb) |].
    apply repos_rowAfterCompletion.
Qed.

Lemma mergeRepoData_statusEntry_frame repoData task status :
  let merged := mergeRepoData repoData (statusEntry task status) in
  repository merged = repository repoData /\
  (forall t, cursorOf t merged = cursorOf t repoData) /\
  (forall t, t <> task -> statusOf t merged = statusOf t repoData).
Proof.
  destruct task; cbn; repeat split; intros [] ?; cbn; congruence.
Qed.

Lemma mergeRepoData_cursorEntry_frame repoData task c :
  let merged := mergeRepoData repoData (cursorEntry task c) in
  repository merged = repository repoData /\
  (forall t, statusOf t merged = statusOf t repoData) /\
  (forall t, t <> task -> cursorOf t merged = cursorOf t repoData).
Proof.
  destruct task; cbn; repeat split; intros [] ?; cbn; congruence.
Qed.

(** X15: [updateJobStatus] changes the status and cursor of its own task only:
    the entries of the other repositories are as before; the entry of its
    repository keeps its summary and the status and cursor of the other two
    tasks; and when the page was empty the cursor of the task itself is kept
    as well. *)
Theorem updateJobStatus_keeps_other_progress env job edges task rid w sub :
  db w !! jobKey job = Some sub ->
  exists row,
    db (updateJobStatus env job edges task rid w).2 !! jobKey job = Some row /\
    (forall other, other <> rid ->
       repos (repoSyncState row) !! other = repos (repoSyncState sub) !! other) /\
    (forall repoData, repos (repoSyncState sub) !! rid = Some repoData ->
       exists repoData',
         repos (repoSyncState row) !! rid = Some repoData' /\
         repository repoData' = repository repoData /\
         (forall t, t <> task ->
            statusOf t repoData' = statusOf t repoData /\
            cursorOf t repoData' = cursorOf t repoData) /\
         (edges = [] -> cursorOf task repoData' = cursorOf task repoData)).
Proof.
  intros Hdb.
  destruct (updateJobStatus_repos env job edges task rid w sub Hdb) as (row & Hrow & Hrepos).
  exists row. split; [exact Hrow |]. rewrite Hrepos. clear Hrow Hrepos.
  destruct (last edges) as [lastEdge |] eqn:Hlast.
  - split.
    + intros other Hother. rewrite !repos_set_entry, !lookup_merge_entry.
      rewrite !decide_False by congruence. reflexivity.
    + intros repoData Hrd. rewrite !repos_set_entry, !lookup_merge_entry.
      rewrite !decide_True by reflexivity. rewrite Hrd. cbn [default]. unfold id.
      eexists. split; [reflexivity |].
      destruct (mergeRepoData_statusEntry_frame repoData task pending) as (Hr1 & Hc1 & Hs1).
      destruct (mergeRepoData_cursorEntry_frame
                  (mergeRepoData repoData (statusEntry task pending)) task (cursor lastEdge))
        as (Hr2 & Hs2 & Hc2).
      cbn zeta in *. split; [congruence |]. split.
      * intros t Ht. rewrite Hs2, (Hs1 t Ht), (Hc2 t Ht), Hc1. auto.
      * intros ->. discriminate.
  - unfold completed. split.
    + intros other Hother. rewrite repos_set_entry, lookup_merge_entry.
      rewrite decide_False by congruence. reflexivity.
    + intros repoData Hrd. rewrite repos_set_entry, lookup_merge_entry.
      rewrite decide_True by reflexivity. rewrite Hrd. cbn [default]. unfold id.
      eexists. split; [reflexivity |].
      destruct (mergeRepoData_statusEntry_frame repoData task complete) as (Hr1 & Hc1 & Hs1).
      cbn zeta in *. split; [exact Hr1 |]. split.
      * intros t Ht. rewrite (Hs1 t Ht), Hc1. auto.
      * intros _. apply Hc1.
Qed.

Lemma processInstallation_tried env job w p w1 :
  prepare env job w = (Return (Some p), w1) ->
  processInstallation env job w =
  try_catch (tryBlock env job p) (catchBlock env job p) w1.
Proof. intros Hp. unfold processInstallation, bind. rewrite Hp. reflexivity. Qed.

Lemma tryBlock_submission_fails env job p w1 page w1' payload err :
  runExecute env job p w1 = (Return page, w1') ->
  jiraPayload page = Some payload ->
  jira_repository_update env payload = Some err ->
  tryBlock env job p w1 =
  (Throw err,
   {| db := db w1; queue := queue w1;
      trace := trace w1' ++ [JiraRepositoryUpdate payload] |}).
Proof.
  intros He Hpayload Hfail. unfold tryBlock, bind at 1. rewrite He.
  unfold bind at 1. rewrite Hpayload. unfold bind at 1, emit at 1. rewrite Hfail.
  cbn [reject_with throw]. rewrite runExecute_run in He. cbn zeta in He.
  injection He as _ <-. reflexivity.
Qed.

(** X13: When the submission of a page to Jira rejects with an error that is not
    a 404, the progress is not advanced: the repositories stored after the
    run are those stored before the page was fetched.  The run resolves (a
    retry was enqueued) or rejects with that very error, and the row is
    ACTIVE or FAILED. *)
Theorem processInstallation_submission_fails env job w p w1 page w1' payload err :
  prepare env job w = (Return (Some p), w1) ->
  runExecute env job p w1 = (Return page, w1') ->
  jiraPayload page = Some payload ->
  jira_repository_update env payload = Some err ->
  isNotFoundError err = false ->
  ((processInstallation env job w).1 = Return tt \/
   (processInstallation env job w).1 = Throw err) /\
  exists row,
    db (processInstallation env job w).2 !! jobKey job = Some row /\
    repos (repoSyncState row) = repos (repoSyncState (pr_subscription p)) /\
    (syncStatus row = ACTIVE \/ syncStatus row = FAILED).
Proof.
  intros Hp He Hpayload Hfail Hnf.
  rewrite (processInstallation_tried _ _ _ _ _ Hp). unfold try_catch.
  rewrite (tryBlock_submission_fails _ _ _ _ _ _ _ _ He Hpayload Hfail).
  destruct (prepare_ready _ _ _ _ _ Hp) as (Hrow & Hactive & _).
  unfold catchBlock. rewrite Hnf.
  destruct (truthy (delayOf env err));
    [| destruct (isTimeout err); [| destruct (isAbuse err)]].
  1-3: (cbn; split; [left; reflexivity |]; exists (pr_subscription p); auto).
  unfold update, bind, save, ret, throw. cbn [db queue trace fst snd]. rewrite Hrow.
  cbn [fst snd db]. split; [right; reflexivity |].
  eexists. split; [apply lookup_insert_eq |]. split; [reflexivity | right; reflexivity].
Qed.

(** X12: A page with at least one edge that is fetched and submitted without
    error moves the sync one step: the run resolves, the row is ACTIVE, the
    task is pending with the cursor of the last edge of the page, and one
    continuation is enqueued with 3 attempts and the delay of
    [LIMITER_PER_INSTALLATION], 1000 when that is unset or 0. *)
Theorem processInstallation_page_processed env job w p w1 page w1' lastEdge :
  prepare env job w = (Return (Some p), w1) ->
  runExecute env job p w1 = (Return page, w1') ->
  match jiraPayload page with
  | Some payload => jira_repository_update env payload = None
  | None => True
  end ->
  last (edges page) = Some lastEdge ->
  (processInstallation env job w).1 = Return tt /\
  queue (processInstallation env job w).2 =
    queue w ++
    [(data job,
      inheritedOpts job (Some 3%nat)
        (Some (Num (or_default (LIMITER_PER_INSTALLATION env) 1000))))] /\
  exists row,
    db (processInstallation env job w).2 !! jobKey job = Some row /\
    syncStatus row = ACTIVE /\
    storedStatus row (pr_repositoryId p) (pr_task p) = Some pending /\
    storedCursor row (pr_repositoryId p) (pr_task p) = Some (cursor lastEdge).
Proof.
  intros Hp He Hsubmit Hlast.
  rewrite (processInstallation_tried _ _ _ _ _ Hp). unfold try_catch.
  destruct (prepare_ready _ _ _ _ _ Hp) as (Hrow & Hactive & Hq).
  assert (Htry : exists es,
    tryBlock env job p w1 =
    updateJobStatus env job (edges page) (pr_task p) (pr_repositoryId p)
      {| db := db w1; queue := queue w1; trace := trace w1 ++ es |}).
  { unfold tryBlock, bind at 1. rewrite He. unfold bind at 1.
    rewrite runExecute_run in He. cbn zeta in He. injection He as _ <-.
    destruct (jiraPayload page) as [payload |].
    - unfold bind at 1, emit at 1. rewrite Hsubmit. cbn [reject_with ret].
      unfold logged. cbn [db queue trace]. rewrite <- app_assoc. eexists. reflexivity.
    - cbn [ret]. eexists. reflexivity. }
  destruct Htry as [es ->].
  erewrite updateJobStatus_more; [| cbn [db]; exact Hrow | exact Hlast].
  cbn [fst snd db queue]. split; [reflexivity |]. rewrite Hq. split; [reflexivity |].
  eexists. split; [apply lookup_insert_eq |]. split; [exact Hactive |]. split.
  - rewrite storedStatus_set_cursor by apply is_Some_set_entry.
    apply storedStatus_set_status.
  - apply storedCursor_set_cursor.
Qed.

(** X2: [sortedRepos] throws exactly when the record has at least two
    repositories and one of them has no summary, and the error is then the
    TypeError of reading [updated_at] of [undefined]; a record with a single
    repository is returned as it is, with or without summary. *)
Theorem sortedRepos_throws_iff (repos : gmap N RepoData) :
  (forall err, sortedRepos repos = Throw err -> err = TypeError_undefined "updated_at") /\
  ((exists err, sortedRepos repos = Throw err) <->
   (2 <= size repos)%nat /\
   exists k repoData, repos !! k = Some repoData /\ repository repoData = None) /\
  ((size repos < 2)%nat -> sortedRepos repos = Return (Object_entries repos)).
Proof.
  split; [intros err; apply Array_sort_throws |].
  split.
  - pose proof (sortedRepos_returns repos) as Hret. split.
    + intros [err Herr].
      assert (Hnot : ~ ((size repos < 2)%nat \/
                        map_Forall (fun _ repoData => is_Some (repository repoData)) repos)).
      { intros H. apply Hret in H as [sorted Hsorted]. congruence. }
      split; [lia |].
      assert (Hmissing : ~ map_Forall (fun _ repoData => is_Some (repository repoData)) repos)
        by tauto.
      apply map_not_Forall in Hmissing as (k & repoData & Hk & Hnone); [| apply _].
      exists k, repoData. split; [exact Hk |].
      destruct (repository repoData); [exfalso; apply Hnone; eauto | reflexivity].
    + intros (Hsize & k & repoData & Hk & Hnone).
      destruct (sortedRepos repos) as [sorted | err] eqn:Hrun; [| eauto].
      exfalso. destruct (proj1 Hret (ex_intro _ sorted eq_refl)) as [Hshort | Hall];
        [lia |].
      destruct (Hall k repoData Hk) as [r Hr]. congruence.
  - intros Hshort. unfold sortedRepos. apply Array_sort_short.
    now rewrite length_Object_entries.
Qed.

Lemma only_entry_without_summary (repos : gmap N RepoData) sorted next :
  sortedRepos repos = Return sorted ->
  firstTask sorted = Some next ->
  nt_repository next = None ->
  size repos = 1%nat.
Proof.
  intros Hsorted Hnext Hnone.
  destruct (firstTask_Some _ _ Hnext) as (before & repoData & after & Hsplit & _ & _ & Hrepo & _).
  assert (Hin : repos !! nt_repositoryId next = Some repoData).
  { apply (sortedRepos_elem _ _ _ _ Hsorted). rewrite Hsplit. set_solver. }
  assert (Hsome : (exists s, sortedRepos repos = Return s)) by eauto.
  apply sortedRepos_returns in Hsome as [Hshort | Hall].
  - assert (size repos <> 0%nat).
    { intros Hzero. apply map_size_empty_iff in Hzero. subst repos.
      rewrite lookup_empty in Hin. discriminate. }
    lia.
  - destruct (Hall _ _ Hin) as [r Hr]. congruence.
Qed.

(** X11: A selected entry without repository summary is the only entry of the
    record (with two entries the sort has already thrown).  The handler then
    asks GitHub for the repository.  If that request rejects, the run rejects
    with its error outside the [try] block: the row stays ACTIVE, nothing is
    enqueued and FAILED is not stored.  If it succeeds, the summary is stored
    under the id GitHub returned and the task proceeds with it. *)
Theorem processInstallation_old_record env job w sub sorted next :
  db w !! jobKey job = Some sub ->
  getJiraClient env = None ->
  app_auth env = None ->
  sortedRepos (repos (repoSyncState sub)) = Return sorted ->
  firstTask sorted = Some next ->
  nt_repository next = None ->
  size (repos (repoSyncState sub)) = 1%nat /\
  match github_repository env (nt_repositoryId next) with
  | inr err =>
      processInstallation env job w =
      (Throw err,
       {| db := <[ jobKey job := set (counted sub) (syncStatusPatch ACTIVE) ]> (db w);
          queue := queue w;
          trace := trace w ++ [Log (StartingJob (installationId (data job)));
                               GetRepository (nt_repositoryId next)] |})
  | inl fetched =>
      let row := set (set (counted sub) (syncStatusPatch ACTIVE))
                     (reposPatch (repo_id fetched) (repositoryEntry fetched)) in
      prepare env job w =
      (Return (Some {| pr_subscription := row; pr_task := nt_task next;
                       pr_repositoryId := nt_repositoryId next;
                       pr_repository := fetched; pr_cursor := nt_cursor next |}),
       {| db := <[ jobKey job := row ]> (db w);
          queue := queue w;
          trace := trace w ++ [Log (StartingJob (installationId (data job)));
                               GetRepository (nt_repositoryId next);
                               Log (StartingTask (installationId (data job))
                                      (nt_repositoryId next) (nt_task next))] |}) /\
      exists repoData,
        repos (repoSyncState row) !! repo_id fetched = Some repoData /\
        repository repoData = Some fetched
  end.
Proof.
  intros Hdb Hjira Hauth Hsorted Hnext Hnone.
  split; [exact (only_entry_without_summary _ _ _ Hsorted Hnext Hnone) |].
  assert (Hprep : prepare env job w =
    (bind (emit (GetRepository (nt_repositoryId next)))
       (fun _ =>
          match github_repository env (nt_repositoryId next) with
          | inl fetched =>
              bind (update (jobKey job) (set (counted sub) (syncStatusPatch ACTIVE))
                      (reposPatch (repo_id fetched) (repositoryEntry fetched)))
                (fun subscription =>
                   bind (app_log (StartingTask (installationId (data job))
                                    (nt_repositoryId next) (nt_task next)))
                     (fun _ => ret (Some {| pr_subscription := subscription;
                                            pr_task := nt_task next;
                                            pr_repositoryId := nt_repositoryId next;
                                            pr_repository := fetched;
                                            pr_cursor := nt_cursor next |})))
          | inr err => throw err
          end))
      {| db := <[ jobKey job := set (counted sub) (syncStatusPatch ACTIVE) ]> (db w);
         queue := queue w;
         trace := trace w ++ [Log (StartingJob (installationId (data job)))] |}).
  { unfold prepare, bind at 1, app_log at 1, emit at 1.
    unfold bind at 1, getSingleInstallation at 1. cbn [db queue trace].
    rewrite Hdb, Hjira, Hauth. unfold bind at 1. cbn [reject_with ret].
    unfold bind at 1. cbn [ret]. unfold bind at 1. rewrite getNextTask_run.
    fold (counted sub). rewrite Hsorted. cbn [fst snd]. rewrite Hnext.
    unfold bind at 1, update at 1, bind at 1, save at 1 2, ret at 1.
    cbn [db queue trace fst snd]. rewrite Hdb. cbn [db].
    rewrite lookup_insert_eq, insert_insert_eq. rewrite Hnone.
    unfold bind at 1 3, emit at 1 2. cbn [db queue trace fst snd].
    destruct (github_repository env (nt_repositoryId next)); [| reflexivity].
    unfold bind, update, save, ret, app_log, emit. cbn [db queue trace fst snd].
    reflexivity. }
  destruct (github_repository env (nt_repositoryId next)) as [fetched | err] eqn:Hgit.
  - cbn zeta. split.
    + rewrite Hprep. unfold update, bind, save, ret, app_log, emit.
      cbn [db queue trace fst snd]. rewrite lookup_insert_eq, insert_insert_eq.
      rewrite <- !app_assoc. reflexivity.
    + rewrite repos_set_entry, lookup_merge_entry, decide_True by reflexivity.
      eexists. split; [reflexivity |]. reflexivity.
  - unfold processInstallation, bind at 1. rewrite Hprep.
    unfold bind, emit, throw. cbn [db queue trace fst snd].
    rewrite <- app_assoc. reflexivity.
Qed.

Lemma length_filter_all {A : Type} (f : A -> bool) (l : list A) :
  length (List.filter f l) = length l <-> Forall (fun x => f x = true) l.
Proof.
  induction l as [| a l IH]; cbn; [split; [constructor | reflexivity] |].
  pose proof (List.filter_length_le f l) as Hle.
  destruct (f a) eqn:E; cbn.
  - rewrite Forall_cons. split.
    + intros [= H]. split; [exact E | apply IH, H].
    + intros [_ H]. f_equal. apply IH, H.
  - split; [lia |]. intros H. apply Forall_cons in H as [H _]. congruence.
Qed.

Lemma syncedCount_le (repos : gmap N RepoData) : (syncedCount repos <= size repos)%nat.
Proof.
  unfold syncedCount, syncedRepos. etransitivity; [apply List.filter_length_le |].
  rewrite <- Object_entries_keys, length_fmap, length_Object_entries. reflexivity.
Qed.

Lemma syncedCount_all (repos : gmap N RepoData) :
  syncedCount repos = size repos <->
  forall k repoData, repos !! k = Some repoData -> isSynced repoData = true.
Proof.
  unfold syncedCount, syncedRepos.
  rewrite <- (length_Object_entries repos), <- (length_fmap fst), Object_entries_keys.
  rewrite length_filter_all, Forall_forall. split.
  - intros H k repoData Hk. specialize (H k).
    rewrite Hk in H. apply H. apply elem_of_Object_keys. eauto.
  - intros H k Hin. apply elem_of_Object_keys in Hin as [repoData Hk].
    rewrite Hk. exact (H k repoData Hk).
Qed.

(** X3: [getNextTask] stores the number of repositories whose three tasks are
    complete and leaves the repositories as they are.  That number is at
    most the number of repositories, and no task is selected exactly when the
    two are equal.  When the row exists, the table holds the row returned. *)
Theorem getNextTask_counts key sub w found sub' w' :
  getNextTask key sub w = (Return (found, sub'), w') ->
  numberOfSyncedRepos (repoSyncState sub') =
    Some (syncedCount (repos (repoSyncState sub))) /\
  repos (repoSyncState sub') = repos (repoSyncState sub) /\
  (syncedCount (repos (repoSyncState sub)) <= size (repos (repoSyncState sub)))%nat /\
  (found = None <->
   syncedCount (repos (repoSyncState sub)) = size (repos (repoSyncState sub))) /\
  (is_Some (db w !! key) -> db w' !! key = Some sub').
Proof.
  rewrite getNextTask_run. cbn zeta.
  destruct (sortedRepos _) as [sorted | e] eqn:Hsorted; [| discriminate].
  intros [= <- <- <-]. fold (counted sub).
  split; [reflexivity |]. split; [apply repos_counted |].
  split; [apply syncedCount_le |]. split.
  - rewrite syncedCount_all, firstTask_None, Forall_forall. split.
    + intros H k repoData Hk. apply (H (k, repoData)).
      rewrite (Array_sort_Permutation _ _ _ Hsorted). apply elem_of_Object_entries, Hk.
    + intros H [k repoData] Hin. apply (H k). apply elem_of_Object_entries.
      rewrite <- (Array_sort_Permutation _ _ _ Hsorted). exact Hin.
  - intros [row Hrow]. unfold save. cbn [snd db]. rewrite Hrow. apply lookup_insert_eq.
Qed.

(** ** The page-size fallback, for every processor *)

Lemma handleGitHubError_throws err e : handleGitHubError err = Throw e -> e = err.
Proof.
  unfold handleGitHubError. destruct (err_errors err) as [errors |]; [| congruence].
  destruct (0 <? _)%nat; congruence.
Qed.

(** X4: [handleGitHubError] returns, so that the next page size is tried, exactly
    when the error has an [errors] array whose entries all have the type
    MAX_NODE_LIMIT_EXCEEDED, an empty array included; in every other case it
    throws the error it was given. *)
Theorem handleGitHubError_returns_iff (err : JSError) :
  (handleGitHubError err = Return tt <->
   exists errors, err_errors err = Some errors /\
     Forall (fun error => gql_type error = "MAX_NODE_LIMIT_EXCEEDED") errors) /\
  (handleGitHubError err <> Return tt -> handleGitHubError err = Throw err).
Proof.
  assert (Hin : forall error : GraphQLError,
            In (gql_type error) ignoredErrorTypes <->
            gql_type error = "MAX_NODE_LIMIT_EXCEEDED").
  { intros error. unfold ignoredErrorTypes. cbn. intuition congruence. }
  split; [split |].
  - intros Hret. destruct (err_errors err) as [errors |] eqn:He.
    + exists errors. split; [reflexivity |].
      destruct (decide (Forall (fun error => gql_type error = "MAX_NODE_LIMIT_EXCEEDED")
                          errors)) as [Hall | Hnot]; [exact Hall |].
      exfalso. apply not_Forall_Exists in Hnot; [| apply _].
      rewrite handleGitHubError_rethrows in Hret; [discriminate |].
      right. exists errors. split; [exact He |].
      apply Exists_exists in Hnot as (error & Herror & Hneq). apply Exists_exists.
      exists error. split; [exact Herror |]. rewrite Hin. exact Hneq.
    + rewrite handleGitHubError_rethrows in Hret by (now left). discriminate.
  - intros (errors & He & Hall). apply (handleGitHubError_ignored err errors He).
    eapply Forall_impl; [exact Hall |]. intros error. apply Hin.
  - intros Hnot. destruct (handleGitHubError err) as [[] | e] eqn:Hrun; [congruence |].
    now rewrite (handleGitHubError_throws _ _ Hrun).
Qed.

Lemma execute_from_calls (pagedProcessor : nat -> Page + JSError) (exhausted : JSError)
    (sizes : list nat) :
  (execute_from pagedProcessor exhausted sizes).2 `prefix_of` sizes /\
  (sizes <> [] -> (execute_from pagedProcessor exhausted sizes).2 <> []) /\
  (forall page, (execute_from pagedProcessor exhausted sizes).1 = Return page ->
     exists perPage,
       last (execute_from pagedProcessor exhausted sizes).2 = Some perPage /\
       pagedProcessor perPage = inl page) /\
  (forall e, (execute_from pagedProcessor exhausted sizes).1 = Throw e ->
     (e = exhausted /\ (execute_from pagedProcessor exhausted sizes).2 = sizes) \/
     exists perPage,
       last (execute_from pagedProcessor exhausted sizes).2 = Some perPage /\
       pagedProcessor perPage = inr e).
Proof.
  induction sizes as [| perPage rest (Hprefix & Hsome & Hpage & Herr)].
  - cbn. split; [reflexivity |]. split; [congruence |]. split; [discriminate |].
    intros e [= <-]. now left.
  - cbn [execute_from]. destruct (pagedProcessor perPage) as [page | err] eqn:Hp.
    + cbn. split; [now apply prefix_cons, prefix_nil |]. split; [discriminate |].
      split; [| discriminate]. intros page' [= <-]. now exists perPage.
    + destruct (handleGitHubError err) as [[] | e'] eqn:Hh.
      * destruct (execute_from pagedProcessor exhausted rest) as [out called].
        cbn [fst snd] in *. split; [now apply prefix_cons |].
        split; [discriminate |]. split.
        -- intros page Hout. destruct (Hpage page Hout) as (pp & Hlast & Hpp).
           exists pp. split; [| exact Hpp].
           rewrite last_cons, Hlast. reflexivity.
        -- intros e Hout. destruct (Herr e Hout) as [[-> ->] | (pp & Hlast & Hpp)].
           ++ now left.
           ++ right. exists pp. split; [| exact Hpp].
              rewrite last_cons, Hlast. reflexivity.
      * apply handleGitHubError_throws in Hh as ->. cbn.
        split; [now apply prefix_cons, prefix_nil |]. split; [discriminate |].
        split; [discriminate |]. intros e [= <-]. right. now exists perPage.
Qed.

(** X5: Whatever the processor answers, [execute] calls it at least once and at
    most four times, at the page sizes 20, 10, 5, 1 in that order without
    skipping one.  A page it returns is the answer to its last call; an error
    it throws is the error of its last call, or, after all four calls, the
    exhausted-fallback error. *)
Theorem execute_calls (pagedProcessor : nat -> Page + JSError) (exhausted : JSError) :
  (execute pagedProcessor exhausted).2 `prefix_of` [20; 10; 5; 1]%nat /\
  (execute pagedProcessor exhausted).2 <> [] /\
  (forall page, (execute pagedProcessor exhausted).1 = Return page ->
     exists perPage,
       last (execute pagedProcessor exhausted).2 = Some perPage /\
       pagedProcessor perPage = inl page) /\
  (forall e, (execute pagedProcessor exhausted).1 = Throw e ->
     (e = exhausted /\ (execute pagedProcessor exhausted).2 = [20; 10; 5; 1]%nat) \/
     exists perPage,
       last (execute pagedProcessor exhausted).2 = Some perPage /\
       pagedProcessor perPage = inr e).
Proof.
  destruct (execute_from_calls pagedProcessor exhausted pageSizes)
    as (Hprefix & Hsome & Hpage & Herr).
  split; [exact Hprefix |]. split; [apply Hsome; discriminate |].
  split; [exact Hpage | exact Herr].
Qed.

(** X14: An error of the [try] block without a rate-limit delay whose text has
    [connect ETIMEDOUT], or else whose message reports the abuse detection
    mechanism, makes the handler resolve: it logs, enqueues the data of the
    job once more with a delay of 5000 ms, respectively 60000 ms, and no
    [attempts], and writes nothing to the table.  The timeout is tested
    first. *)
Theorem processInstallation_timeout_or_abuse env job w p w1 err w2 :
  prepare env job w = (Return (Some p), w1) ->
  tryBlock env job p w1 = (Throw err, w2) ->
  truthy (delayOf env err) = false ->
  isTimeout err || isAbuse err = true ->
  processInstallation env job w
  = (Return tt,
     {| db := db w2;
        queue := queue w2 ++
                 [(data job,
                   inheritedOpts job None
                     (Some (Num (if isTimeout err then 5000 else 60000))))];
        trace := trace w2 ++
                 [Log (if isTimeout err
                       then TimedOut (installationId (data job)) (pr_repositoryId p)
                              (pr_task p)
                       else AbuseDetection (installationId (data job))
                              (pr_repositoryId p) (pr_task p))] |}).
Proof.
  intros Hp Htry Hdelay Hclass.
  rewrite (processInstallation_tried _ _ _ _ _ Hp). unfold try_catch. rewrite Htry.
  unfold catchBlock. rewrite Hdelay.
  destruct (isTimeout err); [reflexivity |].
  cbn in Hclass. rewrite Hclass. reflexivity.
Qed.

Section JiraClientFacts.

Import JiraClient.

Local Open Scope nat_scope.

Lemma new_Set_snoc (seen array : list string) (x : string) :
  new_Set seen (array ++ [x]) = Set_add (new_Set seen array) x.
Proof. unfold new_Set. now rewrite fold_left_app. Qed.

Lemma new_Set_cons (seen array : list string) (x : string) :
  new_Set seen (x :: array) = new_Set (Set_add seen x) array.
Proof. reflexivity. Qed.

Lemma Set_add_new (seen : list string) (x : string) :
  x ∉ seen -> Set_add seen x = seen ++ [x].
Proof. intros Hx. unfold Set_add. now rewrite bool_decide_eq_false_2. Qed.

Lemma Set_add_elem (seen : list string) (x y : string) :
  y ∈ Set_add seen x <-> y ∈ seen \/ y = x.
Proof.
  unfold Set_add. case_bool_decide as Hx.
  - split; [tauto | intros [H | ->]; assumption].
  - rewrite elem_of_app, list_elem_of_singleton. tauto.
Qed.

Lemma Set_add_NoDup (seen : list string) (x : string) :
  NoDup seen -> NoDup (Set_add seen x).
Proof.
  intros Hnd. unfold Set_add. case_bool_decide as Hx; [assumption |].
  apply NoDup_app. split; [assumption |]. split.
  - intros y Hy Hy'. apply list_elem_of_singleton in Hy'. now subst.
  - apply NoDup_singleton.
Qed.

Lemma new_Set_elem (array seen : list string) (y : string) :
  y ∈ new_Set seen array <-> y ∈ seen \/ y ∈ array.
Proof.
  revert seen. induction array as [| x array IH]; intros seen; cbn.
  - rewrite elem_of_nil. tauto.
  - unfold new_Set in IH. rewrite IH, Set_add_elem, elem_of_cons. tauto.
Qed.

Lemma new_Set_NoDup (array seen : list string) :
  NoDup seen -> NoDup (new_Set seen array).
Proof.
  revert seen. induction array as [| x array IH]; intros seen Hnd; cbn.
  - assumption.
  - apply IH, Set_add_NoDup, Hnd.
Qed.

Lemma new_Set_prefix (array seen : list string) : seen `prefix_of` new_Set seen array.
Proof.
  revert seen. induction array as [| x array IH]; intros seen; cbn.
  - reflexivity.
  - etransitivity; [| apply IH]. unfold Set_add.
    case_bool_decide; [reflexivity | now apply prefix_app_r].
Qed.

Lemma new_Set_app (seen pre post : list string) :
  new_Set seen (pre ++ post) = new_Set (new_Set seen pre) post.
Proof. unfold new_Set. apply fold_left_app. Qed.

Lemma dedup_elem (array : list string) (x : string) : x ∈ dedup array <-> x ∈ array.
Proof. unfold dedup. rewrite new_Set_elem, elem_of_nil. tauto. Qed.

Lemma dedup_NoDup (array : list string) : NoDup (dedup array).
Proof. apply new_Set_NoDup, NoDup_nil_2. Qed.

Lemma new_Set_id (array seen : list string) :
  NoDup (seen ++ array) -> new_Set seen array = seen ++ array.
Proof.
  revert seen. induction array as [| x array IH]; intros seen Hnd.
  - cbn. now rewrite app_nil_r.
  - assert (Hx : x ∉ seen).
    { apply NoDup_app in Hnd as (_ & Hd & _). intros Hin.
      apply (Hd x Hin). left. }
    rewrite new_Set_cons, Set_add_new by assumption.
    rewrite (IH (seen ++ [x])); rewrite <- app_assoc; [reflexivity | exact Hnd].
Qed.

Lemma dedup_id (array : list string) : NoDup array -> dedup array = array.
Proof. intros Hnd. unfold dedup. now rewrite new_Set_id. Qed.

Lemma dedup_length (array : list string) : length (dedup array) <= length array.
Proof.
  induction array as [| x array IH] using rev_ind; [cbn; lia |].
  unfold dedup in *. rewrite new_Set_snoc. unfold Set_add.
  case_bool_decide; rewrite ?length_app; cbn; lia.
Qed.

(** X16: [dedup] keeps one copy of every element, in the order of the first
    occurrences: the result has no repetition and the elements of the
    argument, and what it yields for a prefix of the argument, followed by the
    next element when that one is new, is a prefix of what it yields for the
    whole. *)
Theorem dedup_keeps_first_occurrences (array : list string) :
  NoDup (dedup array) /\
  (forall x, x ∈ dedup array <-> x ∈ array) /\
  (forall pre x post, array = pre ++ x :: post -> x ∉ pre ->
     dedup pre ++ [x] `prefix_of` dedup array).
Proof.
  split; [apply dedup_NoDup |]. split; [apply dedup_elem |].
  intros pre x post -> Hx. unfold dedup.
  change (pre ++ x :: post) with (pre ++ [x] ++ post).
  rewrite app_assoc, new_Set_app, new_Set_snoc, Set_add_new.
  - apply new_Set_prefix.
  - fold (dedup pre). now rewrite dedup_elem.
Qed.



Lemma indexOf_bound (array : list string) (x : string) (p : nat) :
  indexOf array x = Some p -> p < length array.
Proof.
  revert p. induction array as [| y array IH]; intros p; cbn; [discriminate |].
  destruct (String.eqb y x).
  - intros [= <-]. lia.
  - destruct (indexOf array x) as [q |]; cbn; [| discriminate].
    intros [= <-]. specialize (IH q eq_refl). lia.
Qed.

Lemma indexOf_app_old (l1 l2 : list string) (x : string) :
  x ∈ l1 -> indexOf (l1 ++ l2) x = indexOf l1 x.
Proof.
  induction l1 as [| y l1 IH]; intros Hin; [now apply elem_of_nil in Hin |].
  cbn. destruct (String.eqb y x) eqn:Hyx; [reflexivity |].
  apply elem_of_cons in Hin as [-> | Hin].
  - now rewrite String.eqb_refl in Hyx.
  - now rewrite IH.
Qed.

Lemma indexOf_elem (array : list string) (x : string) :
  x ∈ array -> is_Some (indexOf array x).
Proof.
  induction array as [| y array IH]; intros Hin; [now apply elem_of_nil in Hin |].
  cbn. destruct (String.eqb y x) eqn:Hyx; [eexists; reflexivity |].
  apply elem_of_cons in Hin as [-> | Hin].
  - now rewrite String.eqb_refl in Hyx.
  - destruct (IH Hin) as [p ->]. eexists; reflexivity.
Qed.

Lemma indexOf_app_new (l1 l2 : list string) (x : string) :
  x ∉ l1 -> indexOf (l1 ++ x :: l2) x = Some (length l1).
Proof.
  induction l1 as [| y l1 IH]; intros Hin; cbn.
  - now rewrite String.eqb_refl.
  - destruct (String.eqb y x) eqn:Hyx.
    + apply String.eqb_eq in Hyx as ->. exfalso. apply Hin. left.
    + rewrite IH; [reflexivity |]. intros H. apply Hin. now right.
Qed.

(** The test of [dedupCommits] at position [length pre] of [pre ++ obj :: rest]:
    the commit is kept when no commit before it has its id. *)
Lemma dedupCommits_keep (pre rest : list Commit) (obj : Commit) :
  bool_decide (indexOf (map commit_id (pre ++ obj :: rest)) (commit_id obj)
               = Some (length pre))
  = negb (bool_decide (commit_id obj ∈ map commit_id pre)).
Proof.
  rewrite map_app. cbn [map].
  destruct (decide (commit_id obj ∈ map commit_id pre)) as [Hin | Hnew].
  - rewrite (bool_decide_eq_true_2 _ Hin). cbn. apply bool_decide_eq_false_2.
    rewrite indexOf_app_old by assumption. intros Heq.
    apply indexOf_bound in Heq. rewrite length_map in Heq. lia.
  - rewrite (bool_decide_eq_false_2 _ Hnew). cbn. apply bool_decide_eq_true_2.
    rewrite indexOf_app_new by assumption. now rewrite length_map.
Qed.

(** The commits kept from position [length pre] on. *)
Lemma kept_step (whole pre rest : list Commit) (obj : Commit) :
  whole = pre ++ obj :: rest ->
  filter_from
    (fun obj pos =>
       bool_decide (indexOf (map commit_id whole) (commit_id obj) = Some pos))
    (length pre) (obj :: rest)
  = (if bool_decide (commit_id obj ∈ map commit_id pre) then [] else [obj]) ++
    filter_from
      (fun obj pos =>
         bool_decide (indexOf (map commit_id whole) (commit_id obj) = Some pos))
      (length (pre ++ [obj])) rest.
Proof.
  intros ->. cbn [filter_from]. rewrite dedupCommits_keep.
  rewrite length_app, Nat.add_1_r.
  now destruct (bool_decide (commit_id obj ∈ map commit_id pre)).
Qed.

Lemma kept_characterised (whole arr pre : list Commit) (c : Commit) :
  whole = pre ++ arr ->
  c ∈ filter_from
        (fun obj pos =>
           bool_decide (indexOf (map commit_id whole) (commit_id obj) = Some pos))
        (length pre) arr
  <-> exists i, arr !! i = Some c /\ (commit_id c ∉ map commit_id pre) /\
        forall j c', j < i -> arr !! j = Some c' -> commit_id c' <> commit_id c.
Proof.
  revert pre. induction arr as [| obj rest IH]; intros pre Hwhole.
  - cbn. rewrite elem_of_nil. split; [tauto |]. intros (i & Hi & _).
    now rewrite lookup_nil in Hi.
  - rewrite (kept_step whole pre rest obj Hwhole), elem_of_app.
    rewrite (IH (pre ++ [obj])) by (now rewrite <- app_assoc).
    assert (Hids : forall x, x ∈ map commit_id (pre ++ [obj])
                             <-> x ∈ map commit_id pre \/ x = commit_id obj).
    { intros x. rewrite map_app, elem_of_app. cbn.
      now rewrite list_elem_of_singleton. }
    split.
    + intros [Hhead | (i & Hi & Hnew & Hfirst)].
      * case_bool_decide as Hin; [now apply elem_of_nil in Hhead |].
        apply list_elem_of_singleton in Hhead as ->.
        exists 0. split; [reflexivity |]. split; [assumption |]. intros j c' Hj. lia.
      * exists (S i). split; [exact Hi |]. rewrite Hids in Hnew. split; [tauto |].
        intros [| j] c' Hj Hc'.
        -- cbn in Hc'. injection Hc' as <-. intros Heq. apply Hnew. now right.
        -- apply (Hfirst j c'); [lia | exact Hc'].
    + intros (i & Hi & Hnew & Hfirst). destruct i as [| i].
      * cbn in Hi. injection Hi as ->. left.
        rewrite bool_decide_eq_false_2 by assumption. left.
      * right. exists i. split; [exact Hi |]. split.
        -- rewrite Hids. intros [Hin | Heq]; [tauto |].
           apply (Hfirst 0 obj); [lia | reflexivity | now symmetry].
        -- intros j c' Hj Hc'. apply (Hfirst (S j) c'); [lia | exact Hc'].
Qed.

Lemma kept_sublist (whole arr pre : list Commit) :
  whole = pre ++ arr ->
  filter_from
    (fun obj pos =>
       bool_decide (indexOf (map commit_id whole) (commit_id obj) = Some pos))
    (length pre) arr `sublist_of` arr.
Proof.
  revert pre. induction arr as [| obj rest IH]; intros pre Hwhole.
  - reflexivity.
  - rewrite (kept_step whole pre rest obj Hwhole).
    specialize (IH (pre ++ [obj])). rewrite <- app_assoc in IH.
    specialize (IH Hwhole).
    case_bool_decide; cbn; [now apply sublist_cons | now apply sublist_skip].
Qed.

Lemma kept_NoDup (whole arr pre : list Commit) :
  whole = pre ++ arr ->
  NoDup (map commit_id
           (filter_from
              (fun obj pos =>
                 bool_decide (indexOf (map commit_id whole) (commit_id obj) = Some pos))
              (length pre) arr)).
Proof.
  revert pre. induction arr as [| obj rest IH]; intros pre Hwhole.
  - cbn. apply NoDup_nil_2.
  - rewrite (kept_step whole pre rest obj Hwhole).
    assert (Hrest : whole = (pre ++ [obj]) ++ rest) by (now rewrite <- app_assoc).
    case_bool_decide as Hin; cbn; [now apply IH |].
    apply NoDup_cons. split; [| now apply IH].
    intros Hdup. apply list_elem_of_fmap in Hdup as (c & Heq & Hc).
    apply (kept_characterised whole rest (pre ++ [obj]) c Hrest) in Hc
      as (i & _ & Hnew & _).
    apply Hnew. rewrite map_app, elem_of_app. right. cbn. rewrite Heq. left.
Qed.

Lemma kept_all (whole arr pre : list Commit) :
  whole = pre ++ arr -> NoDup (map commit_id whole) ->
  filter_from
    (fun obj pos =>
       bool_decide (indexOf (map commit_id whole) (commit_id obj) = Some pos))
    (length pre) arr = arr.
Proof.
  revert pre. induction arr as [| obj rest IH]; intros pre Hwhole Hnd.
  - reflexivity.
  - rewrite (kept_step whole pre rest obj Hwhole).
    rewrite IH by (rewrite <- ?app_assoc; assumption).
    rewrite bool_decide_eq_false_2; [reflexivity |].
    rewrite Hwhole, map_app in Hnd. apply NoDup_app in Hnd as (_ & Hd & _).
    intros Hin. apply (Hd _ Hin). cbn. left.
Qed.

Lemma dedupCommits_elem (commits : option (list Commit)) (c : Commit) :
  c ∈ dedupCommits commits <->
  exists i, default [] commits !! i = Some c /\
    forall j c', j < i -> default [] commits !! j = Some c' ->
                 commit_id c' <> commit_id c.
Proof.
  unfold dedupCommits, Array_filter. cbv beta.
  rewrite (kept_characterised (default [] commits) (default [] commits) [] c eq_refl).
  split; intros (i & Hi & H); exists i; split; try assumption.
  - apply H.
  - split; [cbn; apply not_elem_of_nil | exact H].
Qed.

Lemma dedupCommits_sublist (commits : option (list Commit)) :
  dedupCommits commits `sublist_of` default [] commits.
Proof. apply (kept_sublist _ _ [] eq_refl). Qed.

Lemma dedupCommits_NoDup (commits : option (list Commit)) :
  NoDup (map commit_id (dedupCommits commits)).
Proof. apply (kept_NoDup _ _ [] eq_refl). Qed.

(** X17: [dedupCommits] keeps, of the commits with one id, the first, and keeps the
    order: a commit is kept exactly when it stands at a position with no
    commit of its id before it; the ids kept are pairwise distinct; the result
    is a subsequence of the argument; missing commits give none. *)
Theorem dedupCommits_keeps_first_of_each_id (commits : option (list Commit)) :
  (forall c, c ∈ dedupCommits commits <->
     exists i, default [] commits !! i = Some c /\
       forall j c', j < i -> default [] commits !! j = Some c' ->
                    commit_id c' <> commit_id c) /\
  NoDup (map commit_id (dedupCommits commits)) /\
  dedupCommits commits `sublist_of` default [] commits.
Proof.
  split; [| split].
  - intros c. apply dedupCommits_elem.
  - apply dedupCommits_NoDup.
  - apply dedupCommits_sublist.
Qed.

(** X18: Commits whose ids are pairwise distinct are all kept, so [dedupCommits]
    applied to its own result changes nothing. *)
Theorem dedupCommits_idempotent (commits : option (list Commit)) :
  dedupCommits (Some (dedupCommits commits)) = dedupCommits commits.
Proof.
  set (kept := dedupCommits commits).
  unfold dedupCommits at 1, Array_filter. cbv beta. cbn [default].
  apply (kept_all kept kept [] eq_refl).
  apply (kept_NoDup _ _ [] eq_refl).
Qed.

Lemma Math_max_le (values : list nat) (limit : nat) :
  match Math_max values with Some m => m <=? limit | None => true end = true
  <-> Forall (fun value => value <= limit) values.
Proof.
  induction values as [| value values IH].
  - cbn. split; [constructor | reflexivity].
  - rewrite Forall_cons. change (Math_max (value :: values))
      with (Some (match Math_max values with
                  | Some m => Nat.max value m
                  | None => value
                  end)).
    destruct (Math_max values) as [m |].
    + rewrite Nat.leb_le in *. rewrite <- IH.
      split; [intros Hle | intros [Hv Hm]].
      * split; [apply (Nat.max_lub_l _ m), Hle | apply (Nat.max_lub_r value), Hle].
      * now apply Nat.max_lub.
    + rewrite Nat.leb_le. rewrite <- IH. tauto.
Qed.

Lemma withinIssueKeyLimit_Forall {R : Type} `{Resource R}
    (resources : option (list R)) :
  truthy (withinIssueKeyLimit resources) = true <->
  Forall (fun resource => length (issueKeys resource) <= ISSUE_KEY_API_LIMIT)
         (default [] resources).
Proof.
  destruct resources as [resources |]; cbn [withinIssueKeyLimit truthy default].
  - rewrite Math_max_le, Forall_fmap. reflexivity.
  - split; [constructor | reflexivity].
Qed.

(** X19: The result of [withinIssueKeyLimit] is truthy exactly when no resource
    has more than 100 issue keys; it is so for a missing array and for an
    empty one. *)
Theorem withinIssueKeyLimit_truthy {R : Type} `{Resource R}
    (resources : option (list R)) :
  truthy (withinIssueKeyLimit resources) = true <->
  forall resource, resource ∈ default [] resources ->
    length (issueKeys resource) <= ISSUE_KEY_API_LIMIT.
Proof.
  rewrite withinIssueKeyLimit_Forall, Forall_forall. reflexivity.
Qed.

Lemma commitChunks_loop_eq (fuel : nat) (dedupedCommits : list Commit) :
  commitChunks_loop fuel dedupedCommits
  = take 400 dedupedCommits ::
    match drop 400 dedupedCommits, fuel with
    | [], _ => []
    | _ :: _, 0 => []
    | rest, S fuel => commitChunks_loop fuel rest
    end.
Proof. destruct fuel; reflexivity. Qed.

Lemma drop_nil_take {A : Type} (n : nat) (l : list A) : drop n l = [] -> take n l = l.
Proof.
  intros Hdrop. rewrite <- (take_drop n l) at 2. rewrite Hdrop. now rewrite app_nil_r.
Qed.

Lemma commitChunks_loop_partition (fuel : nat) (l : list Commit) :
  length l <= fuel ->
  concat (commitChunks_loop fuel l) = l /\
  forall i chunk, commitChunks_loop fuel l !! i = Some chunk ->
    length chunk <= 400 /\
    (S i < length (commitChunks_loop fuel l) -> length chunk = 400) /\
    (l <> [] -> chunk <> []).
Proof.
  revert l. induction fuel as [| fuel IH]; intros l Hfuel.
  - destruct l; [| cbn in Hfuel; lia]. cbn. split; [reflexivity |].
    intros [| i] chunk; cbn; [| discriminate]. intros [= <-]. cbn.
    split; [lia |]. split; [lia | congruence].
  - rewrite commitChunks_loop_eq.
    destruct (drop 400 l) as [| c rest] eqn:Hdrop.
    + cbn [concat]. rewrite app_nil_r, (drop_nil_take _ _ Hdrop).
      split; [reflexivity |].
      intros [| i] chunk; cbn; [| discriminate]. intros [= <-].
      assert (Hlen := length_drop l 400). rewrite Hdrop in Hlen. cbn in Hlen.
      split; [lia |]. split; [lia | congruence].
    + assert (Hlen := length_drop l 400). rewrite Hdrop in Hlen.
      cbn [length] in Hlen.
      destruct (IH (c :: rest)) as [Hconcat Hchunks]; [cbn [length]; lia |].
      cbn [concat]. rewrite Hconcat, <- Hdrop, take_drop. split; [reflexivity |].
      intros [| i] chunk.
      * intros [= <-]. rewrite length_take.
        split; [lia |]. split; [lia |]. intros _ Hnil.
        apply (f_equal length) in Hnil. rewrite length_take in Hnil.
        cbn [length] in Hnil. lia.
      * cbn [lookup list_lookup length]. rewrite Hdrop.
        change (list_lookup i (commitChunks_loop fuel (c :: rest)))
          with (commitChunks_loop fuel (c :: rest) !! i).
        intros Hi. destruct (Hchunks i chunk Hi) as (Hle & Hfull & Hne).
        split; [exact Hle |]. split; [intros Hlt; apply Hfull; lia |].
        intros _. now apply Hne.
Qed.

Lemma commitChunks_chunks (dedupedCommits : list Commit) :
  concat (commitChunks dedupedCommits) = dedupedCommits /\
  forall i chunk, commitChunks dedupedCommits !! i = Some chunk ->
    length chunk <= 400 /\
    (S i < length (commitChunks dedupedCommits) -> length chunk = 400) /\
    (dedupedCommits <> [] -> chunk <> []).
Proof.
  unfold commitChunks. apply commitChunks_loop_partition. reflexivity.
Qed.

(** X20: The chunks of [batchedBulkUpdate] partition the commits in order: glued
    together they give the commits back; there is at least one chunk; no chunk
    has more than 400 commits, every chunk before the last has exactly 400,
    and no chunk is empty unless there is no commit at all. *)
Theorem commitChunks_partition (dedupedCommits : list Commit) :
  concat (commitChunks dedupedCommits) = dedupedCommits /\
  commitChunks dedupedCommits <> [] /\
  forall i chunk, commitChunks dedupedCommits !! i = Some chunk ->
    length chunk <= 400 /\
    (S i < length (commitChunks dedupedCommits) -> length chunk = 400) /\
    (dedupedCommits <> [] -> chunk <> []).
Proof.
  destruct (commitChunks_chunks dedupedCommits) as [Hconcat Hchunks].
  split; [exact Hconcat |]. split; [| exact Hchunks].
  unfold commitChunks. rewrite commitChunks_loop_eq. discriminate.
Qed.

Lemma batchedUpdates_nonempty (chunks : list (list Commit)) (data : RepositoryObj)
    (options : option Options) (installationId : Z) :
  Forall (fun chunk => chunk <> []) chunks ->
  (batchedUpdates chunks data options installationId).1
  = map (fun chunk =>
           {| request_preventTransitions := preventTransitions_or_false options;
              at_call := {| commits := Some chunk; branches := branches data;
                            repository_fields := repository_fields data |};
              request_installationId := installationId |}) chunks /\
  (batchedUpdates chunks data options installationId).2
  = match last chunks with
    | Some chunk => {| commits := Some chunk; branches := branches data;
                       repository_fields := repository_fields data |}
    | None => data
    end.
Proof.
  revert data. induction chunks as [| chunk chunks IH]; intros data Hne.
  - split; reflexivity.
  - apply Forall_cons in Hne as [Hchunk Hne].
    destruct chunk as [| c chunk]; [congruence |].
    cbn [batchedUpdates fst snd map].
    destruct (IH {| commits := Some (c :: chunk); branches := branches data;
                    repository_fields := repository_fields data |} Hne)
      as [Hreqs Hfinal].
    rewrite Hreqs, Hfinal. cbn [branches repository_fields].
    split; [reflexivity |].
    destruct chunks as [| chunk' chunks]; [reflexivity |].
    rewrite last_cons_cons.
    destruct (last (chunk' :: chunks)) eqn:Hlast; [reflexivity |].
    apply last_None in Hlast. discriminate.
Qed.

Lemma dedupCommits_nil (data : RepositoryObj) :
  dedupCommits (commits data) = [] -> default [] (commits data) = [].
Proof.
  intros Hnil. destruct (default [] (commits data)) as [| c rest] eqn:Hcommits;
    [reflexivity |].
  exfalso.
  assert (Hc : c ∈ dedupCommits (commits data)).
  { apply dedupCommits_elem. exists 0. rewrite Hcommits. split; [reflexivity |].
    intros j c' Hj. lia. }
  rewrite Hnil in Hc. now apply elem_of_nil in Hc.
Qed.

Lemma commitChunks_nonempty (l : list Commit) :
  l <> [] -> Forall (fun chunk => chunk <> []) (commitChunks l).
Proof.
  intros Hne. apply Forall_lookup. intros i chunk Hi.
  destruct (commitChunks_chunks l) as (_ & Hchunks).
  now apply (Hchunks i chunk Hi).
Qed.

Lemma batchedBulkUpdate_none (data : RepositoryObj) (options : option Options)
    (installationId : Z) :
  dedupCommits (commits data) = [] ->
  batchedBulkUpdate data options installationId
  = ([ {| request_preventTransitions := preventTransitions_or_false options;
          at_call := data;
          request_installationId := installationId |} ], data).
Proof. intros Hkept. unfold batchedBulkUpdate. rewrite Hkept. reflexivity. Qed.

Lemma batchedBulkUpdate_some (data : RepositoryObj) (options : option Options)
    (installationId : Z) :
  dedupCommits (commits data) <> [] ->
  (batchedBulkUpdate data options installationId).1
  = map (fun chunk =>
           {| request_preventTransitions := preventTransitions_or_false options;
              at_call := {| commits := Some chunk; branches := branches data;
                            repository_fields := repository_fields data |};
              request_installationId := installationId |})
        (commitChunks (dedupCommits (commits data))) /\
  (batchedBulkUpdate data options installationId).2
  = match last (commitChunks (dedupCommits (commits data))) with
    | Some chunk => {| commits := Some chunk; branches := branches data;
                       repository_fields := repository_fields data |}
    | None => data
    end.
Proof.
  intros Hne. unfold batchedBulkUpdate.
  apply batchedUpdates_nonempty, commitChunks_nonempty, Hne.
Qed.

(** X21: [batchedBulkUpdate] makes at least one request, also when the payload has
    no commit.  The commits the payload holds at the successive calls are, in
    order, the commits [dedupCommits] keeps, at most 400 per call; every call
    has the branches and the other fields of the payload, the installation id
    and the [preventTransitions] of the options ([false] without options).
    The payload object is left as the last call had it. *)
Theorem batchedBulkUpdate_requests (data : RepositoryObj) (options : option Options)
    (installationId : Z) :
  let sent := batchedBulkUpdate data options installationId in
  concat (map (fun request => default [] (commits (at_call request))) sent.1)
    = dedupCommits (commits data) /\
  last (map at_call sent.1) = Some sent.2 /\
  forall request, request ∈ sent.1 ->
    length (default [] (commits (at_call request))) <= 400 /\
    branches (at_call request) = branches data /\
    repository_fields (at_call request) = repository_fields data /\
    request_installationId request = installationId /\
    request_preventTransitions request = preventTransitions_or_false options.
Proof.
  cbv zeta.
  destruct (dedupCommits (commits data)) as [| c kept] eqn:Hkept.
  - rewrite (batchedBulkUpdate_none _ _ _ Hkept).
    apply dedupCommits_nil in Hkept.
    cbn [fst snd map concat at_call].
    rewrite Hkept. split; [reflexivity |]. split; [reflexivity |].
    intros request Hin. apply list_elem_of_singleton in Hin as ->.
    cbn [at_call request_installationId request_preventTransitions].
    rewrite Hkept. cbn [length]. repeat split; lia.
  - assert (Hne : dedupCommits (commits data) <> []) by (rewrite Hkept; discriminate).
    destruct (batchedBulkUpdate_some data options installationId Hne) as [-> ->].
    rewrite Hkept.
    destruct (commitChunks_chunks (c :: kept)) as (Hconcat & Hchunks).
    split; [| split].
    + rewrite map_map. cbn [at_call commits default]. now rewrite map_id.
    + rewrite map_map. cbn [at_call].
      destruct (last (commitChunks (c :: kept))) as [chunk |] eqn:Hlast.
      * apply last_Some in Hlast as [chunks ->].
        rewrite map_app. cbn [map]. apply last_snoc.
      * apply last_None in Hlast. unfold commitChunks in Hlast.
        rewrite commitChunks_loop_eq in Hlast. discriminate Hlast.
    + intros request Hin. apply list_elem_of_fmap in Hin as (chunk & -> & Hin).
      apply list_elem_of_lookup in Hin as [i Hi].
      cbn. split; [apply (Hchunks i chunk Hi) | repeat split].
Qed.

Lemma commits_updated (d : RepositoryObj) (f : list string -> list string) :
  commits (updateRepositoryIssueKeys d f)
  = (fun resources => updateIssueKeysFor resources f) <$> commits d.
Proof.
  unfold updateRepositoryIssueKeys.
  destruct (commits d) eqn:Hc, (branches d) eqn:Hb; cbn; rewrite ?Hb, ?Hc; cbn;
    rewrite ?Hc; reflexivity.
Qed.

Lemma branches_updated (d : RepositoryObj) (f : list string -> list string) :
  branches (updateRepositoryIssueKeys d f)
  = (fun resources => map (updateLastCommit f) (updateIssueKeysFor resources f))
      <$> branches d.
Proof.
  unfold updateRepositoryIssueKeys.
  destruct (commits d) eqn:Hc, (branches d) eqn:Hb; cbn; rewrite ?Hb, ?Hc; cbn;
    rewrite ?Hb; reflexivity.
Qed.

Lemma updated_commit (d : RepositoryObj) (f : list string -> list string)
    (c' : Commit) :
  c' ∈ default [] (commits (updateRepositoryIssueKeys d f)) <->
  exists c, c ∈ default [] (commits d) /\ c' = set_issueKeys (f (issueKeys c)) c.
Proof.
  rewrite commits_updated. destruct (commits d) as [resources |]; cbn.
  - unfold updateIssueKeysFor. rewrite list_elem_of_fmap.
    split; intros (c & H1 & H2); exists c; tauto.
  - rewrite elem_of_nil. split; [tauto |]. intros (c & Hc & _).
    now apply elem_of_nil in Hc.
Qed.

Lemma updated_branch (d : RepositoryObj) (f : list string -> list string)
    (b' : Branch) :
  b' ∈ default [] (branches (updateRepositoryIssueKeys d f)) <->
  exists b, b ∈ default [] (branches d) /\
    b' = updateLastCommit f (set_issueKeys (f (issueKeys b)) b).
Proof.
  rewrite branches_updated. destruct (branches d) as [resources |]; cbn.
  - unfold updateIssueKeysFor. rewrite list_elem_of_fmap. split.
    + intros (b1 & -> & Hb1). apply list_elem_of_fmap in Hb1 as (b & -> & Hb).
      exists b. tauto.
    + intros (b & Hb & ->). eexists. split; [reflexivity |].
      apply list_elem_of_fmap. exists b. tauto.
  - rewrite elem_of_nil. split; [tauto |]. intros (b & Hb & _).
    now apply elem_of_nil in Hb.
Qed.

Lemma issueKeys_updateLastCommit (f : list string -> list string) (b : Branch) :
  branch_issueKeys (updateLastCommit f b) = branch_issueKeys b.
Proof. unfold updateLastCommit. now destruct (lastCommit b). Qed.

(** The test of [update] after [dedupIssueKeys]: it finds the payload beyond
    the limit exactly when a commit or a branch has more than 100 distinct
    issue keys. *)
Lemma update_test (data : RepositoryObj) :
  negb (truthy (withinIssueKeyLimit (commits (dedupIssueKeys data))))
  || negb (truthy (withinIssueKeyLimit (branches (dedupIssueKeys data)))) = false
  <-> (forall c, c ∈ default [] (commits data) ->
         length (dedup (commit_issueKeys c)) <= ISSUE_KEY_API_LIMIT) /\
      (forall b, b ∈ default [] (branches data) ->
         length (dedup (branch_issueKeys b)) <= ISSUE_KEY_API_LIMIT).
Proof.
  rewrite orb_false_iff, !negb_false_iff, !withinIssueKeyLimit_Forall, !Forall_forall.
  unfold dedupIssueKeys. split; intros [Hc Hb]; split.
  - intros c Hin.
    specialize (Hc (set_issueKeys (dedup (issueKeys c)) c)). cbn in Hc.
    apply Hc, updated_commit. exists c. tauto.
  - intros b Hin.
    specialize (Hb (updateLastCommit dedup (set_issueKeys (dedup (issueKeys b)) b))).
    cbn [issueKeys branch_resource] in Hb. rewrite issueKeys_updateLastCommit in Hb.
    apply Hb, updated_branch. exists b. tauto.
  - intros c' Hin. apply updated_commit in Hin as (c & Hin & ->). now apply Hc.
  - intros b' Hin. apply updated_branch in Hin as (b & Hin & ->).
    cbn [issueKeys branch_resource]. rewrite issueKeys_updateLastCommit.
    now apply Hb.
Qed.

(** X22: When no commit and no branch of the payload has more than 100 distinct
    issue keys, [update] writes no warning and does not look the subscription
    up: the table is left as it is, also without a row for the installation,
    and the requests are those of [batchedBulkUpdate] for the payload with its
    issue keys deduplicated.  Repeated keys do not count towards the limit. *)
Theorem repository_update_within_limit (jiraHost : string)
    (gitHubInstallationId : Z) (data : RepositoryObj) (options : option Options)
    (rows : Subscriptions) :
  (forall c, c ∈ default [] (commits data) ->
     length (dedup (commit_issueKeys c)) <= ISSUE_KEY_API_LIMIT) ->
  (forall b, b ∈ default [] (branches data) ->
     length (dedup (branch_issueKeys b)) <= ISSUE_KEY_API_LIMIT) ->
  repository_update jiraHost gitHubInstallationId data options rows
  = {| outcome :=
         Awaiting (batchedBulkUpdate (dedupIssueKeys data) options
                     gitHubInstallationId).1;
       payload :=
         (batchedBulkUpdate (dedupIssueKeys data) options gitHubInstallationId).2;
       table := rows |}.
Proof.
  intros Hc Hb. unfold repository_update.
  now rewrite (proj2 (update_test data) (conj Hc Hb)).
Qed.

(** X23: When a commit or a branch has more than 100 distinct issue keys, [update]
    truncates the issue keys and then needs the subscription row: without the
    row it throws a TypeError before any request is made, leaving the table
    as it was and the payload truncated; with the row it stores the warning
    on it and makes the requests of [batchedBulkUpdate] for the truncated
    payload. *)
Theorem repository_update_beyond_limit (jiraHost : string)
    (gitHubInstallationId : Z) (data : RepositoryObj) (options : option Options)
    (rows : Subscriptions) :
  (exists c, c ∈ default [] (commits data) /\
     ISSUE_KEY_API_LIMIT < length (dedup (commit_issueKeys c))) \/
  (exists b, b ∈ default [] (branches data) /\
     ISSUE_KEY_API_LIMIT < length (dedup (branch_issueKeys b))) ->
  repository_update jiraHost gitHubInstallationId data options rows
  = match rows !! (jiraHost, gitHubInstallationId) with
    | None =>
        {| outcome := Thrown (TypeError_null "update");
           payload := truncateIssueKeys (dedupIssueKeys data);
           table := rows |}
    | Some _ =>
        {| outcome :=
             Awaiting (batchedBulkUpdate (truncateIssueKeys (dedupIssueKeys data))
                         options gitHubInstallationId).1;
           payload :=
             (batchedBulkUpdate (truncateIssueKeys (dedupIssueKeys data))
                options gitHubInstallationId).2;
           table := <[ (jiraHost, gitHubInstallationId) :=
                         {| syncWarning := Some exceededWarning |} ]> rows |}
    end.
Proof.
  intros Hover. unfold repository_update.
  destruct (negb (truthy (withinIssueKeyLimit (commits (dedupIssueKeys data))))
            || negb (truthy (withinIssueKeyLimit (branches (dedupIssueKeys data)))))
    eqn:Htest.
  - now destruct (rows !! (jiraHost, gitHubInstallationId)).
  - exfalso. apply update_test in Htest as [Hc Hb].
    destruct Hover as [(c & Hin & Hlt) | (b & Hin & Hlt)].
    + specialize (Hc c Hin). lia.
    + specialize (Hb b Hin). lia.
Qed.

Lemma truncate_dedup (keys : list string) :
  NoDup (truncate (dedup keys)) /\
  length (truncate (dedup keys)) <= ISSUE_KEY_API_LIMIT.
Proof.
  unfold truncate. split.
  - eapply sublist_NoDup; [apply dedup_NoDup | apply sublist_take].
  - rewrite length_take. lia.
Qed.

Lemma elem_of_concat {A : Type} (x : A) (ls : list (list A)) :
  x ∈ concat ls <-> exists l, x ∈ l /\ l ∈ ls.
Proof.
  induction ls as [| l0 ls IH]; cbn.
  - rewrite elem_of_nil. split; [tauto |]. intros (l & _ & Hl).
    now apply elem_of_nil in Hl.
  - rewrite elem_of_app, IH. split.
    + intros [H0 | (l & Hx & Hl)]; [exists l0 | exists l]; split; try assumption.
      * left.
      * now right.
    + intros (l & Hx & Hl). apply elem_of_cons in Hl as [-> | Hl]; [now left |].
      right. now exists l.
Qed.

Lemma sent_resources (data : RepositoryObj) (options : option Options)
    (installationId : Z) (request : BulkRequest) :
  request ∈ (batchedBulkUpdate data options installationId).1 ->
  (forall c, c ∈ default [] (commits (at_call request)) ->
     c ∈ default [] (commits data)) /\
  branches (at_call request) = branches data.
Proof.
  destruct (dedupCommits (commits data)) as [| c0 kept] eqn:Hkept.
  - rewrite (batchedBulkUpdate_none _ _ _ Hkept). cbn [fst].
    intros Hin. apply list_elem_of_singleton in Hin as ->. cbn [at_call]. tauto.
  - assert (Hne : dedupCommits (commits data) <> []) by (rewrite Hkept; discriminate).
    destruct (batchedBulkUpdate_some data options installationId Hne) as [-> _].
    intros Hin. apply list_elem_of_fmap in Hin as (chunk & -> & Hin).
    cbn [at_call commits branches default]. split; [| reflexivity].
    intros c Hc.
    apply (fun H => elem_of_sublist _ _ c H (dedupCommits_sublist (commits data))).
    destruct (commitChunks_chunks (dedupCommits (commits data))) as [Hconcat _].
    rewrite <- Hconcat. apply elem_of_concat. now exists chunk.
Qed.

Lemma lastCommit_updated (f : list string -> list string) (b : Branch) :
  lastCommit (updateLastCommit f b)
  = (fun last => set_issueKeys (f (issueKeys last)) last) <$> lastCommit b.
Proof.
  unfold updateLastCommit.
  destruct (lastCommit b) as [last |] eqn:Hlast; cbn; [reflexivity | exact Hlast].
Qed.

(** X24: What every request of [update] carries, whatever the payload.  Every
    entry of the payload's [commits] and every branch has at most 100 issue
    keys of its own, and none has a key twice.  The [lastCommit] of a branch
    has no key twice either, but [update] does not test it against the
    limit: its keys are those of the original [lastCommit] deduplicated, and
    cut to 100 only when the test on the commits and the branches fails; when
    these are within the limit, a [lastCommit] goes out with all its distinct
    keys, however many. *)
Theorem repository_update_requests_issue_keys (jiraHost : string)
    (gitHubInstallationId : Z) (data : RepositoryObj) (options : option Options)
    (rows : Subscriptions) :
  match outcome (repository_update jiraHost gitHubInstallationId data options rows)
  with
  | Thrown _ => True
  | Awaiting requests =>
      forall request, request ∈ requests ->
        (forall c, c ∈ default [] (commits (at_call request)) ->
           NoDup (commit_issueKeys c) /\
           length (commit_issueKeys c) <= ISSUE_KEY_API_LIMIT) /\
        (forall b, b ∈ default [] (branches (at_call request)) ->
           NoDup (branch_issueKeys b) /\
           length (branch_issueKeys b) <= ISSUE_KEY_API_LIMIT /\
           forall last, lastCommit b = Some last ->
             NoDup (commit_issueKeys last) /\
             exists b0 last0,
               b0 ∈ default [] (branches data) /\
               lastCommit b0 = Some last0 /\
               commit_id last = commit_id last0 /\
               commit_issueKeys last
               = if truthy (withinIssueKeyLimit (commits (dedupIssueKeys data)))
                    && truthy (withinIssueKeyLimit (branches (dedupIssueKeys data)))
                 then dedup (commit_issueKeys last0)
                 else truncate (dedup (commit_issueKeys last0)))
  end.
Proof.
  unfold repository_update.
  destruct (truthy (withinIssueKeyLimit (commits (dedupIssueKeys data)))) eqn:Hcs;
    [destruct (truthy (withinIssueKeyLimit (branches (dedupIssueKeys data)))) eqn:Hbs |];
    cbn [negb orb andb].
  - (* within the limit: the payload is sent deduplicated *)
    cbn [outcome].
    assert (Htest := update_test data). rewrite Hcs, Hbs in Htest.
    destruct (proj1 Htest eq_refl) as [Hc Hb].
    intros request Hin. apply sent_resources in Hin as [Hsent Hbranches]. split.
    + intros c' Hc'. apply Hsent in Hc'. unfold dedupIssueKeys in Hc'.
      apply updated_commit in Hc' as (c & Hin & ->). cbn.
      split; [apply dedup_NoDup | now apply Hc].
    + intros b' Hb'. rewrite Hbranches in Hb'. unfold dedupIssueKeys in Hb'.
      apply updated_branch in Hb' as (b & Hin & ->).
      rewrite issueKeys_updateLastCommit, lastCommit_updated.
      cbn [set_issueKeys issueKeys branch_resource branch_issueKeys lastCommit].
      split; [apply dedup_NoDup |]. split; [now apply Hb |].
      intros last Hlast. destruct (lastCommit b) as [last0 |] eqn:Hlast0;
        [| discriminate Hlast].
      cbn in Hlast. injection Hlast as <-. cbn.
      split; [apply dedup_NoDup |]. exists b, last0. auto.
  - (* a branch beyond the limit: the payload is sent truncated *)
    destruct (rows !! (jiraHost, gitHubInstallationId)); cbn [outcome]; [| exact I].
    intros request Hin. apply sent_resources in Hin as [Hsent Hbranches]. split.
    + intros c' Hc'. apply Hsent in Hc'. unfold truncateIssueKeys in Hc'.
      apply updated_commit in Hc' as (c1 & Hc1 & ->).
      unfold dedupIssueKeys in Hc1. apply updated_commit in Hc1 as (c & _ & ->).
      cbn. apply truncate_dedup.
    + intros b' Hb'. rewrite Hbranches in Hb'. unfold truncateIssueKeys in Hb'.
      apply updated_branch in Hb' as (b1 & Hb1 & ->).
      unfold dedupIssueKeys in Hb1. apply updated_branch in Hb1 as (b & Hin & ->).
      rewrite issueKeys_updateLastCommit, lastCommit_updated.
      cbn [set_issueKeys issueKeys branch_resource branch_issueKeys lastCommit].
      rewrite issueKeys_updateLastCommit, lastCommit_updated.
      cbn [set_issueKeys issueKeys branch_resource branch_issueKeys lastCommit].
      split; [apply truncate_dedup |]. split; [apply truncate_dedup |].
      intros last Hlast. destruct (lastCommit b) as [last0 |] eqn:Hlast0;
        [| discriminate Hlast].
      cbn in Hlast. injection Hlast as <-. cbn.
      split; [apply truncate_dedup |]. exists b, last0. auto.
  - (* a commit beyond the limit: the payload is sent truncated *)
    destruct (rows !! (jiraHost, gitHubInstallationId)); cbn [outcome]; [| exact I].
    intros request Hin. apply sent_resources in Hin as [Hsent Hbranches]. split.
    + intros c' Hc'. apply Hsent in Hc'. unfold truncateIssueKeys in Hc'.
      apply updated_commit in Hc' as (c1 & Hc1 & ->).
      unfold dedupIssueKeys in Hc1. apply updated_commit in Hc1 as (c & _ & ->).
      cbn. apply truncate_dedup.
    + intros b' Hb'. rewrite Hbranches in Hb'. unfold truncateIssueKeys in Hb'.
      apply updated_branch in Hb' as (b1 & Hb1 & ->).
      unfold dedupIssueKeys in Hb1. apply updated_branch in Hb1 as (b & Hin & ->).
      rewrite issueKeys_updateLastCommit, lastCommit_updated.
      cbn [set_issueKeys issueKeys branch_resource branch_issueKeys lastCommit].
      rewrite issueKeys_updateLastCommit, lastCommit_updated.
      cbn [set_issueKeys issueKeys branch_resource branch_issueKeys lastCommit].
      split; [apply truncate_dedup |]. split; [apply truncate_dedup |].
      intros last Hlast. destruct (lastCommit b) as [last0 |] eqn:Hlast0;
        [| discriminate Hlast].
      cbn in Hlast. injection Hlast as <-. cbn.
      split; [apply truncate_dedup |]. exists b, last0. auto.
Qed.

End JiraClientFacts.

Section WorkerFacts.

Import Worker.

(** [sentryMiddleware] passes the handler's outcome on; a rejection is
    captured once, after the job's details and tags. *)
Lemma sentryMiddleware_outcome (jobHandler : Handler) (job : QueueJob) (p : Process) :
  (sentryMiddleware jobHandler job p).1
  = match (jobHandler job
             (tell p [AddEventProcessor "AxiosErrorEventDecorator.decorate";
                      AddEventProcessor "SentryScopeProxy.processEvent"])).1 with
    | Return _ => Return tt
    | Throw err => Throw err
    end.
Proof. unfold sentryMiddleware. cbv zeta. now destruct (jobHandler _ _).1. Qed.

(** X25: A handler wrapped by [commonMiddleware] never rejects and the wrappers
    never capture an exception, whatever the handler does: the job resolves
    once the transaction is started, also when the handler throws.  The
    handler runs after the two event processors are added and the
    transaction is announced, its effects are kept, and the transaction is
    ended after it. *)
Theorem commonMiddleware_always_resolves (jobHandler : Handler) (job : QueueJob)
    (p : Process) :
  (commonMiddleware jobHandler job p).1 = Return tt /\
  exists handled : Outcome unit * Process,
    handled
    = jobHandler job
        (tell (tell p [AddEventProcessor "AxiosErrorEventDecorator.decorate";
                       AddEventProcessor "SentryScopeProxy.processEvent"])
              [StartBackgroundTransaction ("job " +:+ queue_name job) "worker queue";
               AddCustomAttributes (queue_name job) (job_id job)
                 (data (Worker.job job)) (opts (Worker.job job))]) /\
    world (commonMiddleware jobHandler job p).2 = world handled.2 /\
    telemetry (commonMiddleware jobHandler job p).2
    = telemetry handled.2 ++ [TransactionEnd].
Proof.
  split; [reflexivity |]. eexists. split; [reflexivity |]. split; reflexivity.
Qed.

(** X26: The installation sync under the worker's wrappers: when
    [processInstallation] rejects, [sentryMiddleware] alone would capture the
    error and reject with it, but the job the worker registers resolves, with
    the table and the queue as the sync left them and no exception captured. *)
Theorem rejected_sync_resolves_unreported (env : Env) (job : QueueJob) (p : Process)
    (err : JSError) :
  (processInstallation env (Worker.job job) (world p)).1 = Throw err ->
  (sentryMiddleware (installationHandler env) job p).1 = Throw err /\
  last (telemetry (sentryMiddleware (installationHandler env) job p).2)
    = Some (CaptureException err) /\
  (commonMiddleware (installationHandler env) job p).1 = Return tt /\
  world (commonMiddleware (installationHandler env) job p).2
    = (processInstallation env (Worker.job job) (world p)).2 /\
  forall e, CaptureException e ∈
              telemetry (commonMiddleware (installationHandler env) job p).2 ->
            CaptureException e ∈ telemetry p.
Proof.
  intros Hrun. unfold commonMiddleware, sentryMiddleware, newrelicMiddleware,
    installationHandler, tell. cbn [world telemetry fst snd]. rewrite Hrun.
  cbn [world telemetry fst snd].
  split; [reflexivity |]. split; [| split; [reflexivity | split; [reflexivity |]]].
  - match goal with
    | |- last (?l ++ [?a; ?b; ?c; ?d]) = _ =>
        change (l ++ [a; b; c; d]) with (l ++ ([a; b; c] ++ [d]))
    end.
    rewrite app_assoc. apply last_snoc.
  - intros e He. rewrite !elem_of_app in He.
    destruct He as [[[He | He] | He] | He]; [exact He | | |];
      repeat (apply elem_of_cons in He as [He | He]; [discriminate He |]);
      now apply elem_of_nil in He.
Qed.

End WorkerFacts.

Section InvestigationFacts.

Import Investigation.

Local Open Scope nat_scope.

Lemma take_page {A : Type} (all : list A) (k : nat) :
  take (100 * k) all ++ take 100 (drop (100 * k) all) = take (100 * S k) all.
Proof. rewrite take_take_drop. f_equal. lia. Qed.

Lemma getRestData_loop_pages (github : GitHub) (all : list string) (fuel k : nat) :
  (forall page, 1 <= page ->
     rest github page = Return (take 100 (drop (100 * (page - 1)) all))) ->
  100 * k <= length all ->
  getRestData_loop fuel github (take (100 * k) all) (S k)
  = if fuel <=? (length all - 100 * k) / 100 then None else Some (Return all).
Proof.
  intros Hrest. revert k. induction fuel as [| fuel IH]; intros k Hk.
  - reflexivity.
  - cbn [getRestData_loop]. unfold callRestData.
    change (S k =? 0) with false. cbv iota.
    rewrite Hrest by lia. replace (S k - 1) with k by lia.
    rewrite length_take, length_drop.
    destruct (Nat.min 100 (length all - 100 * k) =? 100) eqn:Hfull.
    + apply Nat.eqb_eq in Hfull. rewrite take_page, IH by lia.
      replace (length all - 100 * k) with (1 * 100 + (length all - 100 * S k)) by lia.
      rewrite Nat.div_add_l by lia.
      destruct (fuel <=? (length all - 100 * S k) / 100) eqn:Hfuel.
      * apply Nat.leb_le in Hfuel. rewrite (proj2 (Nat.leb_le _ _)); [reflexivity | lia].
      * apply Nat.leb_gt in Hfuel. rewrite (proj2 (Nat.leb_gt _ _)); [reflexivity | lia].
    + apply Nat.eqb_neq in Hfull.
      rewrite (Nat.div_small (length all - 100 * k)) by lia.
      change (S fuel <=? 0) with false. cbv iota.
      rewrite (take_ge (drop (100 * k) all)) by (rewrite length_drop; lia).
      now rewrite take_drop.
Qed.

(** X27: Against a server that serves the repositories in pages of 100,
    [getRestData] returns all of them, in order, and makes one request more
    than there are full pages: the last request is for a page that is not
    full, an empty one when the number of repositories is a multiple of 100. *)
Theorem getRestData_lists_all (github : GitHub) (all : list string) (fuel : nat) :
  (forall page, 1 <= page ->
     rest github page = Return (take 100 (drop (100 * (page - 1)) all))) ->
  getRestData fuel github
  = if fuel <=? length all / 100 then None else Some (Return all).
Proof.
  intros Hrest. unfold getRestData.
  rewrite <- (Nat.sub_0_r (length all)).
  change [] with (take (100 * 0) all).
  change (length all - 0) with (length all - 100 * 0).
  apply getRestData_loop_pages; [exact Hrest | cbn; lia].
Qed.



Lemma graphql_page (github : GitHub) (edges : list RepoEdge) (k : nat)
    (lastCursor : option string) :
  graphql github None = Return (take 100 edges) ->
  (forall i edge, edges !! i = Some edge ->
     graphql github (Some (cursor edge)) = Return (take 100 (drop (S i) edges))) ->
  (forall edge, edge ∈ edges -> cursor edge <> EmptyString) ->
  (k = 0 /\ lastCursor = None) \/
  (exists edge, edges !! (100 * k - 1) = Some edge /\ 1 <= k /\
     lastCursor = Some (cursor edge)) ->
  graphql github (getQuery_after lastCursor)
  = Return (take 100 (drop (100 * k) edges)).
Proof.
  intros Hfirst Hnext Hcursor [[-> ->] | (edge & Hedge & Hk & ->)].
  - exact Hfirst.
  - assert (Hne : cursor edge <> EmptyString).
    { apply Hcursor. apply list_elem_of_lookup. now exists (100 * k - 1). }
    unfold getQuery_after. destruct (cursor edge) as [| a rest] eqn:Hc; [congruence |].
    rewrite <- Hc, (Hnext _ _ Hedge).
    replace (S (100 * k - 1)) with (100 * k) by lia. reflexivity.
Qed.

Lemma last_full_page {A : Type} (l : list A) (n : nat) (x : A) :
  last (take 100 (drop n l)) = Some x ->
  length (take 100 (drop n l)) = 100 ->
  l !! (n + 99) = Some x.
Proof.
  intros Hlast Hlen. rewrite last_lookup, Hlen in Hlast.
  change (Nat.pred 100) with 99 in Hlast.
  rewrite lookup_take_lt in Hlast by lia. now rewrite lookup_drop in Hlast.
Qed.

Lemma getGraphqlData_loop_pages (github : GitHub) (edges : list RepoEdge)
    (fuel k : nat) (lastCursor : option string) :
  graphql github None = Return (take 100 edges) ->
  (forall i edge, edges !! i = Some edge ->
     graphql github (Some (cursor edge)) = Return (take 100 (drop (S i) edges))) ->
  (forall edge, edge ∈ edges -> cursor edge <> EmptyString) ->
  (k = 0 /\ lastCursor = None) \/
  (exists edge, edges !! (100 * k - 1) = Some edge /\ 1 <= k /\
     lastCursor = Some (cursor edge)) ->
  100 * k <= length edges ->
  getGraphqlData_loop fuel github (map nameWithOwner (take (100 * k) edges))
    lastCursor
  = if fuel <=? (length edges - 100 * k) / 100 then None
    else Some (if (length edges - 100 * k) mod 100 =? 0
               then httpError (TypeError_undefined "cursor")
               else Return (map nameWithOwner edges)).
Proof.
  intros Hfirst Hnext Hcursor. revert k lastCursor.
  induction fuel as [| fuel IH]; intros k lastCursor Hstate Hk.
  - reflexivity.
  - cbn [getGraphqlData_loop]. unfold callGraphql.
    rewrite (graphql_page github edges k lastCursor Hfirst Hnext Hcursor Hstate).
    assert (Hlen : length (take 100 (drop (100 * k) edges))
                   = Nat.min 100 (length edges - 100 * k))
      by (now rewrite length_take, length_drop).
    destruct (last (take 100 (drop (100 * k) edges))) as [edge |] eqn:Hlast.
    + cbn [repos after]. rewrite length_map.
      assert (Hsome : 0 < length edges - 100 * k).
      { destruct (take 100 (drop (100 * k) edges)) eqn:Hpage;
          [discriminate Hlast | cbn [length] in Hlen; lia]. }
      destruct (length (take 100 (drop (100 * k) edges)) =? 100) eqn:Hfull.
      * apply Nat.eqb_eq in Hfull.
        rewrite <- map_app, take_page.
        rewrite (IH (S k) (Some (cursor edge))); [| right | lia].
        -- replace (length edges - 100 * k)
             with (1 * 100 + (length edges - 100 * S k)) by lia.
           rewrite Nat.div_add_l by lia.
           rewrite (Nat.add_comm (1 * 100)), Nat.Div0.mod_add.
           destruct (fuel <=? (length edges - 100 * S k) / 100) eqn:Hfuel.
           ++ apply Nat.leb_le in Hfuel.
              rewrite (proj2 (Nat.leb_le _ _)); [reflexivity | lia].
           ++ apply Nat.leb_gt in Hfuel.
              rewrite (proj2 (Nat.leb_gt _ _)); [reflexivity | lia].
        -- exists edge. split; [| split; [lia | reflexivity]].
           replace (100 * S k - 1) with (100 * k + 99) by lia.
           now apply last_full_page.
      * apply Nat.eqb_neq in Hfull.
        rewrite (Nat.div_small (length edges - 100 * k)) by lia.
        rewrite (Nat.mod_small (length edges - 100 * k)) by lia.
        change (S fuel <=? 0) with false. cbv iota.
        rewrite (proj2 (Nat.eqb_neq _ _)) by lia.
        rewrite <- map_app.
        rewrite (take_ge (drop (100 * k) edges)) by (rewrite length_drop; lia).
        now rewrite take_drop.
    + apply last_None in Hlast. rewrite Hlast in Hlen. cbn [length] in Hlen.
      replace (length edges - 100 * k) with 0 by lia. reflexivity.
Qed.

(** X28: Against a server that serves the repositories in pages of 100 edges after
    a cursor, [getGraphqlData] returns all of them only when their number is
    not a multiple of 100.  When it is, and so also when there is no
    repository, the request after the last full page gets an empty page,
    reading the cursor of its last edge throws, and [getGraphqlData] rejects,
    where [getRestData] returns. *)
Theorem getGraphqlData_lists_all_or_rejects (github : GitHub)
    (edges : list RepoEdge) (fuel : nat) :
  graphql github None = Return (take 100 edges) ->
  (forall i edge, edges !! i = Some edge ->
     graphql github (Some (cursor edge)) = Return (take 100 (drop (S i) edges))) ->
  (forall edge, edge ∈ edges -> cursor edge <> EmptyString) ->
  getGraphqlData fuel github
  = if fuel <=? length edges / 100 then None
    else Some (if length edges mod 100 =? 0
               then httpError (TypeError_undefined "cursor")
               else Return (map nameWithOwner edges)).
Proof.
  intros Hfirst Hnext Hcursor. unfold getGraphqlData.
  rewrite <- (Nat.sub_0_r (length edges)).
  change (length edges - 0) with (length edges - 100 * 0).
  change (@nil string) with (map nameWithOwner (take (100 * 0) edges)).
  apply getGraphqlData_loop_pages; try assumption; [now left | cbn; lia].
Qed.

End InvestigationFacts.

(** ** The rate-limit delay *)

Lemma delayOf_header env err headers T :
  err_headers err = Some headers ->
  x_ratelimit_reset headers = Some T ->
  delayOf env err = Num (Z.max (Date_now env - T * 1000) 0).
Proof. unfold delayOf, rateLimitOf. intros -> ->. reflexivity. Qed.

(** A reset time that has not passed yet gives no delay: the handler goes on
    to the next checks. *)
Lemma delayOf_future_reset env err headers T :
  err_headers err = Some headers ->
  x_ratelimit_reset headers = Some T ->
  Date_now env <= T * 1000 ->
  truthy (delayOf env err) = false.
Proof.
  intros Hh HT Hle. rewrite (delayOf_header _ _ _ _ Hh HT). cbn.
  rewrite Z.max_r by lia. reflexivity.
Qed.

(** A reset time that has passed delays the job by the time elapsed since. *)
Lemma catchBlock_past_reset env job p err headers T w :
  err_headers err = Some headers ->
  x_ratelimit_reset headers = Some T ->
  T * 1000 < Date_now env ->
  catchBlock env job p err w =
  (Return tt,
   {| db := db w;
      queue := queue w ++
        [(data job, inheritedOpts job None (Some (Num (Date_now env - T * 1000))))];
      trace := trace w ++
        [Log (DelayingJob (Num (Date_now env - T * 1000)) (installationId (data job))
                (pr_repositoryId p) (pr_task p))] |}).
Proof.
  intros Hh HT Hlt. unfold catchBlock. rewrite (delayOf_header _ _ _ _ Hh HT).
  rewrite Z.max_l by lia. cbn [truthy].
  replace (Date_now env - T * 1000 =? 0) with false by (symmetry; apply Z.eqb_neq; lia).
  reflexivity.
Qed.

Lemma getCursorKey_names :
  getCursorKey (taskName pull) = "lastPullCursor" /\
  getCursorKey (taskName branch) = "lastBranchCursor" /\
  getCursorKey (taskName commit) = "lastCommitCursor".
Proof. repeat split. Qed.

(** ** The claims on concrete installations *)

Import Examples.

(** C1: at 10:00:00 a fetch fails with [x-ratelimit-reset] ten seconds
    ahead.  The delay the handler computes is 0, so nothing is enqueued: the
    installation is marked FAILED and the error is thrown again. *)
Theorem future_reset_marks_failed :
  x_ratelimit_reset <$> err_headers rateLimited = Some (Some 1614592810) /\
  Date_now (env (always rateLimited)) < 1614592810 * 1000 /\
  delayOf (env (always rateLimited)) rateLimited = Num 0 /\
  (handled (always rateLimited) pendingTwo).1 = Throw rateLimited /\
  queue (handled (always rateLimited) pendingTwo).2 = [] /\
  syncStatus <$> db (handled (always rateLimited) pendingTwo).2 !! jobKey job = Some FAILED.
Proof. vm_compute. repeat split; reflexivity. Qed.

(** C3: two fully synced repositories, one of them a record without its
    repository summary.  [getNextTask] does not answer "no task": the
    comparison of [sortedRepos] throws. *)
Theorem getNextTask_throws_on_old_record :
  map_Forall (fun _ repoData => isSynced repoData = true) oldRecord /\
  (getNextTask (jobKey job) syncedOld (world syncedOld)).1 =
  Throw (TypeError_undefined "updated_at").
Proof.
  split; [| vm_compute; reflexivity].
  intros k repoData. unfold oldRecord. rewrite lookup_insert.
  case_decide; [intros [= <-]; reflexivity |].
  rewrite lookup_singleton. case_decide; [intros [= <-]; reflexivity | discriminate].
Qed.

(** C4, as stated, fails: a task completes while another remains and the
    stored overall status is PENDING; [updateJobStatus] leaves it PENDING. *)
Lemma updateJobStatus_keeps_pending_status :
  (exists next,
     (getNextTask (jobKey job) (completed pendingTwo 1 branch) (world pendingTwo)).1 =
     Return (Some next, counted (completed pendingTwo 1 branch))) /\
  (updateJobStatus (env shrinking) job [] branch 1 (world pendingTwo)).1 = Return tt /\
  syncStatus <$>
    db (updateJobStatus (env shrinking) job [] branch 1 (world pendingTwo)).2 !! jobKey job
  = Some PENDING /\
  syncStatus <$>
    db (updateJobStatus (env shrinking) job [] branch 1 (world pendingTwo)).2 !! jobKey job
  <> Some ACTIVE.
Proof.
  split; [eexists; vm_compute; reflexivity |].
  vm_compute. repeat split. discriminate.
Qed.

(** C7, as stated, fails: a not-found error on the last outstanding task
    resolves normally and nothing is enqueued. *)
Lemma not_found_on_last_task_enqueues_nothing :
  isNotFoundError notFoundError = true /\
  (tryBlock (env (always notFoundError)) job
     (preparedBy (env (always notFoundError)) (world pendingLast))
     (ready (always notFoundError) pendingLast)).1 = Throw notFoundError /\
  (handled (always notFoundError) pendingLast).1 = Return tt /\
  queue (handled (always notFoundError) pendingLast).2 = [] /\
  syncStatus <$> db (handled (always notFoundError) pendingLast).2 !! jobKey job
  = Some COMPLETE.
Proof. vm_compute. repeat split; reflexivity. Qed.

(** C8, as stated, fails: an error with a NOT_FOUND entry whose text names
    a connection timeout is retried after 5000 ms and the task stays
    pending. *)
Lemma not_found_behind_timeout_is_retried :
  (exists errors, err_errors notFoundTimeout = Some errors /\
     Exists (fun error => gql_type error = "NOT_FOUND") errors) /\
  (runExecute (env (always notFoundTimeout)) job
     (preparedBy (env (always notFoundTimeout)) (world pendingLast))
     (ready (always notFoundTimeout) pendingLast)).1 = Throw notFoundTimeout /\
  (handled (always notFoundTimeout) pendingLast).1 = Return tt /\
  (fun row => storedStatus row 1 commit) <$>
    db (handled (always notFoundTimeout) pendingLast).2 !! jobKey job
  = Some (Some pending) /\
  (fun row => storedStatus row 1 commit) <$>
    db (handled (always notFoundTimeout) pendingLast).2 !! jobKey job
  <> Some (Some complete) /\
  queue (handled (always notFoundTimeout) pendingLast).2 =
  [(data job, inheritedOpts job None (Some (Num 5000)))].
Proof.
  split.
  - eexists. split; [reflexivity |]. constructor. reflexivity.
  - vm_compute. repeat split. discriminate.
Qed.

Lemma execute_page_size_fallback_witness :
  capacityExceeded shrinking 20 /\
  capacityExceeded shrinking 10 /\
  shrinking 5%nat = inl (page ["c1"; "c2"]) /\
  execute shrinking serverError = (Return (page ["c1"; "c2"]), [20; 10; 5]%nat).
Proof.
  assert (H20 : capacityExceeded shrinking 20).
  { exists capacityError, [ {| gql_type := "MAX_NODE_LIMIT_EXCEEDED" |} ].
    split; [reflexivity |]. split; [reflexivity |]. repeat constructor. }
  assert (H10 : capacityExceeded shrinking 10).
  { exists capacityError, [ {| gql_type := "MAX_NODE_LIMIT_EXCEEDED" |} ].
    split; [reflexivity |]. split; [reflexivity |]. repeat constructor. }
  split; [exact H20 |]. split; [exact H10 |]. split; [reflexivity |].
  exact (proj2 (proj2 (execute_page_size_fallback shrinking serverError))
           (page ["c1"; "c2"]) H20 H10 eq_refl).
Defined.

Lemma repos_never_shrink_witness :
  db (world pendingTwo) !! jobKey job = Some pendingTwo /\
  exists row,
    db (handled shrinking pendingTwo).2 !! jobKey job = Some row /\
    dom twoRepos ⊆ dom (repos (repoSyncState row)).
Proof.
  assert (H : db (world pendingTwo) !! jobKey job = Some pendingTwo)
    by (vm_compute; reflexivity).
  split; [exact H |].
  exact (proj2 (proj2 (proj2 repos_never_shrink)) (env shrinking) job (world pendingTwo)
           pendingTwo H).
Defined.

Lemma updateJobStatus_status_and_cursor_witness :
  db (world pendingTwo) !! jobKey job = Some pendingTwo /\
  exists row,
    db (updateJobStatus (env shrinking) job twoEdges branch 2 (world pendingTwo)).2
      !! jobKey job = Some row /\
    storedStatus row 2 branch = Some pending /\
    storedCursor row 2 branch = Some "c2".
Proof.
  assert (H : db (world pendingTwo) !! jobKey job = Some pendingTwo)
    by (vm_compute; reflexivity).
  split; [exact H |].
  destruct (updateJobStatus_status_and_cursor (env shrinking) job twoEdges branch 2
              (world pendingTwo) pendingTwo H) as (row & Hrow & Hstatus & _ & Hlast & _).
  exists row. split; [exact Hrow |]. split; [exact Hstatus |].
  exact (proj1 (proj2 (Hlast {| cursor := "c2" |} eq_refl))).
Defined.

Lemma updateJobStatus_persists_witness :
  db (world pendingTwo) !! jobKey job = Some pendingTwo /\
  updateJobStatus (env shrinking) job twoEdges branch 2 (world pendingTwo) =
  (Return tt, (updateJobStatus (env shrinking) job twoEdges branch 2 (world pendingTwo)).2) /\
  db (updateJobStatus (env shrinking) job twoEdges branch 2 (world pendingTwo)).2
    !! jobKey job =
  Some (set (set pendingTwo (reposPatch 2 (statusEntry branch pending)))
            (reposPatch 2 (cursorEntry branch "c2"))).
Proof.
  assert (H : db (world pendingTwo) !! jobKey job = Some pendingTwo)
    by (vm_compute; reflexivity).
  assert (Hrun : updateJobStatus (env shrinking) job twoEdges branch 2 (world pendingTwo) =
    (Return tt, (updateJobStatus (env shrinking) job twoEdges branch 2 (world pendingTwo)).2))
    by (vm_compute; reflexivity).
  split; [exact H |]. split; [exact Hrun |].
  exact (proj1 (proj2 (updateJobStatus_persists (env shrinking) job twoEdges branch 2
                         (world pendingTwo))) pendingTwo _ H Hrun).
Defined.

Lemma updateJobStatus_idempotent_witness :
  db (world pendingTwo) !! jobKey job = Some pendingTwo /\
  storedStatus pendingTwo 1 pull = Some complete /\
  exists row,
    db (updateJobStatus (env shrinking) job [] pull 1 (world pendingTwo)).2
      !! jobKey job = Some row /\
    db (updateJobStatus (env shrinking) job [] pull 1
          (updateJobStatus (env shrinking) job [] pull 1 (world pendingTwo)).2).2
      !! jobKey job = Some row /\
    storedStatus row 1 pull = Some complete.
Proof.
  assert (H : db (world pendingTwo) !! jobKey job = Some pendingTwo)
    by (vm_compute; reflexivity).
  assert (Hdone : storedStatus pendingTwo 1 pull = Some complete)
    by (vm_compute; reflexivity).
  split; [exact H |]. split; [exact Hdone |].
  destruct (updateJobStatus_idempotent (env shrinking) job pull 1 (world pendingTwo)
              pendingTwo H Hdone) as (row & Honce & Htwice & Hstatus & _).
  exists row. auto.
Defined.

Lemma updateJobStatus_task_completed_witness :
  db (world pendingTwo) !! jobKey job = Some pendingTwo /\
  sortedRepos (repos (repoSyncState (completed pendingTwo 1 branch))) =
  Return (sortedOf (repos (repoSyncState (completed pendingTwo 1 branch)))) /\
  (updateJobStatus (env shrinking) job [] branch 1 (world pendingTwo)).1 = Return tt.
Proof.
  assert (H : db (world pendingTwo) !! jobKey job = Some pendingTwo)
    by (vm_compute; reflexivity).
  assert (Hsorted : sortedRepos (repos (repoSyncState (completed pendingTwo 1 branch))) =
    Return (sortedOf (repos (repoSyncState (completed pendingTwo 1 branch)))))
    by (vm_compute; reflexivity).
  split; [exact H |]. split; [exact Hsorted |].
  exact (proj1 (updateJobStatus_task_completed (env shrinking) job branch 1
                  (world pendingTwo) pendingTwo _ H Hsorted)).
Defined.

Lemma processInstallation_rejects_unclassified_witness :
  prepare (env (always serverError)) job (world pendingTwo) =
  (Return (Some (preparedBy (env (always serverError)) (world pendingTwo))),
   ready (always serverError) pendingTwo) /\
  tryBlock (env (always serverError)) job
    (preparedBy (env (always serverError)) (world pendingTwo))
    (ready (always serverError) pendingTwo) =
  (Throw serverError, caught (always serverError) pendingTwo) /\
  rateLimitOf serverError = NaN /\
  ((handled (always serverError) pendingTwo).1 = Throw serverError <->
   isTimeout serverError = false /\ isAbuse serverError = false /\
   isNotFoundError serverError = false).
Proof.
  assert (Hp : prepare (env (always serverError)) job (world pendingTwo) =
    (Return (Some (preparedBy (env (always serverError)) (world pendingTwo))),
     ready (always serverError) pendingTwo)) by (vm_compute; reflexivity).
  assert (Ht : tryBlock (env (always serverError)) job
      (preparedBy (env (always serverError)) (world pendingTwo))
      (ready (always serverError) pendingTwo) =
    (Throw serverError, caught (always serverError) pendingTwo))
    by (vm_compute; reflexivity).
  split; [exact Hp |]. split; [exact Ht |]. split; [reflexivity |].
  exact (proj2 (proj2 (proj2 (proj2
           (processInstallation_rejects_unclassified _ _ _ _ _ _ _ Hp Ht eq_refl))))).
Defined.

Lemma processInstallation_not_found_witness :
  prepare (env (always notFoundError)) job (world pendingLast) =
  (Return (Some (preparedBy (env (always notFoundError)) (world pendingLast))),
   ready (always notFoundError) pendingLast) /\
  runExecute (env (always notFoundError)) job
    (preparedBy (env (always notFoundError)) (world pendingLast))
    (ready (always notFoundError) pendingLast) =
  (Throw notFoundError, caught (always notFoundError) pendingLast) /\
  isNotFoundError notFoundError = true /\
  rateLimitOf notFoundError = NaN /\
  isTimeout notFoundError = false /\
  isAbuse notFoundError = false /\
  (handled (always notFoundError) pendingLast).1 <> Throw notFoundError /\
  exists row,
    db (handled (always notFoundError) pendingLast).2 !! jobKey job = Some row /\
    storedStatus row 1 commit = Some complete /\
    syncStatus row <> FAILED.
Proof.
  assert (Hp : prepare (env (always notFoundError)) job (world pendingLast) =
    (Return (Some (preparedBy (env (always notFoundError)) (world pendingLast))),
     ready (always notFoundError) pendingLast)) by (vm_compute; reflexivity).
  assert (He : runExecute (env (always notFoundError)) job
      (preparedBy (env (always notFoundError)) (world pendingLast))
      (ready (always notFoundError) pendingLast) =
    (Throw notFoundError, caught (always notFoundError) pendingLast))
    by (vm_compute; reflexivity).
  assert (Hnf : isNotFoundError notFoundError = true) by reflexivity.
  assert (Htimeout : isTimeout notFoundError = false) by (vm_compute; reflexivity).
  assert (Habuse : isAbuse notFoundError = false) by (vm_compute; reflexivity).
  split; [exact Hp |]. split; [exact He |]. split; [exact Hnf |].
  split; [reflexivity |]. split; [exact Htimeout |]. split; [exact Habuse |].
  destruct (processInstallation_not_found _ _ _ _ _ _ _ Hp He Hnf eq_refl Htimeout Habuse)
    as (_ & Hthrow & Hrow & _).
  split; [exact Hthrow | exact Hrow].
Defined.

(** ** The properties at concrete inputs *)

Lemma processInstallation_touches_one_row_witness :
  Scenarios.otherKey <> jobKey job /\
  db (processInstallation (env shrinking) job (Scenarios.shared pendingTwo)).2
    !! Scenarios.otherKey
  = db (Scenarios.shared pendingTwo) !! Scenarios.otherKey.
Proof.
  split; [discriminate |].
  apply (processInstallation_touches_one_row (env shrinking) job
           (Scenarios.shared pendingTwo) Scenarios.otherKey).
  discriminate.
Defined.

Lemma processInstallation_resolved_run_witness :
  (processInstallation (env shrinking) job (world pendingTwo)).1 = Return tt /\
  ((db (world pendingTwo) !! jobKey job = None /\
    db (processInstallation (env shrinking) job (world pendingTwo)).2
      = db (world pendingTwo) /\
    queue (processInstallation (env shrinking) job (world pendingTwo)).2
      = queue (world pendingTwo)) \/
   (enqueuedOnce job (world pendingTwo)
      (processInstallation (env shrinking) job (world pendingTwo)).2 /\
    syncStatus <$>
      db (processInstallation (env shrinking) job (world pendingTwo)).2 !! jobKey job
      = Some ACTIVE) \/
   (queue (processInstallation (env shrinking) job (world pendingTwo)).2
      = queue (world pendingTwo) /\
    syncStatus <$>
      db (processInstallation (env shrinking) job (world pendingTwo)).2 !! jobKey job
      = Some COMPLETE)).
Proof.
  split; [vm_compute; reflexivity |].
  apply (processInstallation_resolved_run (env shrinking) job (world pendingTwo)).
  vm_compute; reflexivity.
Defined.

Lemma processInstallation_failed_only_when_rejected_witness :
  db (world pendingTwo) !! jobKey job = Some pendingTwo /\
  syncStatus pendingTwo <> FAILED /\
  syncStatus <$>
    db (processInstallation (env (always serverError)) job (world pendingTwo)).2
      !! jobKey job = Some FAILED /\
  exists err,
    (processInstallation (env (always serverError)) job (world pendingTwo)).1
      = Throw err /\
    queue (processInstallation (env (always serverError)) job (world pendingTwo)).2
      = queue (world pendingTwo).
Proof.
  split; [vm_compute; reflexivity |]. split; [discriminate |].
  split; [vm_compute; reflexivity |].
  apply (processInstallation_failed_only_when_rejected (env (always serverError)) job
           (world pendingTwo) pendingTwo).
  - vm_compute; reflexivity.
  - discriminate.
  - vm_compute; reflexivity.
Defined.

Lemma processInstallation_nothing_left_witness :
  firstTask (sortedOf (repos (repoSyncState Scenarios.allSynced))) = None /\
  processInstallation (env shrinking) job (world Scenarios.allSynced)
  = (Return tt,
     {| db := <[ jobKey job := set (counted Scenarios.allSynced)
                                   (syncStatusPatch COMPLETE) ]>
                (db (world Scenarios.allSynced));
        queue := queue (world Scenarios.allSynced);
        trace := trace (world Scenarios.allSynced)
                 ++ [Log (StartingJob (installationId (data job)))] |}).
Proof.
  split; [vm_compute; reflexivity |].
  apply (processInstallation_nothing_left (env shrinking) job
           (world Scenarios.allSynced) Scenarios.allSynced
           (sortedOf (repos (repoSyncState Scenarios.allSynced))));
    vm_compute; reflexivity.
Defined.

Lemma updateJobStatus_keeps_other_progress_witness :
  db (world pendingTwo) !! jobKey job = Some pendingTwo /\
  exists row,
    db (updateJobStatus (env shrinking) job twoEdges branch 1%N (world pendingTwo)).2
      !! jobKey job = Some row /\
    (forall other, other <> 1%N ->
       repos (repoSyncState row) !! other
       = repos (repoSyncState pendingTwo) !! other) /\
    (forall repoData, repos (repoSyncState pendingTwo) !! 1%N = Some repoData ->
       exists repoData',
         repos (repoSyncState row) !! 1%N = Some repoData' /\
         repository repoData' = repository repoData /\
         (forall t, t <> branch ->
            statusOf t repoData' = statusOf t repoData /\
            cursorOf t repoData' = cursorOf t repoData) /\
         (twoEdges = [] -> cursorOf branch repoData' = cursorOf branch repoData)).
Proof.
  split; [vm_compute; reflexivity |].
  apply (updateJobStatus_keeps_other_progress (env shrinking) job twoEdges branch 1%N
           (world pendingTwo) pendingTwo).
  vm_compute; reflexivity.
Defined.

Lemma processInstallation_submission_fails_witness :
  jira_repository_update Scenarios.rejectingJira "devinfo" = Some serverError /\
  isNotFoundError serverError = false /\
  ((processInstallation Scenarios.rejectingJira job (world pendingTwo)).1 = Return tt \/
   (processInstallation Scenarios.rejectingJira job (world pendingTwo)).1
     = Throw serverError) /\
  exists row,
    db (processInstallation Scenarios.rejectingJira job (world pendingTwo)).2
      !! jobKey job = Some row /\
    repos (repoSyncState row)
      = repos (repoSyncState
                 (pr_subscription
                    (Scenarios.preparedFor Scenarios.rejectingJira (world pendingTwo)))) /\
    (syncStatus row = ACTIVE \/ syncStatus row = FAILED).
Proof.
  split; [reflexivity |]. split; [vm_compute; reflexivity |].
  apply (processInstallation_submission_fails Scenarios.rejectingJira job
           (world pendingTwo)
           (Scenarios.preparedFor Scenarios.rejectingJira (world pendingTwo))
           (prepare Scenarios.rejectingJira job (world pendingTwo)).2
           Scenarios.payloadPage
           (runExecute Scenarios.rejectingJira job
              (Scenarios.preparedFor Scenarios.rejectingJira (world pendingTwo))
              (prepare Scenarios.rejectingJira job (world pendingTwo)).2).2
           "devinfo" serverError);
    vm_compute; reflexivity.
Defined.

Lemma processInstallation_page_processed_witness :
  last (edges (page ["c1"; "c2"])) = Some {| cursor := "c2" |} /\
  (processInstallation (env shrinking) job (world pendingTwo)).1 = Return tt /\
  queue (processInstallation (env shrinking) job (world pendingTwo)).2
  = queue (world pendingTwo) ++
    [(data job,
      inheritedOpts job (Some 3%nat)
        (Some (Num (or_default (LIMITER_PER_INSTALLATION (env shrinking)) 1000))))] /\
  exists row,
    db (processInstallation (env shrinking) job (world pendingTwo)).2 !! jobKey job
      = Some row /\
    syncStatus row = ACTIVE /\
    storedStatus row
      (pr_repositoryId (preparedBy (env shrinking) (world pendingTwo)))
      (pr_task (preparedBy (env shrinking) (world pendingTwo))) = Some pending /\
    storedCursor row
      (pr_repositoryId (preparedBy (env shrinking) (world pendingTwo)))
      (pr_task (preparedBy (env shrinking) (world pendingTwo))) = Some "c2".
Proof.
  split; [reflexivity |].
  apply (processInstallation_page_processed (env shrinking) job (world pendingTwo)
           (preparedBy (env shrinking) (world pendingTwo))
           (ready shrinking pendingTwo)
           (page ["c1"; "c2"])
           (runExecute (env shrinking) job
              (preparedBy (env shrinking) (world pendingTwo))
              (ready shrinking pendingTwo)).2
           {| cursor := "c2" |});
    vm_compute; first [reflexivity | exact I].
Defined.

Lemma processInstallation_old_record_witness :
  firstTask (sortedOf (repos (repoSyncState Scenarios.unsummarised)))
    = Some Scenarios.selected /\
  size (repos (repoSyncState Scenarios.unsummarised)) = 1%nat /\
  processInstallation Scenarios.unreachable job (world Scenarios.unsummarised)
  = (Throw serverError,
     {| db := <[ jobKey job := set (counted Scenarios.unsummarised)
                                   (syncStatusPatch ACTIVE) ]>
                (db (world Scenarios.unsummarised));
        queue := queue (world Scenarios.unsummarised);
        trace := trace (world Scenarios.unsummarised)
                 ++ [Log (StartingJob (installationId (data job)));
                     GetRepository (nt_repositoryId Scenarios.selected)] |}).
Proof.
  split; [vm_compute; reflexivity |].
  refine (processInstallation_old_record Scenarios.unreachable job
            (world Scenarios.unsummarised) Scenarios.unsummarised
            (sortedOf (repos (repoSyncState Scenarios.unsummarised)))
            Scenarios.selected _ _ _ _ _ _);
    vm_compute; reflexivity.
Defined.

Lemma getNextTask_counts_witness :
  getNextTask (jobKey job) pendingTwo (world pendingTwo)
    = (Return (firstTask (sortedOf twoRepos), counted pendingTwo),
       (getNextTask (jobKey job) pendingTwo (world pendingTwo)).2) /\
  numberOfSyncedRepos (repoSyncState (counted pendingTwo))
    = Some (syncedCount (repos (repoSyncState pendingTwo))) /\
  repos (repoSyncState (counted pendingTwo)) = repos (repoSyncState pendingTwo) /\
  (syncedCount (repos (repoSyncState pendingTwo))
   <= size (repos (repoSyncState pendingTwo)))%nat /\
  (firstTask (sortedOf twoRepos) = None <->
   syncedCount (repos (repoSyncState pendingTwo))
   = size (repos (repoSyncState pendingTwo))) /\
  (is_Some (db (world pendingTwo) !! jobKey job) ->
   db (getNextTask (jobKey job) pendingTwo (world pendingTwo)).2 !! jobKey job
   = Some (counted pendingTwo)).
Proof.
  split; [vm_compute; reflexivity |].
  apply (getNextTask_counts (jobKey job) pendingTwo (world pendingTwo)
           (firstTask (sortedOf twoRepos)) (counted pendingTwo)
           (getNextTask (jobKey job) pendingTwo (world pendingTwo)).2).
  vm_compute; reflexivity.
Defined.

Lemma twoRepos_summaries :
  forall k repoData,
    repos (repoSyncState pendingTwo) !! k = Some repoData ->
    is_Some (repository repoData).
Proof.
  intros k repoData. cbn. unfold twoRepos. rewrite lookup_insert.
  case_decide; [intros [= <-]; eexists; reflexivity |].
  rewrite lookup_singleton. case_decide; [intros [= <-]; eexists; reflexivity |].
  discriminate.
Defined.

Lemma twoRepos_indices :
  forall k repoData,
    repos (repoSyncState pendingTwo) !! k = Some repoData -> arrayIndex k.
Proof.
  intros k repoData. cbn. unfold twoRepos. rewrite lookup_insert.
  case_decide; [intros _; subst k; reflexivity |].
  rewrite lookup_singleton. case_decide; [intros _; subst k; reflexivity |].
  discriminate.
Defined.

Lemma getNextTask_selects_witness :
  (forall k repoData,
     repos (repoSyncState pendingTwo) !! k = Some repoData -> arrayIndex k) /\
  (forall k repoData,
     repos (repoSyncState pendingTwo) !! k = Some repoData ->
     is_Some (repository repoData)) /\
  exists sorted next subscription',
    (getNextTask (jobKey job) pendingTwo (world pendingTwo)).1
      = Return (next, subscription') /\
    (forall k repoData,
       (k, repoData) ∈ sorted <->
       repos (repoSyncState pendingTwo) !! k = Some repoData) /\
    StronglySorted visitedBefore sorted /\
    next = firstTask sorted /\
    (next = None <->
     forall k repoData, repos (repoSyncState pendingTwo) !! k = Some repoData ->
                        isSynced repoData = true) /\
    (forall found, next = Some found ->
       exists before repoData after,
         sorted = before ++ (nt_repositoryId found, repoData) :: after /\
         Forall (fun e => isSynced e.2 = true) before /\
         firstOutstanding repoData (nt_task found) /\
         nt_repository found = repository repoData /\
         nt_cursor found = cursorOf (nt_task found) repoData).
Proof.
  split; [exact twoRepos_indices |]. split; [exact twoRepos_summaries |].
  exact (getNextTask_selects (jobKey job) pendingTwo (world pendingTwo)
           twoRepos_indices twoRepos_summaries).
Defined.

Lemma repository_update_within_limit_witness :
  (forall c, c ∈ default [] (JiraClient.commits Scenarios.smallPayload) ->
     (length (JiraClient.dedup (JiraClient.commit_issueKeys c))
      <= JiraClient.ISSUE_KEY_API_LIMIT)%nat) /\
  (forall b, b ∈ default [] (JiraClient.branches Scenarios.smallPayload) ->
     (length (JiraClient.dedup (JiraClient.branch_issueKeys b))
      <= JiraClient.ISSUE_KEY_API_LIMIT)%nat) /\
  JiraClient.repository_update "acme.atlassian.net" 7 Scenarios.smallPayload None ∅
  = {| JiraClient.outcome :=
         JiraClient.Awaiting
           (JiraClient.batchedBulkUpdate
              (JiraClient.dedupIssueKeys Scenarios.smallPayload) None 7).1;
       JiraClient.payload :=
         (JiraClient.batchedBulkUpdate
            (JiraClient.dedupIssueKeys Scenarios.smallPayload) None 7).2;
       JiraClient.table := ∅ |}.
Proof.
  assert (Hc : forall c, c ∈ default [] (JiraClient.commits Scenarios.smallPayload) ->
     (length (JiraClient.dedup (JiraClient.commit_issueKeys c))
      <= JiraClient.ISSUE_KEY_API_LIMIT)%nat).
  { apply Forall_forall. repeat constructor; vm_compute; lia. }
  assert (Hb : forall b, b ∈ default [] (JiraClient.branches Scenarios.smallPayload) ->
     (length (JiraClient.dedup (JiraClient.branch_issueKeys b))
      <= JiraClient.ISSUE_KEY_API_LIMIT)%nat).
  { apply Forall_forall. repeat constructor; vm_compute; lia. }
  split; [exact Hc |]. split; [exact Hb |].
  exact (repository_update_within_limit "acme.atlassian.net" 7
           Scenarios.smallPayload None ∅ Hc Hb).
Defined.

Lemma repository_update_beyond_limit_witness :
  ((exists c, c ∈ default [] (JiraClient.commits Scenarios.largePayload) /\
      (JiraClient.ISSUE_KEY_API_LIMIT
       < length (JiraClient.dedup (JiraClient.commit_issueKeys c)))%nat) \/
   (exists b, b ∈ default [] (JiraClient.branches Scenarios.largePayload) /\
      (JiraClient.ISSUE_KEY_API_LIMIT
       < length (JiraClient.dedup (JiraClient.branch_issueKeys b)))%nat)) /\
  JiraClient.repository_update "acme.atlassian.net" 7 Scenarios.largePayload None ∅
  = {| JiraClient.outcome := JiraClient.Thrown (JiraClient.TypeError_null "update");
       JiraClient.payload :=
         JiraClient.truncateIssueKeys
           (JiraClient.dedupIssueKeys Scenarios.largePayload);
       JiraClient.table := ∅ |}.
Proof.
  assert (Hover :
    (exists c, c ∈ default [] (JiraClient.commits Scenarios.largePayload) /\
       (JiraClient.ISSUE_KEY_API_LIMIT
        < length (JiraClient.dedup (JiraClient.commit_issueKeys c)))%nat) \/
    (exists b, b ∈ default [] (JiraClient.branches Scenarios.largePayload) /\
       (JiraClient.ISSUE_KEY_API_LIMIT
        < length (JiraClient.dedup (JiraClient.branch_issueKeys b)))%nat)).
  { left. exists Scenarios.busyCommit. split; [left |]. vm_compute. lia. }
  split; [exact Hover |].
  exact (repository_update_beyond_limit "acme.atlassian.net" 7
           Scenarios.largePayload None ∅ Hover).
Defined.

Lemma rejected_sync_resolves_unreported_witness :
  (processInstallation (env (always serverError)) (Worker.job Scenarios.delivered)
     (Worker.world (Scenarios.started pendingTwo))).1 = Throw serverError /\
  (Worker.sentryMiddleware (Worker.installationHandler (env (always serverError)))
     Scenarios.delivered (Scenarios.started pendingTwo)).1 = Throw serverError /\
  last (Worker.telemetry
          (Worker.sentryMiddleware
             (Worker.installationHandler (env (always serverError)))
             Scenarios.delivered (Scenarios.started pendingTwo)).2)
    = Some (Worker.CaptureException serverError) /\
  (Worker.commonMiddleware (Worker.installationHandler (env (always serverError)))
     Scenarios.delivered (Scenarios.started pendingTwo)).1 = Return tt /\
  Worker.world
    (Worker.commonMiddleware (Worker.installationHandler (env (always serverError)))
       Scenarios.delivered (Scenarios.started pendingTwo)).2
    = (processInstallation (env (always serverError)) (Worker.job Scenarios.delivered)
         (Worker.world (Scenarios.started pendingTwo))).2 /\
  forall e,
    Worker.CaptureException e ∈
      Worker.telemetry
        (Worker.commonMiddleware
           (Worker.installationHandler (env (always serverError)))
           Scenarios.delivered (Scenarios.started pendingTwo)).2 ->
    Worker.CaptureException e ∈ Worker.telemetry (Scenarios.started pendingTwo).
Proof.
  assert (Hrun :
    (processInstallation (env (always serverError)) (Worker.job Scenarios.delivered)
       (Worker.world (Scenarios.started pendingTwo))).1 = Throw serverError)
    by (vm_compute; reflexivity).
  split; [exact Hrun |].
  exact (rejected_sync_resolves_unreported (env (always serverError))
           Scenarios.delivered (Scenarios.started pendingTwo) serverError Hrun).
Defined.

Lemma getRestData_lists_all_witness :
  (forall page, (1 <= page)%nat ->
     Investigation.rest Scenarios.account page
     = Return (take 100 (drop (100 * (page - 1)) Scenarios.twoNames))) /\
  Investigation.getRestData 1 Scenarios.account
  = if (1 <=? length Scenarios.twoNames / 100)%nat then None
    else Some (Return Scenarios.twoNames).
Proof.
  assert (Hrest : forall page, (1 <= page)%nat ->
     Investigation.rest Scenarios.account page
     = Return (take 100 (drop (100 * (page - 1)) Scenarios.twoNames)))
    by (intros page _; reflexivity).
  split; [exact Hrest |].
  exact (getRestData_lists_all Scenarios.account Scenarios.twoNames 1 Hrest).
Defined.

Lemma getGraphqlData_lists_all_or_rejects_witness :
  Investigation.graphql Scenarios.account None
    = Return (take 100 Scenarios.twoRepoEdges) /\
  (forall i edge, Scenarios.twoRepoEdges !! i = Some edge ->
     Investigation.graphql Scenarios.account (Some (Investigation.cursor edge))
     = Return (take 100 (drop (S i) Scenarios.twoRepoEdges))) /\
  (forall edge, edge ∈ Scenarios.twoRepoEdges ->
     Investigation.cursor edge <> EmptyString) /\
  Investigation.getGraphqlData 1 Scenarios.account
  = if (1 <=? length Scenarios.twoRepoEdges / 100)%nat then None
    else Some (if (length Scenarios.twoRepoEdges mod 100 =? 0)%nat
               then Investigation.httpError (TypeError_undefined "cursor")
               else Return (map Investigation.nameWithOwner Scenarios.twoRepoEdges)).
Proof.
  assert (Hfirst : Investigation.graphql Scenarios.account None
                   = Return (take 100 Scenarios.twoRepoEdges)) by reflexivity.
  assert (Hnext : forall i edge, Scenarios.twoRepoEdges !! i = Some edge ->
     Investigation.graphql Scenarios.account (Some (Investigation.cursor edge))
     = Return (take 100 (drop (S i) Scenarios.twoRepoEdges))).
  { intros [| [| i]] edge; cbn; [intros [= <-]; reflexivity .. | discriminate]. }
  assert (Hcursor : forall edge, edge ∈ Scenarios.twoRepoEdges ->
     Investigation.cursor edge <> EmptyString).
  { apply Forall_forall. repeat constructor; discriminate. }
  split; [exact Hfirst |]. split; [exact Hnext |]. split; [exact Hcursor |].
  exact (getGraphqlData_lists_all_or_rejects Scenarios.account
           Scenarios.twoRepoEdges 1 Hfirst Hnext Hcursor).
Defined.

Lemma processInstallation_timeout_or_abuse_witness :
  truthy (delayOf (env (always Scenarios.timedOut)) Scenarios.timedOut) = false /\
  isTimeout Scenarios.timedOut || isAbuse Scenarios.timedOut = true /\
  processInstallation (env (always Scenarios.timedOut)) job (world pendingTwo)
  = (Return tt,
     {| db := db (caught (always Scenarios.timedOut) pendingTwo);
        queue := queue (caught (always Scenarios.timedOut) pendingTwo) ++
                 [(data job,
                   inheritedOpts job None
                     (Some (Num (if isTimeout Scenarios.timedOut
                                 then 5000 else 60000))))];
        trace := trace (caught (always Scenarios.timedOut) pendingTwo) ++
                 [Log (if isTimeout Scenarios.timedOut
                       then TimedOut (installationId (data job))
                              (pr_repositoryId
                                 (preparedBy (env (always Scenarios.timedOut))
                                    (world pendingTwo)))
                              (pr_task
                                 (preparedBy (env (always Scenarios.timedOut))
                                    (world pendingTwo)))
                       else AbuseDetection (installationId (data job))
                              (pr_repositoryId
                                 (preparedBy (env (always Scenarios.timedOut))
                                    (world pendingTwo)))
                              (pr_task
                                 (preparedBy (env (always Scenarios.timedOut))
                                    (world pendingTwo))))] |}).
Proof.
  split; [vm_compute; reflexivity |]. split; [vm_compute; reflexivity |].
  apply (processInstallation_timeout_or_abuse (env (always Scenarios.timedOut)) job
           (world pendingTwo)
           (preparedBy (env (always Scenarios.timedOut)) (world pendingTwo))
           (ready (always Scenarios.timedOut) pendingTwo)
           Scenarios.timedOut
           (caught (always Scenarios.timedOut) pendingTwo));
    vm_compute; reflexivity.
Defined.
